(** * Ardour clip launcher: [Trigger], [AudioTrigger] and [TriggerBox]

    A shallow embedding of [libs/ardour/triggerbox.cc] and
    [libs/ardour/ardour/triggerbox.h].

    Conventions of the embedding:
    - a [Trigger*] is the slot of the trigger in [all_triggers]; the two
      launch queues and [currently_playing] hold slots;
    - [std::atomic<int>] counters are [Z] in the range of [int], with the
      two's complement wrap of [fetch_add]/[fetch_sub] written out;
      [pframes_t] is an unsigned 32 bit [Z];
    - sample positions and counts ([samplepos_t], [samplecnt_t], 64 bit
      signed) are [Z]; musical time ([Temporal::Beats]) is a tick count;
    - [abort()], failed [assert]s, null dereferences and reads past the end
      of [all_triggers] are faults of an error monad; loops without an
      evident bound take fuel;
    - of the PCM arrays ([AudioTrigger::data]) the embedding keeps their
      number, [data.size ()], which [AudioTrigger::run] divides by; the
      samples and the [BufferSet] written by [run] are left out;
    - the tempo map, the random generator, the region registry and the
      stretcher are collaborators, abstracted by type classes. *)

From stdpp Require Import base option list gmap strings.
From Stdlib Require Import ZArith Lia.

#[local] Open Scope Z_scope.

(** ** Machine integers *)

Definition wrap_int (z : Z) : Z := (z + 2 ^ 31) mod 2 ^ 32 - 2 ^ 31.
Definition wrap_u32 (z : Z) : Z := z mod 2 ^ 32.

Definition INT_MAX : Z := 2 ^ 31 - 1.
Definition INT_MIN : Z := - 2 ^ 31.

Definition int_range (z : Z) : Prop := INT_MIN <= z <= INT_MAX.
Definition u32_range (z : Z) : Prop := 0 <= z < 2 ^ 32.

(** [std::atomic<int>::fetch_add] and [fetch_sub]: the stored value. *)
Definition fetch_add (x d : Z) : Z := wrap_int (x + d).
Definition fetch_sub (x d : Z) : Z := wrap_int (x - d).

(** ** Faults and the error monad *)

Inductive Fault : Type :=
  | Abort             (* abort () *)
  | AssertionFailed   (* assert (...) does not hold *)
  | NullDereference   (* member call through a null pointer *)
  | OutOfBounds       (* operator[] past the end of a vector *)
  | DivisionByZero.   (* integer % by zero *)

Inductive outcome (A : Type) : Type :=
  | Done (a : A)
  | Crash (f : Fault)
  | OutOfFuel.
Arguments Done {A} a.
Arguments Crash {A} f.
Arguments OutOfFuel {A}.

Definition bind {A B : Type} (m : outcome A) (k : A -> outcome B) : outcome B :=
  match m with
  | Done a => k a
  | Crash f => Crash f
  | OutOfFuel => OutOfFuel
  end.

Notation "x <- m ;; k" := (bind m (fun x => k))
  (at level 20, m at level 99, k at level 200).
Notation "' pat <- m ;; k" := (bind m (fun x => match x with pat => k end))
  (at level 20, pat pattern, m at level 99, k at level 200).

Definition assert (c : bool) : outcome unit :=
  if c then Done tt else Crash AssertionFailed.

(** ** Enumerations of [Trigger] *)

Inductive State : Type :=
  | None_ | Stopped | WaitingToStart | Running
  | WaitingForRetrigger | WaitingToStop | Stopping.

Definition State_value (s : State) : Z :=
  match s with
  | None_ => 0 | Stopped => 1 | WaitingToStart => 2 | Running => 3
  | WaitingForRetrigger => 4 | WaitingToStop => 5 | Stopping => 6
  end.

#[global] Instance State_eq_dec : EqDecision State.
Proof. solve_decision. Defined.

Inductive LaunchStyle : Type := OneShot | Gate | Toggle | Repeat.

#[global] Instance LaunchStyle_eq_dec : EqDecision LaunchStyle.
Proof. solve_decision. Defined.

Inductive FollowAction : Type :=
  | Stop | Again | QueuedTrigger | NextTrigger | PrevTrigger
  | FirstTrigger | LastTrigger | AnyTrigger | OtherTrigger.

#[global] Instance FollowAction_eq_dec : EqDecision FollowAction.
Proof. solve_decision. Defined.

Inductive RunType : Type := RunEnd | RunStart | RunAll | RunNone.

#[global] Instance RunType_eq_dec : EqDecision RunType.
Proof. solve_decision. Defined.

(** [Temporal::BBT_Offset]. *)
Record BBT_Offset : Type := mkBBT { bars : Z; beats : Z; ticks : Z }.

#[global] Instance BBT_Offset_eq_dec : EqDecision BBT_Offset.
Proof. solve_decision. Defined.

(** [Temporal::timepos_t]: a position in one of the two time domains. *)
Inductive timepos_t : Type :=
  | AudioTime (samples : Z)
  | BeatTime (b : Z).

#[global] Instance timepos_t_eq_dec : EqDecision timepos_t.
Proof. solve_decision. Defined.

(** ** Collaborators

    What the trigger code consumes from [Region]/[AudioRegion]: the
    identifier, the length, the channel count and the name; [audio] tells
    whether [dynamic_pointer_cast<AudioRegion>] succeeds and [readable]
    whether [AudioRegion::read] returns without raising. *)
Record Region : Type := mkRegion {
  id : Z;
  length_samples : Z;
  length : timepos_t;
  n_channels : Z;
  name : string;
  audio : bool;
  readable : bool
}.

(** [Temporal::Beats] arithmetic and the tempo map. *)
Class Tempo : Type := {
  ticks_per_beat : Z;
  snap_to : Z -> Z -> Z;          (* Beats::snap_to *)
  beats_of_samples : Z -> Z;      (* timepos_t (samples).beats () *)
  samples_of_beats : Z -> Z       (* timepos_t (beats).samples () *)
}.

(** [PBD::PCGRand]: [pcg_rand g max] is the value of [g.rand (max)] and
    the generator after the draw. *)
Class Prng : Type := {
  PCGRand : Type;
  pcg_rand : PCGRand -> Z -> Z * PCGRand
}.

(** [RegionFactory::region_by_id] and the offline stretch of
    [RubberBandStretcher]: [stretch_processed len target] is the number of
    samples the stretcher hands back for [len] input samples and a
    requested length of [target] samples. *)
Class Session : Type := {
  region_by_id : Z -> option Region;
  stretch_processed : Z -> Z -> Z
}.

(** ** The [Trigger] base class

    [_ui] (an opaque handle) and [_next_trigger] (never initialised or
    read) are left out. *)
Record Trigger : Type := mkTrigger {
  _state : State;
  _requested_state : State;
  _bang : Z;
  _unbang : Z;
  _index : nat;
  _launch_style : LaunchStyle;
  _follow_action : FollowAction * FollowAction;
  _follow_action_probability : Z;
  _region : option Region;
  _quantization : BBT_Offset;
  _legato : bool;
  _name : string;
  bang_samples : Z;
  bang_beats : Z
}.

(** ** [AudioTrigger] *)
Record AudioTrigger : Type := mkAudioTrigger {
  trigger :> Trigger;
  data_size : Z;      (* [data.size ()], the number of PCM arrays held *)
  read_index : Z;
  data_length : Z;
  _start_offset : Z;
  _legato_offset : Z;
  usable_length : Z;
  last_sample : Z
}.

(** Field assignments. *)
Definition with_state (v : State) (t : Trigger) : Trigger :=
  mkTrigger v (_requested_state t) (_bang t) (_unbang t) (_index t)
    (_launch_style t) (_follow_action t) (_follow_action_probability t)
    (_region t) (_quantization t) (_legato t) (_name t)
    (bang_samples t) (bang_beats t).
Definition with_requested_state (v : State) (t : Trigger) : Trigger :=
  mkTrigger (_state t) v (_bang t) (_unbang t) (_index t)
    (_launch_style t) (_follow_action t) (_follow_action_probability t)
    (_region t) (_quantization t) (_legato t) (_name t)
    (bang_samples t) (bang_beats t).
Definition with_bang (v : Z) (t : Trigger) : Trigger :=
  mkTrigger (_state t) (_requested_state t) v (_unbang t) (_index t)
    (_launch_style t) (_follow_action t) (_follow_action_probability t)
    (_region t) (_quantization t) (_legato t) (_name t)
    (bang_samples t) (bang_beats t).
Definition with_unbang (v : Z) (t : Trigger) : Trigger :=
  mkTrigger (_state t) (_requested_state t) (_bang t) v (_index t)
    (_launch_style t) (_follow_action t) (_follow_action_probability t)
    (_region t) (_quantization t) (_legato t) (_name t)
    (bang_samples t) (bang_beats t).
Definition with_index (v : nat) (t : Trigger) : Trigger :=
  mkTrigger (_state t) (_requested_state t) (_bang t) (_unbang t) v
    (_launch_style t) (_follow_action t) (_follow_action_probability t)
    (_region t) (_quantization t) (_legato t) (_name t)
    (bang_samples t) (bang_beats t).
Definition with_launch_style (v : LaunchStyle) (t : Trigger) : Trigger :=
  mkTrigger (_state t) (_requested_state t) (_bang t) (_unbang t) (_index t)
    v (_follow_action t) (_follow_action_probability t)
    (_region t) (_quantization t) (_legato t) (_name t)
    (bang_samples t) (bang_beats t).
Definition with_follow_action (v : FollowAction * FollowAction) (t : Trigger)
  : Trigger :=
  mkTrigger (_state t) (_requested_state t) (_bang t) (_unbang t) (_index t)
    (_launch_style t) v (_follow_action_probability t)
    (_region t) (_quantization t) (_legato t) (_name t)
    (bang_samples t) (bang_beats t).
Definition with_follow_action_probability (v : Z) (t : Trigger) : Trigger :=
  mkTrigger (_state t) (_requested_state t) (_bang t) (_unbang t) (_index t)
    (_launch_style t) (_follow_action t) v
    (_region t) (_quantization t) (_legato t) (_name t)
    (bang_samples t) (bang_beats t).
Definition with_region (v : option Region) (t : Trigger) : Trigger :=
  mkTrigger (_state t) (_requested_state t) (_bang t) (_unbang t) (_index t)
    (_launch_style t) (_follow_action t) (_follow_action_probability t)
    v (_quantization t) (_legato t) (_name t)
    (bang_samples t) (bang_beats t).
Definition with_quantization (v : BBT_Offset) (t : Trigger) : Trigger :=
  mkTrigger (_state t) (_requested_state t) (_bang t) (_unbang t) (_index t)
    (_launch_style t) (_follow_action t) (_follow_action_probability t)
    (_region t) v (_legato t) (_name t)
    (bang_samples t) (bang_beats t).
Definition with_legato (v : bool) (t : Trigger) : Trigger :=
  mkTrigger (_state t) (_requested_state t) (_bang t) (_unbang t) (_index t)
    (_launch_style t) (_follow_action t) (_follow_action_probability t)
    (_region t) (_quantization t) v (_name t)
    (bang_samples t) (bang_beats t).
Definition with_name (v : string) (t : Trigger) : Trigger :=
  mkTrigger (_state t) (_requested_state t) (_bang t) (_unbang t) (_index t)
    (_launch_style t) (_follow_action t) (_follow_action_probability t)
    (_region t) (_quantization t) (_legato t) v
    (bang_samples t) (bang_beats t).
Definition with_bang_time (samples b : Z) (t : Trigger) : Trigger :=
  mkTrigger (_state t) (_requested_state t) (_bang t) (_unbang t) (_index t)
    (_launch_style t) (_follow_action t) (_follow_action_probability t)
    (_region t) (_quantization t) (_legato t) (_name t)
    samples b.

(** Assignments to the [Trigger] part and to the fields of an
    [AudioTrigger]. *)
Definition with_base (f : Trigger -> Trigger) (a : AudioTrigger) : AudioTrigger :=
  mkAudioTrigger (f (trigger a)) (data_size a) (read_index a) (data_length a)
    (_start_offset a) (_legato_offset a) (usable_length a) (last_sample a).
Definition with_data_size (v : Z) (a : AudioTrigger) : AudioTrigger :=
  mkAudioTrigger (trigger a) v (read_index a) (data_length a)
    (_start_offset a) (_legato_offset a) (usable_length a) (last_sample a).
Definition with_read_index (v : Z) (a : AudioTrigger) : AudioTrigger :=
  mkAudioTrigger (trigger a) (data_size a) v (data_length a)
    (_start_offset a) (_legato_offset a) (usable_length a) (last_sample a).
Definition with_data_length (v : Z) (a : AudioTrigger) : AudioTrigger :=
  mkAudioTrigger (trigger a) (data_size a) (read_index a) v
    (_start_offset a) (_legato_offset a) (usable_length a) (last_sample a).
Definition with_start_offset (v : Z) (a : AudioTrigger) : AudioTrigger :=
  mkAudioTrigger (trigger a) (data_size a) (read_index a) (data_length a)
    v (_legato_offset a) (usable_length a) (last_sample a).
Definition with_legato_offset (v : Z) (a : AudioTrigger) : AudioTrigger :=
  mkAudioTrigger (trigger a) (data_size a) (read_index a) (data_length a)
    (_start_offset a) v (usable_length a) (last_sample a).
Definition with_usable_length (v : Z) (a : AudioTrigger) : AudioTrigger :=
  mkAudioTrigger (trigger a) (data_size a) (read_index a) (data_length a)
    (_start_offset a) (_legato_offset a) v (last_sample a).
Definition with_last_sample (v : Z) (a : AudioTrigger) : AudioTrigger :=
  mkAudioTrigger (trigger a) (data_size a) (read_index a) (data_length a)
    (_start_offset a) (_legato_offset a) (usable_length a) v.

(** ** Persisted state

    Modelled from the spec: the tree-structured property store behind
    [XMLNode] is not part of the sources. A node keeps, under each property
    name, the value it was given; the textual encoding of the values is not
    modelled. [get_property] leaves its target as it was when the property
    is missing or holds a value of another type. *)
Inductive XMLValue : Type :=
  | XBool (b : bool)
  | XLaunchStyle (l : LaunchStyle)
  | XFollowAction (f : FollowAction)
  | XBBT (q : BBT_Offset)
  | XString (s : string)
  | XUint64 (n : nat)
  | XID (i : Z)
  | XTime (p : timepos_t).

Record XMLNode : Type := mkXMLNode {
  node_name : string;
  properties : gmap string XMLValue
}.

Definition set_property (k : string) (v : XMLValue) (node : XMLNode) : XMLNode :=
  mkXMLNode (node_name node) (<[k := v]> (properties node)).

Definition get_bool (node : XMLNode) (k : string) (old : bool) : bool :=
  match properties node !! k with Some (XBool b) => b | _ => old end.
Definition get_launch_style (node : XMLNode) (k : string) (old : LaunchStyle)
  : LaunchStyle :=
  match properties node !! k with Some (XLaunchStyle l) => l | _ => old end.
Definition get_follow_action (node : XMLNode) (k : string) (old : FollowAction)
  : FollowAction :=
  match properties node !! k with Some (XFollowAction f) => f | _ => old end.
Definition get_bbt (node : XMLNode) (k : string) (old : BBT_Offset) : BBT_Offset :=
  match properties node !! k with Some (XBBT q) => q | _ => old end.
Definition get_string (node : XMLNode) (k : string) (old : string) : string :=
  match properties node !! k with Some (XString s) => s | _ => old end.
Definition get_uint64 (node : XMLNode) (k : string) (old : nat) : nat :=
  match properties node !! k with Some (XUint64 n) => n | _ => old end.
Definition get_time (node : XMLNode) (k : string) (old : timepos_t) : timepos_t :=
  match properties node !! k with Some (XTime p) => p | _ => old end.
(** A default-constructed [PBD::ID] is a fresh identifier, which names no
    region: [None] stands for it. *)
Definition get_id (node : XMLNode) (k : string) : option Z :=
  match properties node !! k with Some (XID i) => Some i | _ => None end.

(** ** [Trigger] and [AudioTrigger] operations that do not touch the box *)

Section TriggerOps.
Context `{Tempo} `{Session}.

(** [Temporal::Beats (beats, ticks)]. *)
Definition Beats (b t : Z) : Z := b * ticks_per_beat + t.

(** [timepos_t::samples ()]. *)
Definition timepos_samples (p : timepos_t) : Z :=
  match p with
  | AudioTime s => s
  | BeatTime b => samples_of_beats b
  end.

(** [Trigger::Trigger]; [bang_samples] is not initialised there. *)
Definition Trigger_new (n : nat) : Trigger :=
  {| _state := Stopped; _requested_state := None_; _bang := 0; _unbang := 0;
     _index := n; _launch_style := Toggle;
     _follow_action := (NextTrigger, Stop);
     _follow_action_probability := 100; _region := None;
     _quantization := mkBBT 0 1 0; _legato := true; _name := "";
     bang_samples := 0; bang_beats := 0 |}.

Definition AudioTrigger_new (n : nat) : AudioTrigger :=
  {| trigger := Trigger_new n; data_size := 0; read_index := 0; data_length := 0;
     _start_offset := 0; _legato_offset := 0; usable_length := 0;
     last_sample := 0 |}.

Definition Trigger_bang (a : AudioTrigger) : AudioTrigger :=
  with_base (with_bang (fetch_add (_bang a) 1)) a.

Definition Trigger_unbang (a : AudioTrigger) : AudioTrigger :=
  with_base (with_unbang (fetch_add (_unbang a) 1)) a.

Definition active (t : AudioTrigger) : bool :=
  State_value Running <=? State_value (_state t).

Definition follow_action (t : AudioTrigger) (n : Z) : FollowAction :=
  if n =? 0 then fst (_follow_action t) else snd (_follow_action t).

Definition Trigger_request_state (s : State) (a : AudioTrigger) : AudioTrigger :=
  with_base (with_requested_state s) a.

Definition Trigger_stop (next : Z) (a : AudioTrigger) : AudioTrigger :=
  Trigger_request_state Stopped a.

Definition Trigger_set_legato (yn : bool) (a : AudioTrigger) : AudioTrigger :=
  with_base (with_legato yn) a.

Definition Trigger_set_follow_action_probability (n : Z) (a : AudioTrigger)
  : AudioTrigger :=
  let n := Z.min 100 n in
  let n := Z.max 0 n in
  with_base (with_follow_action_probability n) a.

Definition AudioTrigger_retrigger (a : AudioTrigger) : AudioTrigger :=
  with_legato_offset 0 (with_read_index (_start_offset a + _legato_offset a) a).

Definition AudioTrigger_startup (a : AudioTrigger) : AudioTrigger :=
  AudioTrigger_retrigger (with_base (with_state WaitingToStart) a).

Definition AudioTrigger_jump_start (a : AudioTrigger) : AudioTrigger :=
  AudioTrigger_retrigger (with_base (with_state Running) a).

Definition AudioTrigger_jump_stop (a : AudioTrigger) : AudioTrigger :=
  AudioTrigger_retrigger (with_base (with_state Stopped) a).

Definition AudioTrigger_set_start (s : timepos_t) (a : AudioTrigger)
  : AudioTrigger :=
  with_start_offset (timepos_samples s) a.

Definition AudioTrigger_set_legato_offset (offset : timepos_t) (a : AudioTrigger)
  : AudioTrigger :=
  with_legato_offset (timepos_samples offset) a.

Definition AudioTrigger_current_pos (a : AudioTrigger) : timepos_t :=
  AudioTime (read_index a).

Definition AudioTrigger_end (a : AudioTrigger) : timepos_t :=
  AudioTime (_start_offset a + usable_length a).

(** [AudioTrigger::load_data]: the return code and the trigger afterwards.
    The lengths are set before the channels are read, so they stay set when
    the read raises. [drop_data] empties [data]; the read fills it with one
    array per channel, and [data] is emptied again when the read raises. *)
Definition AudioTrigger_load_data (ar : Region) (a : AudioTrigger)
  : Z * AudioTrigger :=
  let a := with_data_length (length_samples ar) a in
  let a :=
    if (usable_length a =? 0) || (data_length a <? usable_length a) then
      let a := with_usable_length (data_length a) a in
      with_last_sample (_start_offset a + usable_length a) a
    else a in
  let a := with_data_size 0 a in
  if readable ar
  then (0, with_base (with_name (name ar)) (with_data_size (n_channels ar) a))
  else (-1, a).

(** [AudioTrigger::set_length]. The stretch itself is the collaborator's;
    what is kept of it is the number of samples it produced; [data] becomes
    [stretched], one array per channel. *)
Definition AudioTrigger_set_length (newlen : timepos_t) (a : AudioTrigger)
  : outcome AudioTrigger :=
  match _region a with
  | None => Done a
  | Some r =>
    if negb (audio r) then Crash NullDereference else
    let a := snd (AudioTrigger_load_data r a) in
    if bool_decide (newlen = AudioTime (length_samples r)) then Done a else
    let processed := stretch_processed (data_length a) (timepos_samples newlen) in
    let a := with_data_size (n_channels r) a in
    let a := with_data_length processed a in
    if (usable_length a =? 0) || (data_length a <? usable_length a) then
      let a := with_usable_length (data_length a) a in
      Done (with_last_sample (_start_offset a + usable_length a) a)
    else Done a
  end.

Definition AudioTrigger_set_end (e : timepos_t) (a : AudioTrigger)
  : outcome AudioTrigger :=
  AudioTrigger_set_length (AudioTime (timepos_samples e - _start_offset a)) a.

Definition AudioTrigger_set_usable_length (a : AudioTrigger) : AudioTrigger :=
  match _region a with
  | None => a
  | Some _ =>
    let all_of_it :=
      let a := with_usable_length (data_length a) a in
      with_last_sample (_start_offset a + usable_length a) a in
    match _launch_style a with
    | Repeat =>
      if bool_decide (_quantization a = mkBBT 0 0 0) then all_of_it else
      let q := _quantization a in
      let a := with_usable_length (samples_of_beats (Beats (beats q) (ticks q))) a in
      with_last_sample (_start_offset a + usable_length a) a
    | _ => all_of_it
    end
  end.

Definition Trigger_set_launch_style (l : LaunchStyle) (a : AudioTrigger)
  : AudioTrigger :=
  AudioTrigger_set_usable_length (with_base (with_launch_style l) a).

Definition Trigger_set_quantization (q : BBT_Offset) (a : AudioTrigger)
  : AudioTrigger :=
  AudioTrigger_set_usable_length (with_base (with_quantization q) a).

(** [AudioTrigger::set_region]: the return code and the trigger. *)
Definition AudioTrigger_set_region (r : Region) (a : AudioTrigger)
  : outcome (Z * AudioTrigger) :=
  if negb (audio r) then Done (-1, a) else
  let a := with_base (with_region (Some r)) a in
  a <- AudioTrigger_set_length (length r) a;;
  Done (0, a).

Definition Trigger_get_state (t : Trigger) : XMLNode :=
  let node := mkXMLNode "Trigger" ∅ in
  let node := set_property "legato" (XBool (_legato t)) node in
  let node := set_property "launch-style" (XLaunchStyle (_launch_style t)) node in
  let node := set_property "follow-action-0" (XFollowAction (fst (_follow_action t))) node in
  let node := set_property "follow-action-1" (XFollowAction (snd (_follow_action t))) node in
  let node := set_property "quantization" (XBBT (_quantization t)) node in
  let node := set_property "name" (XString (_name t)) node in
  let node := set_property "index" (XUint64 (_index t)) node in
  match _region t with
  | Some r => set_property "region" (XID (id r)) node
  | None => node
  end.

Definition Trigger_set_state (node : XMLNode) (version : Z) (a : AudioTrigger)
  : outcome (Z * AudioTrigger) :=
  let t := trigger a in
  let t := with_legato (get_bool node "legato" (_legato t)) t in
  let t := with_launch_style (get_launch_style node "launch-style" (_launch_style t)) t in
  let t := with_follow_action
             (get_follow_action node "follow-action-0" (fst (_follow_action t)),
              snd (_follow_action t)) t in
  let t := with_follow_action
             (fst (_follow_action t),
              get_follow_action node "follow-action-1" (snd (_follow_action t))) t in
  let t := with_quantization (get_bbt node "quantization" (_quantization t)) t in
  let t := with_name (get_string node "name" (_name t)) t in
  let t := with_index (get_uint64 node "index" (_index t)) t in
  let a := with_base (fun _ => t) a in
  let r := match get_id node "region" with Some rid => region_by_id rid | None => None end in
  a <- match r with
      | Some r => '(_, a) <- AudioTrigger_set_region r a;; Done a
      | None => Done a
      end;;
  Done (0, a).

Definition AudioTrigger_get_state (a : AudioTrigger) : XMLNode :=
  let node := Trigger_get_state a in
  let node := set_property "start" (XTime (AudioTime (_start_offset a))) node in
  let node := set_property "length" (XTime (AudioTime (usable_length a))) node in
  node.

(** [AudioTrigger::set_state]. In C++ [!x] on an [int] is [x == 0]. *)
Definition AudioTrigger_set_state (node : XMLNode) (version : Z) (a : AudioTrigger)
  : outcome (Z * AudioTrigger) :=
  let t := AudioTime 0 in
  '(rc, a) <- Trigger_set_state node version a;;
  if rc =? 0 then Done (-1, a) else
  let t := get_time node "start" t in
  let a := with_start_offset (timepos_samples t) a in
  let t := get_time node "length" t in
  let a := with_usable_length (timepos_samples t) a in
  let a := with_last_sample (_start_offset a + usable_length a) a in
  Done (0, a).

End TriggerOps.

(** ** Launch queues

    Modelled from the spec: [PBD::RingBuffer] is not part of the sources.
    A queue is a bounded FIFO of trigger slots; writing to a full queue
    drops the item. *)
Record RingBuffer : Type := mkRingBuffer {
  rb_size : nat;
  rb_items : list nat
}.

Definition rb_new (size : nat) : RingBuffer := mkRingBuffer size [].
Definition rb_reset (q : RingBuffer) : RingBuffer := mkRingBuffer (rb_size q) [].
Definition rb_read_space (q : RingBuffer) : nat := List.length (rb_items q).
Definition rb_write (x : nat) (q : RingBuffer) : RingBuffer :=
  if (rb_read_space q <? rb_size q)%nat
  then mkRingBuffer (rb_size q) (rb_items q ++ [x])
  else q.
(** [read (&r, 1)]: the item read, when there is one, and the queue. *)
Definition rb_read (q : RingBuffer) : option nat * RingBuffer :=
  match rb_items q with
  | [] => (None, q)
  | x :: rest => (Some x, mkRingBuffer (rb_size q) rest)
  end.
(** [get_read_vector]: [len[0] > 0] and [*buf[0]]. *)
Definition rb_peek (q : RingBuffer) : option nat := head (rb_items q).

(** ** MIDI input

    What [process_midi_trigger_requests] asks of an [Evoral::Event]. *)
Inductive MidiEvent : Type :=
  | NoteOnEvent (note velocity : Z)
  | NoteOffEvent (note velocity : Z)
  | OtherEvent.

Definition is_note_on (ev : MidiEvent) : bool :=
  match ev with NoteOnEvent _ _ => true | _ => false end.
Definition is_note_off (ev : MidiEvent) : bool :=
  match ev with NoteOffEvent _ _ => true | _ => false end.
Definition is_note (ev : MidiEvent) : bool := is_note_on ev || is_note_off ev.
Definition note (ev : MidiEvent) : Z :=
  match ev with NoteOnEvent n _ | NoteOffEvent n _ => n | OtherEvent => 0 end.

Inductive DataType : Type := AUDIO | MIDI.

#[global] Instance DataType_eq_dec : EqDecision DataType.
Proof. solve_decision. Defined.

(** ** [TriggerBox]

    [_bang_queue] and [_unbang_queue] are never used and are left out;
    of the session the box reads [transport_rolling] and leaves a request
    to start the transport. *)
Section Box.
Context `{Tempo} `{Session} `{Prng}.

Record TriggerBox : Type := mkTriggerBox {
  _data_type : DataType;
  all_triggers : list AudioTrigger;
  explicit_queue : RingBuffer;
  implicit_queue : RingBuffer;
  currently_playing : option nat;
  _stop_all : bool;
  _pcg : PCGRand;
  midi_trigger_map : gmap Z nat;
  transport_rolling : bool;
  transport_start_requested : bool
}.

Definition with_all_triggers (v : list AudioTrigger) (b : TriggerBox) : TriggerBox :=
  mkTriggerBox (_data_type b) v (explicit_queue b) (implicit_queue b)
    (currently_playing b) (_stop_all b) (_pcg b) (midi_trigger_map b)
    (transport_rolling b) (transport_start_requested b).
Definition with_explicit_queue (v : RingBuffer) (b : TriggerBox) : TriggerBox :=
  mkTriggerBox (_data_type b) (all_triggers b) v (implicit_queue b)
    (currently_playing b) (_stop_all b) (_pcg b) (midi_trigger_map b)
    (transport_rolling b) (transport_start_requested b).
Definition with_implicit_queue (v : RingBuffer) (b : TriggerBox) : TriggerBox :=
  mkTriggerBox (_data_type b) (all_triggers b) (explicit_queue b) v
    (currently_playing b) (_stop_all b) (_pcg b) (midi_trigger_map b)
    (transport_rolling b) (transport_start_requested b).
Definition with_currently_playing (v : option nat) (b : TriggerBox) : TriggerBox :=
  mkTriggerBox (_data_type b) (all_triggers b) (explicit_queue b)
    (implicit_queue b) v (_stop_all b) (_pcg b) (midi_trigger_map b)
    (transport_rolling b) (transport_start_requested b).
Definition with_stop_all (v : bool) (b : TriggerBox) : TriggerBox :=
  mkTriggerBox (_data_type b) (all_triggers b) (explicit_queue b)
    (implicit_queue b) (currently_playing b) v (_pcg b) (midi_trigger_map b)
    (transport_rolling b) (transport_start_requested b).
Definition with_pcg (v : PCGRand) (b : TriggerBox) : TriggerBox :=
  mkTriggerBox (_data_type b) (all_triggers b) (explicit_queue b)
    (implicit_queue b) (currently_playing b) (_stop_all b) v
    (midi_trigger_map b) (transport_rolling b) (transport_start_requested b).
Definition with_transport_start_requested (v : bool) (b : TriggerBox)
  : TriggerBox :=
  mkTriggerBox (_data_type b) (all_triggers b) (explicit_queue b)
    (implicit_queue b) (currently_playing b) (_stop_all b) (_pcg b)
    (midi_trigger_map b) (transport_rolling b) v.

(** [all_triggers[n]]. *)
Definition trigger_at (b : TriggerBox) (n : nat) : outcome AudioTrigger :=
  match all_triggers b !! n with
  | Some t => Done t
  | None => Crash OutOfBounds
  end.

(** A member call on the trigger in slot [n]. *)
Definition on_trigger (n : nat) (f : AudioTrigger -> AudioTrigger) (b : TriggerBox)
  : TriggerBox :=
  with_all_triggers (alter f n (all_triggers b)) b.

Definition default_triggers_per_box : nat := 8.

(** [std::map::insert] keeps an entry that is already there. *)
Definition map_insert (k : Z) (v : nat) (m : gmap Z nat) : gmap Z nat :=
  match m !! k with Some _ => m | None => <[k := v]> m end.

(** [TriggerBox::TriggerBox]; the generator is seeded outside. *)
Definition TriggerBox_new (g : PCGRand) (dt : DataType) : TriggerBox :=
  {| _data_type := dt;
     all_triggers :=
       if bool_decide (dt = AUDIO)
       then AudioTrigger_new <$> seq 0 default_triggers_per_box
       else [];
     explicit_queue := rb_new 64;
     implicit_queue := rb_new 64;
     currently_playing := None;
     _stop_all := false;
     _pcg := g;
     midi_trigger_map :=
       map_insert 69 9 (map_insert 68 8 (map_insert 67 7 (map_insert 66 6
       (map_insert 65 5 (map_insert 64 4 (map_insert 63 3 (map_insert 62 2
       (map_insert 61 1 (map_insert 60 0 ∅)))))))));
     transport_rolling := false;
     transport_start_requested := false |}%nat.

Definition TriggerBox_clear_implicit (b : TriggerBox) : TriggerBox :=
  with_implicit_queue (rb_reset (implicit_queue b)) b.

Definition TriggerBox_queue_explict (t : nat) (b : TriggerBox) : TriggerBox :=
  let b := with_explicit_queue (rb_write t (explicit_queue b)) b in
  let b := with_implicit_queue (rb_reset (implicit_queue b)) b in
  match currently_playing b with
  | Some cp => on_trigger cp Trigger_unbang b
  | None => b
  end.

Definition TriggerBox_queue_implicit (t : nat) (b : TriggerBox) : TriggerBox :=
  if (rb_read_space (explicit_queue b) =? 0)%nat
  then with_implicit_queue (rb_write t (implicit_queue b)) b
  else b.

Definition TriggerBox_peek_next_trigger (b : TriggerBox) : option nat :=
  match rb_peek (explicit_queue b) with
  | Some t => Some t
  | None => rb_peek (implicit_queue b)
  end.

Definition TriggerBox_get_next_trigger (b : TriggerBox) : option nat * TriggerBox :=
  match rb_read (explicit_queue b) with
  | (Some r, q) => (Some r, with_explicit_queue q b)
  | (None, _) =>
    match rb_read (implicit_queue b) with
    | (Some r, q) => (Some r, with_implicit_queue q b)
    | (None, _) => (None, b)
    end
  end.

Definition TriggerBox_request_stop_all (b : TriggerBox) : TriggerBox :=
  with_stop_all true b.

Definition TriggerBox_stop_all (b : TriggerBox) : TriggerBox :=
  let b := with_all_triggers (Trigger_stop (-1) <$> all_triggers b) b in
  let b := with_implicit_queue (rb_reset (implicit_queue b)) b in
  with_explicit_queue (rb_reset (explicit_queue b)) b.

Definition TriggerBox_trigger (n : nat) (b : TriggerBox) : option AudioTrigger :=
  if (List.length (all_triggers b) <=? n)%nat then None else all_triggers b !! n.

Definition TriggerBox_add_trigger (t : AudioTrigger) (b : TriggerBox) : TriggerBox :=
  with_all_triggers (all_triggers b ++ [t]) b.

(** One event of [process_midi_trigger_requests]. Every entry of
    [all_triggers] is a trigger made by the box, so the test [if (!t)]
    after the lookup never fires; [t] is still null when the note is not
    in the map. *)
Definition midi_trigger_request (ev : MidiEvent) (b : TriggerBox)
  : outcome TriggerBox :=
  if negb (is_note ev) then Done b else
  t <- match midi_trigger_map b !! note ev with
      | Some slot =>
        _ <- assert (slot <? List.length (all_triggers b))%nat;;
        Done (Some slot)
      | None => Done None
      end;;
  if is_note_on ev then
    match t with
    | Some slot => Done (on_trigger slot Trigger_bang b)
    | None => Crash NullDereference
    end
  else if is_note_off ev then
    match t with
    | Some slot => Done (on_trigger slot Trigger_unbang b)
    | None => Crash NullDereference
    end
  else Done b.

Fixpoint midi_buffer_requests (mb : list MidiEvent) (b : TriggerBox)
  : outcome TriggerBox :=
  match mb with
  | [] => Done b
  | ev :: rest => b <- midi_trigger_request ev b;; midi_buffer_requests rest b
  end.

Fixpoint TriggerBox_process_midi_trigger_requests
    (bufs : list (list MidiEvent)) (b : TriggerBox) : outcome TriggerBox :=
  match bufs with
  | [] => Done b
  | mb :: rest =>
    b <- midi_buffer_requests mb b;;
    TriggerBox_process_midi_trigger_requests rest b
  end.

(** *** Follow actions *)

(** [all_triggers[n]->region ()] is not null. *)
Definition has_region (t : AudioTrigger) : bool :=
  bool_decide (is_Some (_region t)).

(** A slot the follow action may pick: it has a region and is not active. *)
Definition can_follow (t : AudioTrigger) : bool :=
  has_region t && negb (active t).

(** The count of [determine_next_trigger]'s first loop. *)
Definition runnable (ts : list AudioTrigger) : nat :=
  List.length (filter (fun t : AudioTrigger => has_region t) ts).

(** [all_triggers[n]] for an [n] that came out of an [int]. *)
Definition trigger_at_int (b : TriggerBox) (n : Z) : outcome AudioTrigger :=
  if n <? 0 then Crash OutOfBounds else trigger_at b (Z.to_nat n).

(** The loop of [case NextTrigger]: [n] is the slot looked at last. The
    loop leaves with [break] ([None]) or with [return n] ([Some n]). It is
    entered with [steps] the size of [all_triggers], which bounds its
    iterations. *)
Fixpoint next_trigger_loop (steps : nat) (b : TriggerBox) (current n : nat)
  : outcome (option nat) :=
  match steps with
  | O => OutOfFuel
  | S steps =>
    let n := S n in
    let n := if (List.length (all_triggers b) <=? n)%nat then O else n in
    if (n =? current)%nat then Done None else
    t <- trigger_at b n;;
    if can_follow t then Done (Some n)
    else next_trigger_loop steps b current n
  end.

(** The loop of [case PrevTrigger]. *)
Fixpoint prev_trigger_loop (steps : nat) (b : TriggerBox) (current n : nat)
  : outcome (option nat) :=
  match steps with
  | O => OutOfFuel
  | S steps =>
    let n := if (n =? 0)%nat then (List.length (all_triggers b) - 1)%nat
             else (n - 1)%nat in
    if (n =? current)%nat then Done None else
    t <- trigger_at b n;;
    if can_follow t then Done (Some n)
    else prev_trigger_loop steps b current n
  end.

(** The loop of [case FirstTrigger], over the slots from [n] on. *)
Fixpoint first_trigger_loop (ts : list AudioTrigger) (n : nat) : option nat :=
  match ts with
  | [] => None
  | t :: rest => if can_follow t then Some n else first_trigger_loop rest (S n)
  end.

(** The loop of [case LastTrigger], over the slots below [i], downwards. *)
Fixpoint last_trigger_loop (ts : list AudioTrigger) (i : nat) : option nat :=
  match i with
  | O => None
  | S j =>
    match ts !! j with
    | Some t => if can_follow t then Some j else last_trigger_loop ts j
    | None => last_trigger_loop ts j
    end
  end.

(** The loops of [case AnyTrigger] and [case OtherTrigger]: nothing bounds
    the number of draws. *)
Fixpoint any_trigger_loop (fuel : nat) (b : TriggerBox) : outcome (Z * TriggerBox) :=
  match fuel with
  | O => OutOfFuel
  | S fuel =>
    let '(n, g) := pcg_rand (_pcg b) (Z.of_nat (List.length (all_triggers b))) in
    let b := with_pcg g b in
    t <- trigger_at_int b n;;
    if negb (has_region t) then any_trigger_loop fuel b
    else if active t then any_trigger_loop fuel b
    else Done (n, b)
  end.

Fixpoint other_trigger_loop (fuel : nat) (b : TriggerBox) (current : nat)
  : outcome (Z * TriggerBox) :=
  match fuel with
  | O => OutOfFuel
  | S fuel =>
    let '(n, g) := pcg_rand (_pcg b) (Z.of_nat (List.length (all_triggers b))) in
    let b := with_pcg g b in
    if n =? Z.of_nat current then other_trigger_loop fuel b current else
    t <- trigger_at_int b n;;
    if negb (has_region t) then other_trigger_loop fuel b current
    else if active t then other_trigger_loop fuel b current
    else Done (n, b)
  end.

(** The follow action [determine_next_trigger] settles on, and the
    generator after the draw. *)
Definition which_follow_action (r : Z) (t : AudioTrigger) : Z :=
  if r <=? _follow_action_probability t then 0 else 1.

Definition TriggerBox_determine_next_trigger (fuel : nat) (current : nat)
    (b : TriggerBox) : outcome (Z * TriggerBox) :=
  let runnable := runnable (all_triggers b) in
  let '(r, g) := pcg_rand (_pcg b) 100 in
  let b := with_pcg g b in
  cur <- trigger_at b current;;
  let action := follow_action cur (which_follow_action r cur) in
  let fallback := Done (Z.of_nat current, b) in
  match action with
  | Stop => Done (-1, b)
  | QueuedTrigger => Done (-1, b)
  | _ =>
    if (runnable =? 1)%nat then Done (Z.of_nat current, b) else
    match action with
    | Again => Done (Z.of_nat current, b)
    | NextTrigger =>
      found <- next_trigger_loop (List.length (all_triggers b)) b current current;;
      match found with Some n => Done (Z.of_nat n, b) | None => fallback end
    | PrevTrigger =>
      found <- prev_trigger_loop (List.length (all_triggers b)) b current current;;
      match found with Some n => Done (Z.of_nat n, b) | None => fallback end
    | FirstTrigger =>
      match first_trigger_loop (all_triggers b) O with
      | Some n => Done (Z.of_nat n, b)
      | None => fallback
      end
    | LastTrigger =>
      match last_trigger_loop (all_triggers b) (List.length (all_triggers b)) with
      | Some i => Done (Z.of_nat i, b)
      | None => fallback
      end
    | AnyTrigger => any_trigger_loop fuel b
    | OtherTrigger => other_trigger_loop fuel b current
    | Stop | QueuedTrigger => fallback
    end
  end.

Definition TriggerBox_prepare_next (fuel : nat) (current : nat) (b : TriggerBox)
  : outcome TriggerBox :=
  '(nxt, b) <- TriggerBox_determine_next_trigger fuel current b;;
  if 0 <=? nxt then
    _ <- trigger_at b (Z.to_nat nxt);;
    Done (TriggerBox_queue_implicit (Z.to_nat nxt) b)
  else Done b.

(** *** The state machine of a trigger

    These are member functions of [Trigger]; they are stated on the box
    because they call back into it. [i] is the slot of [this]. *)

(** The body of the loop over pending bangs. *)
Definition bang_step (i : nat) (b : TriggerBox) : outcome TriggerBox :=
  t <- trigger_at b i;;
  match _state t with
  | None_ => Crash Abort
  | Running =>
    match _launch_style t with
    | OneShot => Done (on_trigger i (with_base (with_state WaitingForRetrigger)) b)
    | Gate | Toggle | Repeat =>
      let b := on_trigger i (with_base (with_state WaitingToStop)) b in
      Done (TriggerBox_clear_implicit b)
    end
  | Stopped => Done (TriggerBox_queue_explict i b)
  | WaitingToStart | WaitingToStop | WaitingForRetrigger | Stopping => Done b
  end.

(** [while ((x = _bang.load ())) { _bang.fetch_sub (1); ... }]. *)
Fixpoint bang_loop (fuel : nat) (i : nat) (b : TriggerBox) : outcome TriggerBox :=
  t <- trigger_at b i;;
  if _bang t =? 0 then Done b else
  match fuel with
  | O => OutOfFuel
  | S fuel =>
    let b := on_trigger i (with_base (with_bang (fetch_sub (_bang t) 1))) b in
    b <- bang_step i b;;
    bang_loop fuel i b
  end.

(** The body of the loop over pending unbangs. *)
Definition unbang_step (i : nat) (b : TriggerBox) : outcome TriggerBox :=
  t <- trigger_at b i;;
  if bool_decide (_launch_style t = Gate)
     || bool_decide (_launch_style t = Repeat) then
    match _state t with
    | Running => Done (on_trigger i (with_base (with_state WaitingToStop)) b)
    | _ => Done (on_trigger i (with_base (with_state Stopped)) b)
    end
  else Done b.

Fixpoint unbang_loop (fuel : nat) (i : nat) (b : TriggerBox) : outcome TriggerBox :=
  t <- trigger_at b i;;
  if _unbang t =? 0 then Done b else
  match fuel with
  | O => OutOfFuel
  | S fuel =>
    let b := on_trigger i (with_base (with_unbang (fetch_sub (_unbang t) 1))) b in
    b <- unbang_step i b;;
    unbang_loop fuel i b
  end.

Definition Trigger_process_state_requests (fuel : nat) (i : nat) (b : TriggerBox)
  : outcome TriggerBox :=
  t <- trigger_at b i;;
  let new_state := _requested_state t in
  let b := on_trigger i (with_base (with_requested_state None_)) b in
  let b :=
    if bool_decide (new_state ≠ None_) && bool_decide (new_state ≠ _state t) then
      match new_state with
      | Stopped =>
        if bool_decide (_state t ≠ WaitingToStop)
        then on_trigger i (with_base (with_state WaitingToStop)) b
        else b
      | Running => TriggerBox_queue_explict i b
      | _ => b
      end
    else b in
  b <- bang_loop fuel i b;;
  unbang_loop fuel i b.

(** The grid point [maybe_compute_next_transition] looks at: bar-level
    quantization is not handled and leaves [ev_time] at zero beats. *)
Definition ev_time (start : Z) (q : BBT_Offset) : Z :=
  if bars q =? 0 then snap_to start (Beats (beats q) (ticks q)) else 0.

Definition Trigger_maybe_compute_next_transition (fuel : nat) (i : nat)
    (start end_ : Z) (b : TriggerBox) : outcome (RunType * TriggerBox) :=
  t <- trigger_at b i;;
  match _state t with
  | Stopped => Done (RunNone, b)
  | Running => Done (RunAll, b)
  | Stopping => Done (RunAll, b)
  | _ =>
    let ev := ev_time start (_quantization t) in
    if (start <=? ev) && (ev <? end_) then
      let b := on_trigger i (with_base (with_bang_time (samples_of_beats ev) ev)) b in
      if bool_decide (_state t = WaitingToStop) then
        Done (RunEnd, on_trigger i (with_base (with_state Stopping)) b)
      else if bool_decide (_state t = WaitingToStart) then
        let b := on_trigger i AudioTrigger_retrigger b in
        let b := on_trigger i (with_base (with_state Running)) b in
        b <- TriggerBox_prepare_next fuel (_index t) b;;
        Done (RunStart, b)
      else if bool_decide (_state t = WaitingForRetrigger) then
        let b := on_trigger i AudioTrigger_retrigger b in
        let b := on_trigger i (with_base (with_state Running)) b in
        b <- TriggerBox_prepare_next fuel (_index t) b;;
        Done (RunAll, b)
      else Done (RunNone, b)
    else
      if bool_decide (_state t = WaitingForRetrigger)
         || bool_decide (_state t = WaitingToStop)
      then Done (RunAll, b)
      else Done (RunNone, b)
  end.

(** *** [AudioTrigger::run]

    [uint64_t channel = chn % data.size ()] in the loop over the channels
    of the region divides by zero when the region has a channel and [data]
    holds no array, as it does after a [load_data] that failed. *)
Definition divides_by_zero (t : AudioTrigger) : bool :=
  match _region t with
  | Some ar => (0 <? n_channels ar) && (data_size t =? 0)
  | None => false
  end.

(** The loop [while (nframes)]. Of the copy into the buffers the index
    [chn % data.size ()] is kept, the samples are left out; [nframes],
    [dest_offset] and [this_read] are [pframes_t]. *)
Fixpoint run_loop (fuel : nat) (i : nat) (nframes dest_offset : Z) (b : TriggerBox)
  : outcome TriggerBox :=
  if nframes =? 0 then Done b else
  match fuel with
  | O => OutOfFuel
  | S fuel =>
    t <- trigger_at b i;;
    let this_read :=
      wrap_u32 (Z.min nframes (last_sample t - read_index t)) in
    _ <- (if divides_by_zero t then Crash DivisionByZero else Done tt);;
    let b := on_trigger i (with_read_index (read_index t + this_read)) b in
    if last_sample t <=? read_index t + this_read then
      if bool_decide (_launch_style t = Repeat)
         || bool_decide (TriggerBox_peek_next_trigger b = Some i) then
        let nframes := wrap_u32 (nframes - this_read) in
        let dest_offset := wrap_u32 (dest_offset + this_read) in
        let b := on_trigger i AudioTrigger_retrigger b in
        run_loop fuel i nframes dest_offset b
      else
        Done (on_trigger i (with_base (with_state Stopped)) b)
    else
      run_loop fuel i (wrap_u32 (nframes - this_read)) dest_offset b
  end.

(** [dynamic_pointer_cast<AudioRegion> (r)] is not null. *)
Definition is_audio_region (r : option Region) : bool :=
  match r with Some r => audio r | None => false end.

(** [AudioTrigger::run]: the two assertions, the loop, which divides by
    zero in its first round when [data] is empty, and the end of a trigger
    that was stopping. *)
Definition AudioTrigger_run (fuel : nat) (i : nat) (nframes dest_offset : Z)
    (first : bool) (b : TriggerBox) : outcome TriggerBox :=
  t <- trigger_at b i;;
  let long_enough_to_fade := 64 <=? nframes in
  _ <- assert (is_audio_region (_region t));;
  _ <- assert (active t);;
  b <- run_loop fuel i nframes dest_offset b;;
  t <- trigger_at b i;;
  if bool_decide (_state t = Stopping) && long_enough_to_fade
  then Done (on_trigger i (with_base (with_state Stopped)) b)
  else Done b.

(** *** [TriggerBox::run] *)

(** [for (n = 0; n < all_triggers.size (); ++n)
      all_triggers[n]->process_state_requests ()]. *)
Fixpoint state_requests_loop (fuel : nat) (slots : list nat) (b : TriggerBox)
  : outcome TriggerBox :=
  match slots with
  | [] => Done b
  | n :: rest =>
    b <- Trigger_process_state_requests fuel n b;;
    state_requests_loop fuel rest b
  end.

(** The block that looks for an explicitly queued trigger with legato
    set. [cp] is [currently_playing]. *)
Definition legato_switch (fuel : nat) (cp : nat) (b : TriggerBox)
  : outcome TriggerBox :=
  match rb_peek (explicit_queue b) with
  | None => Done b
  | Some _ =>
    match TriggerBox_get_next_trigger b with
    | (None, b) => Crash NullDereference
    | (Some nxt, b) =>
      if bool_decide (nxt = cp) then Done b else
      tn <- trigger_at b nxt;;
      if _legato tn then
        tc <- trigger_at b cp;;
        let b := on_trigger nxt
                   (AudioTrigger_set_legato_offset (AudioTrigger_current_pos tc)) b in
        let b := on_trigger nxt AudioTrigger_jump_start b in
        let b := on_trigger cp AudioTrigger_jump_stop b in
        b <- TriggerBox_prepare_next fuel (_index tn) b;;
        Done (with_currently_playing (Some nxt) b)
      else Done b
    end
  end.

(** [dest_offset] and [trigger_samples] for a run type other than
    [RunNone]. *)
Definition block_extent (rt : RunType) (bang_samples start_sample nframes : Z)
  : Z * Z :=
  match rt with
  | RunEnd => (0, wrap_u32 (nframes - (bang_samples - start_sample)))
  | RunStart =>
    let dest_offset := Z.max 0 (bang_samples - start_sample) in
    (dest_offset, wrap_u32 (nframes - dest_offset))
  | _ => (0, nframes)
  end.

(** [while (currently_playing)]. [first] is false from its declaration
    on. Leaving through [return] or through the end of the loop differ
    only in the channel count of the buffers. *)
Fixpoint dispatch_loop (fuel : nat) (start_sample nframes start_beats end_beats : Z)
    (b : TriggerBox) : outcome TriggerBox :=
  match currently_playing b with
  | None => Done b
  | Some cp =>
    match fuel with
    | O => OutOfFuel
    | S fuel =>
      t <- trigger_at b cp;;
      _ <- assert (State_value WaitingToStart <=? State_value (_state t));;
      '(rt, b) <-
        match _state t with
        | WaitingToStop | WaitingToStart | WaitingForRetrigger =>
          Trigger_maybe_compute_next_transition fuel cp start_beats end_beats b
        | _ => Done (RunAll, b)
        end;;
      if bool_decide (rt = RunNone) then Done b else
      t <- trigger_at b cp;;
      let r := _region t in
      let was_waiting_to_start := bool_decide (_state t = WaitingToStart) in
      let '(dest_offset, trigger_samples) :=
        block_extent rt (bang_samples t) start_sample nframes in
      b <- (if was_waiting_to_start
           then '(_, b) <- TriggerBox_determine_next_trigger fuel (_index t) b;; Done b
           else Done b);;
      _ <- (if is_audio_region r then Done tt else Crash NullDereference);;
      b <- AudioTrigger_run fuel cp trigger_samples (wrap_u32 dest_offset) false b;;
      t <- trigger_at b cp;;
      if bool_decide (_state t = Stopped) then
        match TriggerBox_get_next_trigger b with
        | (Some nxt, b) =>
          tn <- trigger_at b nxt;;
          let b :=
            if _legato tn
            then on_trigger nxt
                   (AudioTrigger_set_legato_offset (AudioTrigger_current_pos t)) b
            else b in
          let b := on_trigger nxt AudioTrigger_startup b in
          dispatch_loop fuel start_sample nframes start_beats end_beats
            (with_currently_playing (Some nxt) b)
        | (None, b) => Done (with_currently_playing None b)
        end
      else Done b
    end
  end.

Definition TriggerBox_run (fuel : nat) (bufs : list (list MidiEvent))
    (start_sample end_sample : Z) (nframes : Z) (b : TriggerBox)
  : outcome TriggerBox :=
  if start_sample <? 0 then Done b else
  b <- TriggerBox_process_midi_trigger_requests bufs b;;
  b <- state_requests_loop fuel (seq 0 (List.length (all_triggers b))) b;;
  b <- match currently_playing b with
      | Some _ => Done b
      | None =>
        match TriggerBox_get_next_trigger b with
        | (Some nxt, b) =>
          _ <- trigger_at b nxt;;
          Done (on_trigger nxt AudioTrigger_startup
                  (with_currently_playing (Some nxt) b))
        | (None, b) => Done b
        end
      end;;
  match currently_playing b with
  | None => Done b
  | Some cp =>
    let b := if transport_rolling b then b
             else with_transport_start_requested true b in
    let start_beats := beats_of_samples start_sample in
    let end_beats := beats_of_samples end_sample in
    b <- legato_switch fuel cp b;;
    let b := if _stop_all b
             then with_stop_all false (TriggerBox_stop_all b)
             else b in
    dispatch_loop fuel start_sample nframes start_beats end_beats b
  end.

End Box.

(** ** Concrete collaborators and boxes

    A tempo of 120 beats per minute at 48 kHz (24000 samples and 1920
    ticks to the beat), a generator that replays a list of draws (and
    draws 0 once the list is used up), a session with an empty region
    registry and a stretcher that hits the requested length.
    They serve to run the model on examples. *)
Definition demo_tempo : Tempo :=
  {| ticks_per_beat := 1920;
     snap_to := fun b q => if q =? 0 then b else (b + q - 1) / q * q;
     beats_of_samples := fun s => s * 1920 / 24000;
     samples_of_beats := fun b => b * 24000 / 1920 |}.

Definition demo_prng : Prng :=
  {| PCGRand := list Z;
     pcg_rand := fun g max =>
       match g with
       | [] => (0, [])
       | draw :: rest => (draw, rest)
       end |}.

Definition demo_session : Session :=
  {| region_by_id := fun _ => None;
     stretch_processed := fun _ target => target |}.

Definition demo_region (n len : Z) : Region :=
  {| id := n; length_samples := len; length := AudioTime len;
     n_channels := 2; name := "clip"; audio := true; readable := true |}.

(** A trigger as a session would save it: no region, a start offset of
    100 samples and 500 usable samples. *)
Definition saved_trigger : AudioTrigger :=
  with_last_sample 600
    (with_usable_length 500 (with_start_offset 100 (AudioTrigger_new 3))).

(** The box as constructed, with no draws scripted. *)
Definition fresh_box : @TriggerBox demo_prng :=
  @TriggerBox_new demo_prng [] AUDIO.

(** [fresh_box] with a clip of [len] samples loaded into slot [n]. *)
Definition load_slot (n : nat) (len : Z) (b : @TriggerBox demo_prng)
  : @TriggerBox demo_prng :=
  on_trigger n
    (fun a => snd (AudioTrigger_load_data (demo_region (Z.of_nat n) len)
                     (with_base (with_region (Some (demo_region (Z.of_nat n) len))) a)))
    b.

(** [fresh_box] with clips in slots 0 and 1. *)
Definition clip_box : @TriggerBox demo_prng :=
  load_slot 1 30000 (load_slot 0 50000 fresh_box).

(** The state and the read cursor of the trigger in slot [n]. *)
Definition slot_state `{Prng} (n : nat) (b : TriggerBox) : option State :=
  (fun t : AudioTrigger => _state t) <$> all_triggers b !! n.
Definition slot_read_index `{Prng} (n : nat) (b : TriggerBox) : option Z :=
  read_index <$> all_triggers b !! n.

(** [clip_box] with slot 0 started up and waiting for the grid. *)
Definition waiting_box : @TriggerBox demo_prng :=
  on_trigger 0 AudioTrigger_startup clip_box.

(** [clip_box] with slot 0 past its stop boundary. *)
Definition stopping_box : @TriggerBox demo_prng :=
  on_trigger 0 (with_base (with_state Stopping)) clip_box.

(** [fresh_box] after two bangs and one unbang on slot 0. *)
Definition banged_box : @TriggerBox demo_prng :=
  on_trigger 0 (fun a => Trigger_unbang (Trigger_bang (Trigger_bang a))) fresh_box.


(** ** The state of a box

    [TriggerBox::get_state] and [TriggerBox::set_state]. Of the XML of a
    box the model keeps the [data-type] property and the children of the
    [Triggers] child; what [Processor::get_state] writes is the
    processor's. [get_state] and [set_state] are virtual in
    [PBD::Stateful], so the calls through [Trigger*] reach
    [AudioTrigger]. *)
Record BoxNode : Type := mkBoxNode {
  data_type_property : option DataType;
  triggers_child : option (list XMLNode)
}.

Section BoxState.
Context `{Tempo} `{Session} `{Prng}.

Definition with_data_type (v : DataType) (b : TriggerBox) : TriggerBox :=
  mkTriggerBox v (all_triggers b) (explicit_queue b) (implicit_queue b)
    (currently_playing b) (_stop_all b) (_pcg b) (midi_trigger_map b)
    (transport_rolling b) (transport_start_requested b).

Definition TriggerBox_get_state (b : TriggerBox) : BoxNode :=
  {| data_type_property := Some (_data_type b);
     triggers_child := Some (AudioTrigger_get_state <$> all_triggers b) |}.

(** The loop over the children of [Triggers]: [made] is [all_triggers] so
    far. The return code of the trigger's [set_state] is dropped. *)
Fixpoint restore_triggers (dt : DataType) (tchildren : list XMLNode) (version : Z)
    (made : list AudioTrigger) : outcome (list AudioTrigger) :=
  match tchildren with
  | [] => Done made
  | t :: rest =>
    if bool_decide (dt = AUDIO) then
      let trig := AudioTrigger_new (List.length made) in
      '(_, trig) <- AudioTrigger_set_state t version trig;;
      restore_triggers dt rest version (made ++ [trig])
    else restore_triggers dt rest version made
  end.

(** [TriggerBox::set_state]. [drop_triggers] deletes the triggers the box
    had; [currently_playing] and the two queues are not reset and keep
    what they held. *)
Definition TriggerBox_set_state (node : BoxNode) (version : Z) (b : TriggerBox)
  : outcome (Z * TriggerBox) :=
  let dt := match data_type_property node with
            | Some dt => dt
            | None => _data_type b
            end in
  match triggers_child node with
  | None => Crash AssertionFailed
  | Some tchildren =>
    ts <- restore_triggers dt tchildren version [];;
    Done (0, with_all_triggers ts (with_data_type dt b))
  end.

End BoxState.

(** ** More concrete boxes *)

(** [b] with the first follow action of slot 0 set to [f]. *)
Definition follow_box (f : FollowAction) (b : @TriggerBox demo_prng)
  : @TriggerBox demo_prng :=
  on_trigger 0 (with_base (with_follow_action (f, Stop))) b.

(** [clip_box] with slot 0 running and held as the playing trigger. *)
Definition playing_box : @TriggerBox demo_prng :=
  with_currently_playing (Some 0%nat)
    (on_trigger 0 (with_base (with_state Running)) clip_box).

(** A clip of 100 samples in slot 0, running in [Repeat] style. *)
Definition short_repeat_box : @TriggerBox demo_prng :=
  on_trigger 0
    (with_base (fun x => with_launch_style Repeat (with_state Running x)))
    (load_slot 0 100 fresh_box).

(** [waiting_box] with slot 0 quantized to one bar. *)
Definition bars_box : @TriggerBox demo_prng :=
  on_trigger 0 (with_base (with_quantization (mkBBT 1 0 0))) waiting_box.

(** A box without regions whose slot 0 is followed by any trigger and
    waits to start. *)
Definition any_follow_box : @TriggerBox demo_prng :=
  on_trigger 0 AudioTrigger_startup (follow_box AnyTrigger fresh_box).

(** A region of two channels whose data cannot be read. *)
Definition unreadable_region : Region :=
  {| id := 9; length_samples := 1000; length := AudioTime 1000;
     n_channels := 2; name := "lost"; audio := true; readable := false |}.

(** [fresh_box] with slot 0 running, after [set_region] took
    [unreadable_region] for it. *)
Definition no_data_box : @TriggerBox demo_prng :=
  on_trigger 0
    (fun a =>
       match @AudioTrigger_set_region demo_tempo demo_session unreadable_region a with
       | Done (_, a') => with_base (with_state Running) a'
       | _ => a
       end)
    fresh_box.
(** ** Statements read off the specification

    Properties worded as the specification words them, to be set against
    the code. *)

(** [load_data] leaves the usable length at the minimum of the old usable
    length and the data length. *)
Definition load_data_takes_minimum (ar : Region) (a : AudioTrigger) : Prop :=
  usable_length (snd (AudioTrigger_load_data ar a))
  = Z.min (usable_length a) (data_length (snd (AudioTrigger_load_data ar a))).

(** The slots after [current] in cyclic order, [(current + 1) mod N],
    [(current + 2) mod N], ..., each other slot once. *)
Definition cyclic_successors (N current : nat) : list nat :=
  (fun k => (current + k) mod N)%nat <$> seq 1 (N - 1).

(** The slots before [current] in cyclic order, downwards. *)
Definition cyclic_predecessors (N current : nat) : list nat :=
  (fun k => (current + N - k) mod N)%nat <$> seq 1 (N - 1).

(** The first slot of a list of candidates that has a region and is not
    active. *)
Definition first_to_follow (ts : list AudioTrigger) (candidates : list nat)
  : option nat :=
  List.find
    (fun n => match ts !! n with Some t => can_follow t | None => false end)
    candidates.

(** How many rounds of the loop of [AudioTrigger::run] can go by without
    using up frames: none while the cursor is short of [last_sample]; one
    when it sits there and a retrigger takes it back; two when the legato
    offset puts the retriggered cursor at [last_sample] once more. *)
Definition rounds_without_progress (t : AudioTrigger) : Z :=
  if read_index t <? last_sample t then 0
  else if _start_offset t + _legato_offset t <? last_sample t then 1
  else 2.

Section Stated.
Context `{Prng}.

(** The follow action picked by the draw of [determine_next_trigger] for
    the trigger [cur] in the current slot, and the box after the draw. *)
Definition selected_follow_action (b : TriggerBox) (cur : AudioTrigger)
  : FollowAction :=
  follow_action cur (which_follow_action (fst (pcg_rand (_pcg b) 100)) cur).

Definition after_draw (b : TriggerBox) : TriggerBox :=
  with_pcg (snd (pcg_rand (_pcg b) 100)) b.

(** Invariant I7 as it is worded: a slot returned by follow-action
    selection has a region and is not active, unless the action is
    [Again] or a single trigger has a region. *)
Definition follow_selection_as_stated (fuel : nat) (current : nat)
    (b : TriggerBox) : Prop :=
  ∀ (cur : AudioTrigger) (n : Z) (b' : TriggerBox),
    all_triggers b !! current = Some cur →
    TriggerBox_determine_next_trigger fuel current b = Done (n, b') →
    0 <= n →
    selected_follow_action b cur ≠ Again →
    runnable (all_triggers b) ≠ 1%nat →
    ∃ t : AudioTrigger,
      all_triggers b !! Z.to_nat n = Some t
      ∧ has_region t = true ∧ active t = false.

(** The slot [i] as the two loops see it: the trigger is there, it is in
    one of the six states, nothing is requested of it, and its counters
    hold [bang] and [unbang]. *)
Definition slot_counters (i : nat) (b : TriggerBox) (bang unbang : Z) : Prop :=
  ∃ t : AudioTrigger,
    all_triggers b !! i = Some t
    ∧ _state t ≠ None_ ∧ _requested_state t = None_
    ∧ _bang t = bang ∧ _unbang t = unbang.

End Stated.


(** The transitions of a waiting trigger as C1 words them: with no bars in
    the quantization and the grid point inside the block, a call on a
    trigger in [WaitingToStart] returns [RunStart], one on a trigger in
    [WaitingForRetrigger] returns [RunAll], and the trigger is [Running]. *)
Definition transition_as_stated `{Tempo} `{Session} `{Prng}
    (i : nat) (start end_ : Z) (b : TriggerBox) : Prop :=
  ∀ t : AudioTrigger,
    all_triggers b !! i = Some t →
    bars (_quantization t) = 0 →
    (let ev := snap_to start
                 (Beats (beats (_quantization t)) (ticks (_quantization t))) in
     start <= ev < end_) →
    ∀ rt : RunType,
      (_state t = WaitingToStart ∧ rt = RunStart)
      ∨ (_state t = WaitingForRetrigger ∧ rt = RunAll) →
      ∃ (fuel : nat) (b' : TriggerBox) (t' : AudioTrigger),
        Trigger_maybe_compute_next_transition fuel i start end_ b = Done (rt, b')
        ∧ all_triggers b' !! i = Some t' ∧ _state t' = Running.
(** ** Further definitions used in the statements below *)

(** What one unbang makes of the state of a trigger, by launch style. *)
Definition unbang_next (l : LaunchStyle) (s : State) : State :=
  match l with
  | Gate | Repeat => match s with Running => WaitingToStop | _ => Stopped end
  | OneShot | Toggle => s
  end.

(** The state after [k >= 1] unbangs. *)
Definition after_unbangs (l : LaunchStyle) (s : State) (k : Z) : State :=
  if k =? 1 then unbang_next l s else unbang_next l (unbang_next l s).

(** The states in which a bang is dropped. *)
Definition bang_ignored (s : State) : bool :=
  match s with
  | WaitingToStart | WaitingToStop | WaitingForRetrigger | Stopping => true
  | _ => false
  end.

(** A trigger that asks nothing of [process_state_requests]. *)
Definition idle (t : AudioTrigger) : Prop :=
  _requested_state t = None_ ∧ _bang t = 0 ∧ _unbang t = 0.

(** The state a stop request leaves behind. *)
Definition after_stop (s : State) : State :=
  match s with
  | Stopped => Stopped
  | _ => WaitingToStop
  end.

(** A trigger with its bang and unbang counters put to zero: what is
    left tells two triggers apart in everything but the counters. *)
Definition counters_cleared (t : AudioTrigger) : AudioTrigger :=
  with_base (fun x => with_bang 0 (with_unbang 0 x)) t.

(** The slot [n] of a list of triggers can follow. *)
Definition can_follow_at (ts : list AudioTrigger) (n : nat) : Prop :=
  ∃ t : AudioTrigger, ts !! n = Some t ∧ can_follow t = true.


(** The clip extent of an audio trigger is in step: [last_sample] is
    [_start_offset + usable_length]. *)
Definition extent_consistent (a : AudioTrigger) : Prop :=
  last_sample a = _start_offset a + usable_length a.

(** The region a saved trigger resolves to when it is restored: the
    session's region of the saved id, if it is an audio region. *)
Definition restored_region `{Session} (src : AudioTrigger) : option Region :=
  match _region src with
  | Some r =>
    match region_by_id (id r) with
    | Some r' => if audio r' then Some r' else None
    | None => None
    end
  | None => None
  end.

(** The follow actions whose search draws slots at random until one
    fits. *)
Definition searches_at_random (f : FollowAction) : bool :=
  match f with AnyTrigger | OtherTrigger => true | _ => false end.

(** The states a trigger can be in while [TriggerBox::run] holds it as
    the playing one: all but [None] and [Stopped]. *)
Definition in_play (s : State) : bool :=
  State_value WaitingToStart <=? State_value s.

(** The trigger that [currently_playing] names exists and is in play. *)
Definition playing_in_play `{Prng} (b : TriggerBox) : Prop :=
  match currently_playing b with
  | None => True
  | Some cp =>
    ∃ t : AudioTrigger, all_triggers b !! cp = Some t ∧ in_play (_state t) = true
  end.

(** The node [node] holds the fields of [Trigger] as [src] has them. *)
Definition holds_trigger_state (node : XMLNode) (src : AudioTrigger) : Prop :=
  (∀ old, get_bool node "legato" old = _legato src)
  ∧ (∀ old, get_launch_style node "launch-style" old = _launch_style src)
  ∧ (∀ old, get_follow_action node "follow-action-0" old = fst (_follow_action src))
  ∧ (∀ old, get_follow_action node "follow-action-1" old = snd (_follow_action src))
  ∧ (∀ old, get_bbt node "quantization" old = _quantization src)
  ∧ (∀ old, get_string node "name" old = _name src)
  ∧ (∀ old, get_uint64 node "index" old = _index src)
  ∧ get_id node "region" = id <$> _region src.

(** What [Trigger::set_state] makes of [dst] given the saved fields of
    [src]. *)
Definition restored_from `{Session} (src dst a' : AudioTrigger) : Prop :=
  _legato a' = _legato src
  ∧ _launch_style a' = _launch_style src
  ∧ _follow_action a' = _follow_action src
  ∧ _quantization a' = _quantization src
  ∧ _index a' = _index src
  ∧ match restored_region src with
    | Some r' =>
      _region a' = Some r'
      ∧ _name a' = (if readable r' then name r' else _name src)
    | None =>
      _region a' = _region dst
      ∧ _name a' = _name src
      ∧ _start_offset a' = _start_offset dst
      ∧ usable_length a' = usable_length dst
      ∧ last_sample a' = last_sample dst
    end.

(** How many of the events [evs] are of the kind [wanted] and carry a
    note that the map [m] sends to slot [k]. *)
Definition requests_for (m : gmap Z nat) (k : nat) (wanted : MidiEvent → bool)
    (evs : list MidiEvent) : Z :=
  Z.of_nat
    (List.length
       (List.filter (λ ev, wanted ev && bool_decide (m !! note ev = Some k)) evs)).

(** Every note among [evs] is mapped to a slot below [slots]. *)
Definition notes_mapped (m : gmap Z nat) (slots : nat) (evs : list MidiEvent)
  : Prop :=
  Forall (λ ev, is_note ev = true →
                ∃ slot : nat, m !! note ev = Some slot ∧ (slot < slots)%nat) evs.

(** The trigger [t] after [ons] more bangs and [offs] more unbangs. *)
Definition with_requests (ons offs : Z) (t : AudioTrigger) : AudioTrigger :=
  with_base (λ x, with_unbang (wrap_int (_unbang t + offs))
                    (with_bang (wrap_int (_bang t + ons)) x)) t.
(** ** Properties *)

Section Properties.
Context `{Tempo} `{Session} `{Prng}.

Implicit Types (a t : AudioTrigger) (b : TriggerBox) (i n cp : nat).

(** *** Reading slots back after a member call *)

Lemma on_trigger_length n f b :
  List.length (all_triggers (on_trigger n f b)) = List.length (all_triggers b).
Proof. unfold on_trigger. simpl. apply length_alter. Qed.

Lemma on_trigger_lookup n f b t :
  all_triggers b !! n = Some t →
  all_triggers (on_trigger n f b) !! n = Some (f t).
Proof.
  intros Hn. unfold on_trigger. simpl.
  rewrite list_lookup_alter_eq, Hn. reflexivity.
Qed.

Lemma on_trigger_lookup_ne n m f b :
  n ≠ m → all_triggers (on_trigger n f b) !! m = all_triggers b !! m.
Proof. intros Hne. unfold on_trigger. simpl. by apply list_lookup_alter_ne. Qed.

Lemma trigger_at_Done b n t :
  trigger_at b n = Done t ↔ all_triggers b !! n = Some t.
Proof.
  unfold trigger_at. destruct (all_triggers b !! n); split; congruence.
Qed.

(** *** [AudioTrigger::load_data] *)

(** C7, as amended. For a region that can be read, [load_data] returns 0
    and sets [data_length] to the length of the region in samples. An
    unset (zero) [usable_length] becomes [data_length]; a set one becomes
    the minimum of itself and [data_length]. The result never exceeds
    [data_length], and [last_sample] is [_start_offset + usable_length]
    whenever [usable_length] is assigned (and is left alone otherwise). *)
Theorem load_data_lengths (ar : Region) a :
  readable ar = true →
  let a' := snd (AudioTrigger_load_data ar a) in
  fst (AudioTrigger_load_data ar a) = 0 ∧
  data_length a' = length_samples ar ∧
  usable_length a' =
    (if usable_length a =? 0 then data_length a'
     else Z.min (usable_length a) (data_length a')) ∧
  usable_length a' <= data_length a' ∧
  (usable_length a = 0 ∨ data_length a' < usable_length a →
   last_sample a' = _start_offset a' + usable_length a') ∧
  (usable_length a ≠ 0 → usable_length a <= data_length a' →
   last_sample a' = last_sample a).
Proof.
  intros Hread a'. subst a'.
  unfold AudioTrigger_load_data. rewrite Hread. simpl.
  destruct (Z.eqb_spec (usable_length a) 0) as [Hz | Hz]; simpl.
  - rewrite Hz. repeat split; try reflexivity; try lia.
  - destruct (Z.ltb_spec (length_samples ar) (usable_length a)); simpl;
      repeat split; try reflexivity; lia.
Qed.

(** *** Saving and restoring a trigger *)

(** [Trigger::set_state] restores what [Trigger::get_state] saved of a
    trigger without region, and reports success with 0. *)
Lemma Trigger_set_get_state (src dst : AudioTrigger) (version : Z) :
  _region src = None →
  ∃ a', Trigger_set_state (Trigger_get_state src) version dst = Done (0, a')
    ∧ _legato a' = _legato src
    ∧ _launch_style a' = _launch_style src
    ∧ _follow_action a' = _follow_action src
    ∧ _quantization a' = _quantization src
    ∧ _name a' = _name src
    ∧ _index a' = _index src
    ∧ _start_offset a' = _start_offset dst
    ∧ usable_length a' = usable_length dst
    ∧ last_sample a' = last_sample dst.
Proof.
  destruct src as [[? ? ? ? ? ? [f0 f1] ? r ? ? ? ? ?] ? ? ? ? ? ? ?].
  simpl. intros ->.
  eexists. split; [vm_compute; reflexivity |].
  simpl. repeat split; reflexivity.
Qed.

(** [AudioTrigger::set_state] takes the 0 of [Trigger::set_state] for a
    failure: it returns -1 before it reads [start] and [length]. *)
Lemma AudioTrigger_set_state_early_return (node : XMLNode) (version : Z) a a' :
  Trigger_set_state node version a = Done (0, a') →
  AudioTrigger_set_state node version a = Done (-1, a').
Proof. intros Hbase. unfold AudioTrigger_set_state. rewrite Hbase. reflexivity. Qed.

(** C2, the code at the failing input. [saved_trigger] starts at sample
    100 and has 500 usable samples; restoring its saved state into a new
    trigger gives back the fields of [Trigger] but leaves the start offset
    and the usable length at the 0 of the constructor, and [set_state]
    returns -1. *)
Theorem AudioTrigger_state_roundtrip_drops_extent :
  ∃ a',
    AudioTrigger_set_state (AudioTrigger_get_state saved_trigger) 0
      (AudioTrigger_new 0) = Done (-1, a')
    ∧ _legato a' = _legato saved_trigger
    ∧ _launch_style a' = _launch_style saved_trigger
    ∧ _follow_action a' = _follow_action saved_trigger
    ∧ _quantization a' = _quantization saved_trigger
    ∧ _name a' = _name saved_trigger
    ∧ _index a' = _index saved_trigger
    ∧ _start_offset saved_trigger = 100 ∧ _start_offset a' = 0
    ∧ usable_length saved_trigger = 500 ∧ usable_length a' = 0.
Proof.
  eexists. split; [vm_compute; reflexivity |].
  simpl. repeat split; reflexivity.
Qed.

(** *** [TriggerBox::queue_explict] *)

(** C9. After [queue_explict (t)] the implicit queue is empty, whatever
    it held and whatever the state of the triggers. When a trigger is
    playing, its unbang counter has gone through one [fetch_add (1)]: it
    is one more than before (short of [INT_MAX]), and no other trigger has
    changed. When none is playing no trigger has changed. *)
Theorem queue_explict_effects (t : nat) b :
  let b' := TriggerBox_queue_explict t b in
  rb_items (implicit_queue b') = [] ∧
  (∀ cp (tr : AudioTrigger),
     currently_playing b = Some cp → all_triggers b !! cp = Some tr →
     ∃ tr' : AudioTrigger,
       all_triggers b' !! cp = Some tr' ∧
       _unbang tr' = fetch_add (_unbang tr) 1 ∧
       (int_range (_unbang tr) → _unbang tr < INT_MAX →
        _unbang tr' = _unbang tr + 1) ∧
       (∀ m, m ≠ cp → all_triggers b' !! m = all_triggers b !! m)) ∧
  (currently_playing b = None → all_triggers b' = all_triggers b).
Proof.
  unfold TriggerBox_queue_explict. simpl. repeat split.
  - destruct (currently_playing b); reflexivity.
  - intros cp tr Hcp Htr. rewrite Hcp.
    exists (Trigger_unbang tr). repeat split.
    + unfold on_trigger. simpl. rewrite list_lookup_alter_eq, Htr. reflexivity.
    + intros [Hlo Hhi] Hmax. simpl. unfold fetch_add, wrap_int.
      unfold INT_MIN, INT_MAX in *.
      rewrite Z.mod_small by lia. lia.
    + intros m Hm. unfold on_trigger. simpl.
      by apply list_lookup_alter_ne.
  - intros ->. reflexivity.
Qed.

(** *** [TriggerBox::run] before time zero *)

(** C8. With a negative [start_sample], [run] returns at once and hands
    back the box it was given: every trigger (state, bang and unbang
    counters, requested state), both queues and [currently_playing] are
    what they were. *)
Theorem run_negative_start_sample (fuel : nat) (bufs : list (list MidiEvent))
    (start_sample end_sample nframes : Z) b :
  start_sample < 0 →
  TriggerBox_run fuel bufs start_sample end_sample nframes b = Done b.
Proof.
  intros Hneg. unfold TriggerBox_run.
  destruct (Z.ltb_spec start_sample 0); [reflexivity | lia].
Qed.

(** *** MIDI note events *)

(** What one event does, case by case: an event that is no note is
    skipped; a note mapped to a slot of [all_triggers] bangs or unbangs
    that trigger; a note mapped past the end of [all_triggers] fails the
    assertion; a note that is not in the map calls through the null [t]. *)
Lemma midi_trigger_request_cases (ev : MidiEvent) b :
  match ev, midi_trigger_map b !! note ev with
  | OtherEvent, _ => midi_trigger_request ev b = Done b
  | NoteOnEvent _ _, Some slot =>
    if (slot <? List.length (all_triggers b))%nat
    then midi_trigger_request ev b = Done (on_trigger slot Trigger_bang b)
    else midi_trigger_request ev b = Crash AssertionFailed
  | NoteOffEvent _ _, Some slot =>
    if (slot <? List.length (all_triggers b))%nat
    then midi_trigger_request ev b = Done (on_trigger slot Trigger_unbang b)
    else midi_trigger_request ev b = Crash AssertionFailed
  | _, None => midi_trigger_request ev b = Crash NullDereference
  end.
Proof.
  unfold midi_trigger_request.
  destruct ev as [k v | k v |]; simpl; [| | reflexivity];
    destruct (midi_trigger_map b !! k) as [slot |]; simpl; try reflexivity;
    destruct (slot <? List.length (all_triggers b))%nat; reflexivity.
Qed.

(** C10, the code at the failing inputs. On the box as constructed (eight
    slots, notes 60 to 69 mapped to slots 0 to 9), a note-on or note-off
    for note 70, which is not in the map, dereferences a null trigger, and
    a note-on for note 68 or 69 fails [assert (mt->second <
    all_triggers.size ())]; a note-on for note 60 bangs slot 0. *)
Theorem midi_requests_on_new_box (g : PCGRand) :
  let b := TriggerBox_new g AUDIO in
  TriggerBox_process_midi_trigger_requests [[NoteOnEvent 70 100]] b
    = Crash NullDereference ∧
  TriggerBox_process_midi_trigger_requests [[NoteOffEvent 70 0]] b
    = Crash NullDereference ∧
  TriggerBox_process_midi_trigger_requests [[NoteOnEvent 68 100]] b
    = Crash AssertionFailed ∧
  TriggerBox_process_midi_trigger_requests [[NoteOnEvent 69 100]] b
    = Crash AssertionFailed ∧
  TriggerBox_process_midi_trigger_requests [[NoteOnEvent 60 100]] b
    = Done (on_trigger 0 Trigger_bang b).
Proof. repeat split; vm_compute; reflexivity. Qed.

(** *** Cyclic scans *)

Lemma cyclic_index (N current k : nat) :
  (current < N → k ≤ N →
   (current + k) mod N = if current + k <? N then current + k else current + k - N)%nat.
Proof.
  intros Hc Hk. destruct (Nat.ltb_spec (current + k) N) as [Hlt | Hge].
  - by apply Nat.mod_small.
  - replace (current + k)%nat with ((current + k - N) + 1 * N)%nat at 1 by lia.
    rewrite Nat.Div0.mod_add. apply Nat.mod_small. lia.
Qed.

Lemma cyclic_successors_spec (N current m : nat) :
  (current < N)%nat →
  m ∈ cyclic_successors N current ↔ (m < N)%nat ∧ m ≠ current.
Proof.
  intros Hc. unfold cyclic_successors. rewrite list_elem_of_fmap. split.
  - intros (k & -> & Hk). apply elem_of_seq in Hk.
    rewrite cyclic_index by lia. destruct (Nat.ltb_spec (current + k) N); lia.
  - intros [Hm Hne].
    destruct (decide (current < m)%nat).
    + exists (m - current)%nat. split.
      * rewrite cyclic_index by lia.
        destruct (Nat.ltb_spec (current + (m - current)) N); lia.
      * apply elem_of_seq. lia.
    + exists (m + N - current)%nat. split.
      * rewrite cyclic_index by lia.
        destruct (Nat.ltb_spec (current + (m + N - current)) N); lia.
      * apply elem_of_seq. lia.
Qed.

Lemma cyclic_successors_NoDup (N current : nat) :
  (current < N)%nat → NoDup (cyclic_successors N current).
Proof.
  intros Hc. unfold cyclic_successors.
  apply NoDup_fmap_2_strong; [| apply NoDup_seq].
  intros j k Hj Hk. apply elem_of_seq in Hj, Hk.
  rewrite !cyclic_index by lia.
  destruct (Nat.ltb_spec (current + j) N), (Nat.ltb_spec (current + k) N); lia.
Qed.

Lemma next_trigger_loop_scan (steps : nat) b (current k : nat) :
  let N := List.length (all_triggers b) in
  (current < N)%nat → (k < N)%nat → (N ≤ k + steps)%nat →
  next_trigger_loop steps b current ((current + k) mod N)
  = Done (first_to_follow (all_triggers b)
            ((fun j => (current + j) mod N)%nat <$> seq (S k) (N - 1 - k))).
Proof.
  intros N Hc. revert k. induction steps as [| steps IH]; intros k Hk Hsteps;
    [lia |].
  simpl. fold N.
  assert (Hnext : (if (N <=? S ((current + k) mod N))%nat then 0%nat
                   else S ((current + k) mod N)) = ((current + S k) mod N)%nat).
  { rewrite !cyclic_index by lia.
    destruct (Nat.ltb_spec (current + k) N), (Nat.ltb_spec (current + S k) N);
      destruct (Nat.leb_spec N (S (current + k)));
      destruct (Nat.leb_spec N (S (current + k - N))); lia. }
  rewrite Hnext.
  destruct (decide (S k = N)) as [Hend | Hmore].
  - replace (N - 1 - k)%nat with 0%nat by lia. simpl.
    rewrite cyclic_index by lia.
    destruct (Nat.ltb_spec (current + S k) N); [lia |].
    replace (current + S k - N)%nat with current by lia.
    rewrite Nat.eqb_refl. reflexivity.
  - replace (N - 1 - k)%nat with (S (N - 1 - S k)) by lia. simpl.
    assert (Hlt : ((current + S k) mod N < N)%nat) by (apply Nat.mod_upper_bound; lia).
    assert (Hne : ((current + S k) mod N)%nat ≠ current).
    { rewrite cyclic_index by lia.
      destruct (Nat.ltb_spec (current + S k) N); lia. }
    apply Nat.eqb_neq in Hne. rewrite Hne.
    unfold trigger_at.
    destruct (lookup_lt_is_Some_2 (all_triggers b) _ Hlt) as [t Ht].
    rewrite Ht. simpl. unfold first_to_follow. simpl.
    destruct (can_follow t); [reflexivity |].
    apply IH; lia.
Qed.

Lemma cyclic_predecessors_spec (N current m : nat) :
  (current < N)%nat →
  m ∈ cyclic_predecessors N current ↔ (m < N)%nat ∧ m ≠ current.
Proof.
  intros Hc. unfold cyclic_predecessors. rewrite list_elem_of_fmap. split.
  - intros (k & -> & Hk). apply elem_of_seq in Hk.
    replace (current + N - k)%nat with (current + (N - k))%nat by lia.
    rewrite cyclic_index by lia.
    destruct (Nat.ltb_spec (current + (N - k)) N); lia.
  - intros [Hm Hne].
    destruct (decide (m < current)%nat).
    + exists (current - m)%nat. split.
      * replace (current + N - (current - m))%nat with (current + (N - (current - m)))%nat by lia.
        rewrite cyclic_index by lia.
        destruct (Nat.ltb_spec (current + (N - (current - m))) N); lia.
      * apply elem_of_seq. lia.
    + exists (current + N - m)%nat. split.
      * replace (current + N - (current + N - m))%nat with (current + (N - (current + N - m)))%nat by lia.
        rewrite cyclic_index by lia.
        destruct (Nat.ltb_spec (current + (N - (current + N - m))) N); lia.
      * apply elem_of_seq. lia.
Qed.

Lemma prev_trigger_loop_scan (steps : nat) b (current k : nat) :
  let N := List.length (all_triggers b) in
  (current < N)%nat → (k < N)%nat → (N ≤ k + steps)%nat →
  prev_trigger_loop steps b current ((current + N - k) mod N)
  = Done (first_to_follow (all_triggers b)
            ((fun j => (current + N - j) mod N)%nat <$> seq (S k) (N - 1 - k))).
Proof.
  intros N Hc. revert k. induction steps as [| steps IH]; intros k Hk Hsteps;
    [lia |].
  simpl. fold N.
  assert (Hidx : ∀ j, (j ≤ N → (current + N - j) mod N
            = if current + (N - j) <? N then current + (N - j) else current - j)%nat).
  { intros j Hj. replace (current + N - j)%nat with (current + (N - j))%nat by lia.
    rewrite cyclic_index by lia.
    destruct (Nat.ltb_spec (current + (N - j)) N); lia. }
  assert (Hnext : (if ((current + N - k) mod N =? 0)%nat then (N - 1)%nat
                   else ((current + N - k) mod N - 1)%nat)
                  = ((current + N - S k) mod N)%nat).
  { rewrite !Hidx by lia.
    destruct (Nat.ltb_spec (current + (N - k)) N),
             (Nat.ltb_spec (current + (N - S k)) N);
      destruct (Nat.eqb_spec (current + (N - k)) 0);
      destruct (Nat.eqb_spec (current - k) 0); lia. }
  rewrite Hnext.
  destruct (decide (S k = N)) as [Hend | Hmore].
  - replace (N - 1 - k)%nat with 0%nat by lia. simpl.
    rewrite Hidx by lia.
    destruct (Nat.ltb_spec (current + (N - S k)) N); [| lia].
    replace (current + (N - S k))%nat with current by lia.
    rewrite Nat.eqb_refl. reflexivity.
  - replace (N - 1 - k)%nat with (S (N - 1 - S k)) by lia. simpl.
    assert (Hlt : ((current + N - S k) mod N < N)%nat) by (apply Nat.mod_upper_bound; lia).
    assert (Hne : ((current + N - S k) mod N)%nat ≠ current).
    { rewrite Hidx by lia.
      destruct (Nat.ltb_spec (current + (N - S k)) N); lia. }
    apply Nat.eqb_neq in Hne. rewrite Hne.
    unfold trigger_at.
    destruct (lookup_lt_is_Some_2 (all_triggers b) _ Hlt) as [t Ht].
    rewrite Ht. simpl. unfold first_to_follow. simpl.
    destruct (can_follow t); [reflexivity |].
    apply IH; lia.
Qed.

Lemma first_to_follow_Some ts (candidates : list nat) n :
  first_to_follow ts candidates = Some n →
  n ∈ candidates ∧ ∃ t, ts !! n = Some t ∧ can_follow t = true.
Proof.
  unfold first_to_follow. intros Hfind.
  apply List.find_some in Hfind as [Hin Hp].
  split; [by apply list_elem_of_In |].
  destruct (ts !! n) as [t |]; [eauto | discriminate].
Qed.

Lemma first_to_follow_None ts (candidates : list nat) n t :
  first_to_follow ts candidates = None →
  n ∈ candidates → ts !! n = Some t → can_follow t = false.
Proof.
  unfold first_to_follow. intros Hfind Hin Ht.
  apply list_elem_of_In in Hin.
  pose proof (List.find_none _ _ Hfind n Hin) as Hp. simpl in Hp.
  by rewrite Ht in Hp.
Qed.

Lemma first_trigger_loop_Some ts n m :
  first_trigger_loop ts n = Some m →
  (n ≤ m)%nat ∧ ∃ t, ts !! (m - n)%nat = Some t ∧ can_follow t = true.
Proof.
  revert n. induction ts as [| t ts IH]; intros n; simpl; [discriminate |].
  destruct (can_follow t) eqn:Hf.
  - intros [= <-]. split; [lia |]. rewrite Nat.sub_diag. eauto.
  - intros Hrest. apply IH in Hrest as (Hle & t' & Ht' & Hf').
    split; [lia |]. exists t'. split; [| done].
    replace (m - n)%nat with (S (m - S n)) by lia. done.
Qed.

Lemma first_trigger_loop_None ts n m t :
  first_trigger_loop ts n = None → ts !! m = Some t → can_follow t = false.
Proof.
  revert n m. induction ts as [| t' ts IH]; intros n m; simpl; [done |].
  destruct (can_follow t') eqn:Hf; [discriminate |].
  intros Hrest. destruct m as [| m]; simpl.
  - by intros [= <-].
  - by apply IH with (n := S n).
Qed.

Lemma last_trigger_loop_Some ts i j :
  last_trigger_loop ts i = Some j →
  (j < i)%nat ∧ ∃ t, ts !! j = Some t ∧ can_follow t = true.
Proof.
  induction i as [| i IH]; simpl; [discriminate |].
  destruct (ts !! i) as [t |] eqn:Ht.
  - destruct (can_follow t) eqn:Hf.
    + intros [= <-]. split; [lia | eauto].
    + intros Hrest. apply IH in Hrest as [Hlt Hx]. split; [lia | done].
  - intros Hrest. apply IH in Hrest as [Hlt Hx]. split; [lia | done].
Qed.

Lemma last_trigger_loop_None ts i m t :
  last_trigger_loop ts i = None → (m < i)%nat → ts !! m = Some t →
  can_follow t = false.
Proof.
  induction i as [| i IH]; simpl; [lia |].
  intros Hloop Hm Ht.
  destruct (decide (m = i)) as [-> | Hne].
  - rewrite Ht in Hloop. by destruct (can_follow t).
  - apply IH; [| lia | done].
    destruct (ts !! i) as [t' |]; [| done].
    by destruct (can_follow t').
Qed.

Lemma can_follow_true t :
  can_follow t = true ↔ has_region t = true ∧ active t = false.
Proof.
  unfold can_follow. rewrite andb_true_iff, negb_true_iff. reflexivity.
Qed.

Lemma trigger_at_int_Done b (n : Z) t :
  trigger_at_int b n = Done t → 0 <= n ∧ all_triggers b !! Z.to_nat n = Some t.
Proof.
  unfold trigger_at_int. destruct (Z.ltb_spec n 0); [discriminate |].
  intros Hat. apply trigger_at_Done in Hat. split; [lia | done].
Qed.

Lemma any_trigger_loop_Done (fuel : nat) b (n : Z) b' :
  any_trigger_loop fuel b = Done (n, b') →
  all_triggers b' = all_triggers b ∧ 0 <= n ∧
  ∃ t, all_triggers b !! Z.to_nat n = Some t
       ∧ has_region t = true ∧ active t = false.
Proof.
  revert b. induction fuel as [| fuel IH]; intros b; simpl; [discriminate |].
  destruct (pcg_rand _ _) as [r g].
  destruct (trigger_at_int (with_pcg g b) r) as [t | |] eqn:Hat;
    simpl; try discriminate.
  apply trigger_at_int_Done in Hat as [Hr Ht]. simpl in Ht.
  destruct (has_region t) eqn:Hreg; simpl.
  - destruct (active t) eqn:Hact.
    + intros Hloop. apply IH in Hloop. exact Hloop.
    + intros [= <- <-]. simpl. eauto 6.
  - intros Hloop. apply IH in Hloop. exact Hloop.
Qed.

Lemma other_trigger_loop_Done (fuel : nat) b (current : nat) (n : Z) b' :
  other_trigger_loop fuel b current = Done (n, b') →
  all_triggers b' = all_triggers b ∧ 0 <= n ∧ n ≠ Z.of_nat current ∧
  ∃ t, all_triggers b !! Z.to_nat n = Some t
       ∧ has_region t = true ∧ active t = false.
Proof.
  revert b. induction fuel as [| fuel IH]; intros b; simpl; [discriminate |].
  destruct (pcg_rand _ _) as [r g].
  destruct (Z.eqb_spec r (Z.of_nat current)) as [Heq | Hne].
  { intros Hloop. apply IH in Hloop. exact Hloop. }
  destruct (trigger_at_int (with_pcg g b) r) as [t | |] eqn:Hat;
    simpl; try discriminate.
  apply trigger_at_int_Done in Hat as [Hr Ht]. simpl in Ht.
  destruct (has_region t) eqn:Hreg; simpl.
  - destruct (active t) eqn:Hact.
    + intros Hloop. apply IH in Hloop. exact Hloop.
    + intros [= <- <-]. simpl. eauto 8.
  - intros Hloop. apply IH in Hloop. exact Hloop.
Qed.

(** *** [TriggerBox::determine_next_trigger] *)

Lemma determine_next_trigger_unfold (fuel : nat) (current : nat) b
    (cur : AudioTrigger) :
  all_triggers b !! current = Some cur →
  let ts := all_triggers b in
  let b1 := after_draw b in
  TriggerBox_determine_next_trigger fuel current b =
  match selected_follow_action b cur with
  | Stop | QueuedTrigger => Done (-1, b1)
  | action =>
    if (runnable ts =? 1)%nat then Done (Z.of_nat current, b1) else
    match action with
    | Again => Done (Z.of_nat current, b1)
    | NextTrigger =>
      match first_to_follow ts (cyclic_successors (List.length ts) current) with
      | Some n => Done (Z.of_nat n, b1)
      | None => Done (Z.of_nat current, b1)
      end
    | PrevTrigger =>
      match first_to_follow ts (cyclic_predecessors (List.length ts) current) with
      | Some n => Done (Z.of_nat n, b1)
      | None => Done (Z.of_nat current, b1)
      end
    | FirstTrigger =>
      match first_trigger_loop ts O with
      | Some n => Done (Z.of_nat n, b1)
      | None => Done (Z.of_nat current, b1)
      end
    | LastTrigger =>
      match last_trigger_loop ts (List.length ts) with
      | Some n => Done (Z.of_nat n, b1)
      | None => Done (Z.of_nat current, b1)
      end
    | AnyTrigger => any_trigger_loop fuel b1
    | OtherTrigger => other_trigger_loop fuel b1 current
    | Stop | QueuedTrigger => Done (Z.of_nat current, b1)
    end
  end.
Proof.
  intros Hcur ts b1.
  assert (Hlt : (current < List.length (all_triggers b1))%nat).
  { apply lookup_lt_Some in Hcur. exact Hcur. }
  pose proof (next_trigger_loop_scan (List.length (all_triggers b1)) b1 current 0
                Hlt ltac:(lia) ltac:(lia)) as Hnext.
  pose proof (prev_trigger_loop_scan (List.length (all_triggers b1)) b1 current 0
                Hlt ltac:(lia) ltac:(lia)) as Hprev.
  rewrite Nat.add_0_r, Nat.mod_small, Nat.sub_0_r in Hnext by exact Hlt.
  rewrite !Nat.sub_0_r in Hprev.
  replace ((current + List.length (all_triggers b1)) mod List.length (all_triggers b1))%nat
    with current in Hprev
    by (rewrite (cyclic_index _ current _ Hlt (le_n _));
        destruct (Nat.ltb_spec (current + List.length (all_triggers b1))
                    (List.length (all_triggers b1))); lia).
  unfold TriggerBox_determine_next_trigger, selected_follow_action.
  subst b1 ts. unfold after_draw in *.
  destruct (pcg_rand (_pcg b) 100) as [r g]. simpl in *.
  unfold trigger_at. simpl. rewrite Hcur. simpl.
  destruct (follow_action cur (which_follow_action r cur)); try reflexivity;
    destruct (runnable (all_triggers b) =? 1)%nat; try reflexivity.
  - rewrite Hnext. reflexivity.
  - rewrite Hprev. reflexivity.
Qed.


(** C5, as amended. When [determine_next_trigger (current)] returns a
    slot [n >= 0], the trigger in slot [n] has a region and is not active,
    unless the selected action is [Again], a single trigger has a region,
    or no slot other than [current] has a region and is inactive (the
    search gives up); in these cases [n] is [current]. *)
Theorem determine_next_trigger_choice (fuel : nat) (current : nat) b
    (cur : AudioTrigger) (n : Z) (b' : TriggerBox) :
  all_triggers b !! current = Some cur →
  TriggerBox_determine_next_trigger fuel current b = Done (n, b') →
  0 <= n →
  (∃ t : AudioTrigger,
     all_triggers b !! Z.to_nat n = Some t
     ∧ has_region t = true ∧ active t = false)
  ∨ (n = Z.of_nat current
     ∧ (selected_follow_action b cur = Again
        ∨ runnable (all_triggers b) = 1%nat
        ∨ ∀ m (t : AudioTrigger),
            m ≠ current → all_triggers b !! m = Some t → can_follow t = false)).
Proof.
  intros Hcur Hdnt Hn.
  rewrite (determine_next_trigger_unfold fuel current b cur Hcur) in Hdnt.
  simpl in Hdnt.
  assert (Hlt : (current < List.length (all_triggers b))%nat)
    by (apply lookup_lt_Some in Hcur; exact Hcur).
  assert (Hfound : ∀ m (t : AudioTrigger),
             all_triggers b !! m = Some t → can_follow t = true →
             ∃ t : AudioTrigger,
               all_triggers b !! Z.to_nat (Z.of_nat m) = Some t
               ∧ has_region t = true ∧ active t = false).
  { intros m t Ht Hf. rewrite Nat2Z.id. apply can_follow_true in Hf. eauto. }
  destruct (selected_follow_action b cur) eqn:Haction;
    try (injection Hdnt as <- <-; lia);
    try (right; split; [congruence | by left]);
    destruct (Nat.eqb_spec (runnable (all_triggers b)) 1) as [Hone | Hone];
    try (injection Hdnt as <- <-; right; split; [reflexivity | by right; left]);
    try (injection Hdnt as <- <-; right; split; [reflexivity | by left]).
  - (* NextTrigger *)
    destruct (first_to_follow _ _) as [m |] eqn:Hscan; injection Hdnt as <- <-.
    + apply first_to_follow_Some in Hscan as (_ & t & Ht & Hf). left. eauto.
    + right. split; [reflexivity |]. right; right. intros m t Hm Ht.
      eapply first_to_follow_None; [exact Hscan | | exact Ht].
      apply cyclic_successors_spec; [exact Hlt |].
      split; [by apply lookup_lt_Some in Ht | exact Hm].
  - (* PrevTrigger *)
    destruct (first_to_follow _ _) as [m |] eqn:Hscan; injection Hdnt as <- <-.
    + apply first_to_follow_Some in Hscan as (_ & t & Ht & Hf). left. eauto.
    + right. split; [reflexivity |]. right; right. intros m t Hm Ht.
      eapply first_to_follow_None; [exact Hscan | | exact Ht].
      apply cyclic_predecessors_spec; [exact Hlt |].
      split; [by apply lookup_lt_Some in Ht | exact Hm].
  - (* FirstTrigger *)
    destruct (first_trigger_loop _ _) as [m |] eqn:Hscan; injection Hdnt as <- <-.
    + apply first_trigger_loop_Some in Hscan as (_ & t & Ht & Hf).
      rewrite Nat.sub_0_r in Ht. left. eauto.
    + right. split; [reflexivity |]. right; right. intros m t _ Ht.
      eapply first_trigger_loop_None; [exact Hscan | exact Ht].
  - (* LastTrigger *)
    destruct (last_trigger_loop _ _) as [m |] eqn:Hscan; injection Hdnt as <- <-.
    + apply last_trigger_loop_Some in Hscan as (_ & t & Ht & Hf). left. eauto.
    + right. split; [reflexivity |]. right; right. intros m t _ Ht.
      eapply last_trigger_loop_None; [exact Hscan | | exact Ht].
      by apply lookup_lt_Some in Ht.
  - (* AnyTrigger *)
    apply any_trigger_loop_Done in Hdnt as (_ & _ & t & Ht & Hreg & Hact).
    left. simpl in Ht. eauto.
  - (* OtherTrigger *)
    apply other_trigger_loop_Done in Hdnt as (_ & _ & _ & t & Ht & Hreg & Hact).
    left. simpl in Ht. eauto.
Qed.

(** *** Draining the bang and unbang counters *)

Lemma wrap_int_range (z : Z) : int_range (wrap_int z).
Proof.
  unfold int_range, wrap_int, INT_MIN, INT_MAX.
  pose proof (Z.mod_pos_bound (z + 2 ^ 31) (2 ^ 32) ltac:(lia)). lia.
Qed.

Lemma wrap_int_mod (z : Z) : wrap_int z mod 2 ^ 32 = z mod 2 ^ 32.
Proof.
  unfold wrap_int. rewrite Zminus_mod_idemp_l. f_equal. lia.
Qed.

(** A counter in the range of [int] is zero exactly when its unsigned
    reading is, and one [fetch_sub (1)] takes that reading down by one. *)
Lemma int_zero_mod (x : Z) : int_range x → x mod 2 ^ 32 = 0 → x = 0.
Proof.
  unfold int_range, INT_MIN, INT_MAX. intros Hx Hmod.
  apply Z.mod_divide in Hmod; [| lia]. destruct Hmod as [k ->]. lia.
Qed.

Lemma fetch_sub_mod (x : Z) :
  int_range x → x ≠ 0 → fetch_sub x 1 mod 2 ^ 32 = x mod 2 ^ 32 - 1.
Proof.
  intros Hx Hnz. unfold fetch_sub. rewrite wrap_int_mod.
  rewrite <- Zminus_mod_idemp_l.
  pose proof (Z.mod_pos_bound x (2 ^ 32) ltac:(lia)).
  assert (x mod 2 ^ 32 ≠ 0) by (intros Hz; by apply int_zero_mod in Hz).
  apply Z.mod_small. lia.
Qed.

Lemma slot_counters_set_state i b (s : State) (bang unbang : Z) :
  s ≠ None_ → slot_counters i b bang unbang →
  slot_counters i (on_trigger i (with_base (with_state s)) b) bang unbang.
Proof.
  intros Hs (t & Ht & Hst & Hreq & Hb & Hu).
  eexists. split; [by apply on_trigger_lookup |]. simpl. done.
Qed.

Lemma slot_counters_queue_explict i (j : nat) b (bang unbang : Z) :
  slot_counters i b bang unbang →
  ∃ unbang', int_range unbang' ∧
    slot_counters i (TriggerBox_queue_explict j b) bang
      (if bool_decide (currently_playing b = Some i) then unbang' else unbang).
Proof.
  intros (t & Ht & Hst & Hreq & Hb & Hu).
  exists (fetch_add unbang 1). split; [apply wrap_int_range |].
  unfold TriggerBox_queue_explict. simpl.
  destruct (currently_playing b) as [cp |] eqn:Hcp.
  - destruct (decide (cp = i)) as [-> | Hne].
    + rewrite bool_decide_eq_true_2 by done.
      eexists. split; [by apply on_trigger_lookup |]. simpl.
      rewrite Hu. done.
    + rewrite bool_decide_eq_false_2 by congruence.
      exists t. split; [| done].
      rewrite on_trigger_lookup_ne by done. exact Ht.
  - rewrite bool_decide_eq_false_2 by congruence. exists t. done.
Qed.

Lemma bang_step_counters i b (bang unbang : Z) :
  int_range unbang → slot_counters i b bang unbang →
  ∃ b' unbang', bang_step i b = Done b' ∧ int_range unbang'
    ∧ slot_counters i b' bang unbang'.
Proof.
  intros Hrange Hslot. pose proof Hslot as (t & Ht & Hst & Hreq & Hb & Hu).
  unfold bang_step, trigger_at. rewrite Ht. simpl.
  destruct (_state t) eqn:Hstate; try congruence.
  - (* Stopped *)
    destruct (slot_counters_queue_explict i i b bang unbang Hslot)
      as (u' & Hu' & Hslot').
    eexists _, _. split; [reflexivity |]. split; [| exact Hslot'].
    by case_bool_decide.
  - eauto.
  - (* Running *)
    destruct (_launch_style t); eexists _, _; (split; [reflexivity |]);
      (split; [exact Hrange |]).
    + by apply slot_counters_set_state.
    + apply (slot_counters_set_state i b WaitingToStop) in Hslot; done.
    + apply (slot_counters_set_state i b WaitingToStop) in Hslot; done.
    + apply (slot_counters_set_state i b WaitingToStop) in Hslot; done.
  - eauto.
  - eauto.
  - eauto.
Qed.

Lemma bang_loop_drains (fuel : nat) i b (bang unbang : Z) :
  int_range bang → int_range unbang →
  (Z.to_nat (bang mod 2 ^ 32) ≤ fuel)%nat →
  slot_counters i b bang unbang →
  ∃ b' unbang', bang_loop fuel i b = Done b' ∧ int_range unbang'
    ∧ slot_counters i b' 0 unbang'.
Proof.
  revert b bang unbang.
  induction fuel as [| fuel IH]; intros b bang unbang Hbang Hunbang Hfuel Hslot;
    pose proof Hslot as (t & Ht & Hst & Hreq & Hb & Hu).
  - assert (Hzero : bang = 0).
    { apply int_zero_mod; [done |].
      pose proof (Z.mod_pos_bound bang (2 ^ 32) ltac:(lia)). lia. }
    simpl. unfold trigger_at. rewrite Ht. simpl. rewrite Hb, Hzero. simpl.
    rewrite Hzero in Hslot. eauto.
  - simpl. unfold trigger_at. rewrite Ht. simpl.
    destruct (Z.eqb_spec (_bang t) 0) as [Hz | Hnz].
    { assert (bang = 0) as -> by congruence. eauto. }
    assert (Hslot1 : slot_counters i
              (on_trigger i (with_base (with_bang (fetch_sub (_bang t) 1))) b)
              (fetch_sub bang 1) unbang).
    { eexists. split; [by apply on_trigger_lookup |]. simpl.
      rewrite Hb. done. }
    destruct (bang_step_counters _ _ _ _ Hunbang Hslot1)
      as (b1 & u1 & Hstep & Hu1 & Hslot2).
    rewrite Hstep. simpl.
    apply (IH b1 (fetch_sub bang 1) u1); try done.
    + apply wrap_int_range.
    + rewrite fetch_sub_mod by congruence.
      pose proof (Z.mod_pos_bound bang (2 ^ 32) ltac:(lia)). lia.
Qed.

Lemma unbang_step_counters i b (bang unbang : Z) :
  slot_counters i b bang unbang →
  ∃ b', unbang_step i b = Done b' ∧ slot_counters i b' bang unbang.
Proof.
  intros Hslot. pose proof Hslot as (t & Ht & Hst & Hreq & Hb & Hu).
  unfold unbang_step, trigger_at. rewrite Ht. simpl.
  destruct (_ || _); [| eauto].
  destruct (_state t); eexists; (split; [reflexivity |]);
    by apply slot_counters_set_state.
Qed.

Lemma unbang_loop_drains (fuel : nat) i b (bang unbang : Z) :
  int_range unbang →
  (Z.to_nat (unbang mod 2 ^ 32) ≤ fuel)%nat →
  slot_counters i b bang unbang →
  ∃ b', unbang_loop fuel i b = Done b' ∧ slot_counters i b' bang 0.
Proof.
  revert b unbang.
  induction fuel as [| fuel IH]; intros b unbang Hunbang Hfuel Hslot;
    pose proof Hslot as (t & Ht & Hst & Hreq & Hb & Hu).
  - assert (Hzero : unbang = 0).
    { apply int_zero_mod; [done |].
      pose proof (Z.mod_pos_bound unbang (2 ^ 32) ltac:(lia)). lia. }
    simpl. unfold trigger_at. rewrite Ht. simpl. rewrite Hu, Hzero. simpl.
    rewrite Hzero in Hslot. eauto.
  - simpl. unfold trigger_at. rewrite Ht. simpl.
    destruct (Z.eqb_spec (_unbang t) 0) as [Hz | Hnz].
    { assert (unbang = 0) as -> by congruence. eauto. }
    assert (Hslot1 : slot_counters i
              (on_trigger i (with_base (with_unbang (fetch_sub (_unbang t) 1))) b)
              bang (fetch_sub unbang 1)).
    { eexists. split; [by apply on_trigger_lookup |]. simpl.
      rewrite Hu. done. }
    destruct (unbang_step_counters _ _ _ _ Hslot1) as (b1 & Hstep & Hslot2).
    rewrite Hstep. simpl.
    apply (IH b1 (fetch_sub unbang 1)); try done.
    + apply wrap_int_range.
    + rewrite fetch_sub_mod by congruence.
      pose proof (Z.mod_pos_bound unbang (2 ^ 32) ltac:(lia)). lia.
Qed.

(** Both loops of [process_state_requests] are through within [2 ^ 32]
    rounds each, whatever the counters hold: a counter that a wrap of
    [unbang ()] has made negative is counted down through the wrap of
    [fetch_sub]. *)
Lemma process_state_requests_within (fuel : nat) i b (t : AudioTrigger) :
  all_triggers b !! i = Some t →
  _state t ≠ None_ →
  int_range (_bang t) → int_range (_unbang t) →
  (Z.to_nat (2 ^ 32) ≤ fuel)%nat →
  ∃ b', Trigger_process_state_requests fuel i b = Done b'
        ∧ slot_counters i b' 0 0.
Proof.
  intros Ht Hst Hbang Hunbang Hfuel.
  assert (Hmod : ∀ x, (Z.to_nat (x mod 2 ^ 32) ≤ fuel)%nat).
  { intros x. pose proof (Z.mod_pos_bound x (2 ^ 32) ltac:(lia)). lia. }
  unfold Trigger_process_state_requests, trigger_at. rewrite Ht. simpl.
  set (b0 := on_trigger i (with_base (with_requested_state None_)) b).
  assert (Hslot0 : slot_counters i b0 (_bang t) (_unbang t)).
  { eexists. split; [by apply on_trigger_lookup |]. done. }
  assert (Hrequested : ∃ b1 unbang1, int_range unbang1
            ∧ slot_counters i b1 (_bang t) unbang1
            ∧ (if bool_decide (_requested_state t ≠ None_)
                  && bool_decide (_requested_state t ≠ _state t)
               then match _requested_state t with
                    | Stopped =>
                      if bool_decide (_state t ≠ WaitingToStop)
                      then on_trigger i (with_base (with_state WaitingToStop)) b0
                      else b0
                    | Running => TriggerBox_queue_explict i b0
                    | _ => b0
                    end
               else b0) = b1).
  { destruct (_ && _); [| by eauto].
    destruct (_requested_state t); try by eauto.
    - case_bool_decide; [| by eauto].
      eexists _, _. split; [exact Hunbang |]. split; [| reflexivity].
      by apply slot_counters_set_state.
    - destruct (slot_counters_queue_explict i i b0 _ _ Hslot0)
        as (u' & Hu' & Hslot').
      eexists _, _. split; [| split; [exact Hslot' | reflexivity]].
      by case_bool_decide. }
  destruct Hrequested as (b1 & unbang1 & Hu1 & Hslot1 & ->).
  destruct (bang_loop_drains fuel i b1 _ _ Hbang Hu1 (Hmod _) Hslot1)
    as (b2 & unbang2 & Hloop & Hu2 & Hslot2).
  rewrite Hloop. simpl.
  by apply (unbang_loop_drains fuel i b2 0 unbang2).
Qed.

(** C3. One call of [process_state_requests] on a trigger of the box,
    with counters in the range of [int] (non-negative ones among them) and
    nothing else touching them, returns, and leaves the bang counter at
    zero, the unbang counter at zero and [_requested_state] at [None]. *)
Theorem process_state_requests_drains i b (t : AudioTrigger) :
  all_triggers b !! i = Some t →
  _state t ≠ None_ →
  int_range (_bang t) → int_range (_unbang t) →
  ∃ fuel0 : nat, ∀ fuel : nat, (fuel0 ≤ fuel)%nat →
    ∃ b' (t' : AudioTrigger),
      Trigger_process_state_requests fuel i b = Done b'
      ∧ all_triggers b' !! i = Some t'
      ∧ _bang t' = 0 ∧ _unbang t' = 0 ∧ _requested_state t' = None_.
Proof.
  intros Ht Hst Hbang Hunbang. exists (Z.to_nat (2 ^ 32)). intros fuel Hfuel.
  destruct (process_state_requests_within fuel i b t Ht Hst Hbang Hunbang Hfuel)
    as (b' & Hrun & t' & Ht' & _ & Hreq & Hb & Hu).
  eauto 8.
Qed.

(** *** [TriggerBox::prepare_next] *)

(** Follow-action selection reads the triggers, it does not change them. *)
Lemma determine_next_trigger_all_triggers (fuel : nat) (current : nat) b
    (n : Z) (b' : TriggerBox) :
  TriggerBox_determine_next_trigger fuel current b = Done (n, b') →
  all_triggers b' = all_triggers b.
Proof.
  intros Hdnt.
  destruct (all_triggers b !! current) as [cur |] eqn:Hcur.
  - rewrite (determine_next_trigger_unfold fuel current b cur Hcur) in Hdnt.
    simpl in Hdnt.
    destruct (selected_follow_action b cur);
      try (injection Hdnt as <- <-; reflexivity);
      destruct (runnable (all_triggers b) =? 1)%nat;
      try (injection Hdnt as <- <-; reflexivity).
    + destruct (first_to_follow _ _); injection Hdnt as <- <-; reflexivity.
    + destruct (first_to_follow _ _); injection Hdnt as <- <-; reflexivity.
    + destruct (first_trigger_loop _ _); injection Hdnt as <- <-; reflexivity.
    + destruct (last_trigger_loop _ _); injection Hdnt as <- <-; reflexivity.
    + by apply any_trigger_loop_Done in Hdnt as (-> & _).
    + by apply other_trigger_loop_Done in Hdnt as (-> & _).
  - unfold TriggerBox_determine_next_trigger, trigger_at in Hdnt.
    destruct (pcg_rand _ _). simpl in Hdnt. rewrite Hcur in Hdnt. discriminate.
Qed.

Lemma prepare_next_all_triggers (fuel : nat) (current : nat) b (b' : TriggerBox) :
  TriggerBox_prepare_next fuel current b = Done b' →
  all_triggers b' = all_triggers b.
Proof.
  unfold TriggerBox_prepare_next.
  destruct (TriggerBox_determine_next_trigger fuel current b)
    as [[n b1] | |] eqn:Hdnt; simpl; try discriminate.
  apply determine_next_trigger_all_triggers in Hdnt.
  destruct (0 <=? n).
  - destruct (trigger_at b1 (Z.to_nat n)); simpl; try discriminate.
    intros [= <-]. rewrite <- Hdnt.
    unfold TriggerBox_queue_implicit. by destruct (_ =? _)%nat.
  - by intros [= <-].
Qed.

(** [prepare_next] returns, whatever the fuel, unless the action drawn
    is one of the two that search at random. *)
Lemma prepare_next_returns (fuel : nat) (current : nat) b (cur : AudioTrigger) :
  all_triggers b !! current = Some cur →
  selected_follow_action b cur ≠ AnyTrigger →
  selected_follow_action b cur ≠ OtherTrigger →
  ∃ b', TriggerBox_prepare_next fuel current b = Done b'.
Proof.
  intros Hcur Hany Hother. unfold TriggerBox_prepare_next.
  rewrite (determine_next_trigger_unfold fuel current b cur Hcur). simpl.
  assert (Hslot : ∀ m (t : AudioTrigger), all_triggers b !! m = Some t →
            ∃ b', (let '(nxt, b0) := (Z.of_nat m, after_draw b) in
                   if 0 <=? nxt
                   then _ <- trigger_at b0 (Z.to_nat nxt);;
                        Done (TriggerBox_queue_implicit (Z.to_nat nxt) b0)
                   else Done b0) = Done b').
  { intros m t Ht. simpl. destruct (Z.leb_spec 0 (Z.of_nat m)); [| lia].
    rewrite Nat2Z.id. unfold trigger_at. simpl. rewrite Ht. simpl. eauto. }
  destruct (selected_follow_action b cur); try congruence; simpl; eauto;
    destruct (runnable (all_triggers b) =? 1)%nat; simpl; eauto.
  - destruct (first_to_follow _ _) as [m |] eqn:Hscan; simpl; eauto.
    apply first_to_follow_Some in Hscan as (_ & t & Ht & _). eauto.
  - destruct (first_to_follow _ _) as [m |] eqn:Hscan; simpl; eauto.
    apply first_to_follow_Some in Hscan as (_ & t & Ht & _). eauto.
  - destruct (first_trigger_loop _ _) as [m |] eqn:Hscan; simpl; eauto.
    apply first_trigger_loop_Some in Hscan as (_ & t & Ht & _).
    rewrite Nat.sub_0_r in Ht. eauto.
  - destruct (last_trigger_loop _ _) as [m |] eqn:Hscan; simpl; eauto.
    apply last_trigger_loop_Some in Hscan as (_ & t & Ht & _). eauto.
Qed.

(** *** [Trigger::maybe_compute_next_transition] *)

(** [AnyTrigger] when no slot has a region and is inactive: the search
    draws for ever, and [prepare_next] with it. *)
Lemma prepare_next_any_trigger_stuck (fuel : nat) (current : nat) b
    (cur : AudioTrigger) (b' : TriggerBox) :
  all_triggers b !! current = Some cur →
  selected_follow_action b cur = AnyTrigger →
  runnable (all_triggers b) ≠ 1%nat →
  (∀ m (t : AudioTrigger), all_triggers b !! m = Some t → can_follow t = false) →
  TriggerBox_prepare_next fuel current b ≠ Done b'.
Proof.
  intros Hcur Hany Hone Hnone. unfold TriggerBox_prepare_next.
  rewrite (determine_next_trigger_unfold fuel current b cur Hcur). simpl.
  apply Nat.eqb_neq in Hone. rewrite Hany, Hone.
  destruct (any_trigger_loop fuel (after_draw b)) as [[n b1] | |] eqn:Hloop;
    simpl; try discriminate.
  apply any_trigger_loop_Done in Hloop as (_ & _ & t & Ht & Hreg & Hact).
  simpl in Ht. specialize (Hnone _ _ Ht).
  unfold can_follow in Hnone. by rewrite Hreg, Hact in Hnone.
Qed.

(** What [maybe_compute_next_transition] comes to for a trigger that waits
    to start or to retrigger, with the grid point inside the block: the
    result of [prepare_next] on the box with the trigger started. *)
Lemma maybe_compute_next_transition_start (fuel : nat) i (start end_ : Z) b
    (t : AudioTrigger) :
  all_triggers b !! i = Some t →
  _state t = WaitingToStart ∨ _state t = WaitingForRetrigger →
  bars (_quantization t) = 0 →
  let ev := snap_to start
              (Beats (beats (_quantization t)) (ticks (_quantization t))) in
  start <= ev < end_ →
  Trigger_maybe_compute_next_transition fuel i start end_ b
  = (b1 <- TriggerBox_prepare_next fuel (_index t)
             (on_trigger i (with_base (with_state Running))
                (on_trigger i AudioTrigger_retrigger
                   (on_trigger i
                      (with_base (with_bang_time (samples_of_beats ev) ev)) b)));;
     Done (if bool_decide (_state t = WaitingToStart) then RunStart else RunAll,
           b1)).
Proof.
  intros Ht Hstate Hbars ev Hin.
  unfold Trigger_maybe_compute_next_transition, trigger_at, ev_time.
  rewrite Ht. simpl.
  destruct Hstate as [-> | ->]; rewrite Hbars; simpl; fold ev;
    (destruct (Z.leb_spec start ev); [| lia]);
    (destruct (Z.ltb_spec ev end_); [| lia]); simpl;
    by destruct (TriggerBox_prepare_next _ _ _).
Qed.


(** *** [AudioTrigger::run] *)

(** The loop of [run] leaves the state alone or sets it to [Stopped]. *)
Lemma run_loop_state (fuel : nat) i (nframes dest_offset : Z) b (b' : TriggerBox)
    (t : AudioTrigger) :
  run_loop fuel i nframes dest_offset b = Done b' →
  all_triggers b !! i = Some t →
  ∃ t' : AudioTrigger,
    all_triggers b' !! i = Some t'
    ∧ (_state t' = _state t ∨ _state t' = Stopped).
Proof.
  revert nframes dest_offset b t.
  induction fuel as [| fuel IH]; intros nframes dest_offset b t; simpl.
  - destruct (nframes =? 0); [| discriminate]. intros [= <-] Ht. eauto.
  - destruct (nframes =? 0); [intros [= <-] Ht; by eauto |].
    intros Hloop Ht. unfold trigger_at in Hloop. rewrite Ht in Hloop.
    simpl in Hloop.
    destruct (divides_by_zero t); simpl in Hloop; [discriminate |].
    set (this_read := wrap_u32 (Z.min nframes (last_sample t - read_index t))) in *.
    set (b1 := on_trigger i (with_read_index (read_index t + this_read)) b) in *.
    assert (Ht1 : all_triggers b1 !! i
                  = Some (with_read_index (read_index t + this_read) t))
      by by apply on_trigger_lookup.
    destruct (last_sample t <=? read_index t + this_read).
    + destruct (_ || _).
      * eapply IH in Hloop; [| by apply on_trigger_lookup]. exact Hloop.
      * injection Hloop as <-. eexists. split; [by apply on_trigger_lookup |].
        by right.
    + eapply IH in Hloop; [| exact Ht1]. exact Hloop.
Qed.

(** A trigger that holds a region with a channel and no data: the first
    round of the loop divides by zero. *)
Lemma run_loop_divides_by_zero (fuel : nat) i (nframes dest_offset : Z) b
    (t : AudioTrigger) :
  all_triggers b !! i = Some t →
  divides_by_zero t = true →
  nframes ≠ 0 →
  run_loop (S fuel) i nframes dest_offset b = Crash DivisionByZero.
Proof.
  intros Ht Hzero Hnz. simpl.
  destruct (Z.eqb_spec nframes 0) as [? | _]; [done |].
  unfold trigger_at. rewrite Ht. simpl. by rewrite Hzero.
Qed.

(** [AudioTrigger::run] on such a trigger, for a block that is not
    empty. *)
Lemma AudioTrigger_run_divides_by_zero (fuel : nat) i (nframes dest_offset : Z)
    (first : bool) b (t : AudioTrigger) :
  all_triggers b !! i = Some t →
  is_audio_region (_region t) = true → active t = true →
  divides_by_zero t = true →
  nframes ≠ 0 →
  AudioTrigger_run (S fuel) i nframes dest_offset first b = Crash DivisionByZero.
Proof.
  intros Ht Haudio Hactive Hzero Hnz.
  unfold AudioTrigger_run, trigger_at. rewrite Ht. cbn [bind].
  rewrite Haudio, Hactive. cbn [assert bind].
  by rewrite (run_loop_divides_by_zero fuel i nframes dest_offset b t Ht Hzero Hnz).
Qed.

(** When the block ends short of [last_sample], the loop is through in one
    round and the state is what it was. *)
Lemma run_loop_short_of_end (fuel : nat) i (nframes dest_offset : Z) b
    (t : AudioTrigger) :
  all_triggers b !! i = Some t →
  divides_by_zero t = false →
  u32_range nframes →
  read_index t + nframes < last_sample t →
  ∃ (b' : TriggerBox) (t' : AudioTrigger),
    run_loop (S fuel) i nframes dest_offset b = Done b'
    ∧ all_triggers b' !! i = Some t' ∧ _state t' = _state t.
Proof.
  intros Ht Hdata [Hlo Hhi] Hshort. simpl.
  destruct (Z.eqb_spec nframes 0) as [Hz | Hnz]; [by eauto |].
  unfold trigger_at. rewrite Ht. simpl. rewrite Hdata. simpl.
  assert (wrap_u32 (Z.min nframes (last_sample t - read_index t)) = nframes) as ->.
  { rewrite Z.min_l by lia. unfold wrap_u32. apply Z.mod_small. lia. }
  destruct (Z.leb_spec (last_sample t) (read_index t + nframes)); [lia |].
  rewrite Z.sub_diag. replace (wrap_u32 0) with 0 by reflexivity.
  assert (∀ b0, run_loop fuel i 0 dest_offset b0 = Done b0) as ->
    by (intros b0; by destruct fuel).
  eexists _, _. split; [reflexivity |]. split; [by apply on_trigger_lookup | done].
Qed.

(** A trigger that is not set to repeat, and is not next in the queues,
    is through the loop in one round. *)
Lemma run_loop_no_repeat (fuel : nat) i (nframes dest_offset : Z) b
    (t : AudioTrigger) :
  all_triggers b !! i = Some t →
  divides_by_zero t = false →
  u32_range nframes →
  _launch_style t ≠ Repeat →
  TriggerBox_peek_next_trigger b ≠ Some i →
  ∃ b' : TriggerBox, run_loop (S fuel) i nframes dest_offset b = Done b'.
Proof.
  intros Ht Hdata [Hlo Hhi] Hstyle Hpeek. simpl.
  destruct (Z.eqb_spec nframes 0) as [Hz | Hnz]; [by eauto |].
  unfold trigger_at. rewrite Ht. simpl. rewrite Hdata. simpl.
  set (this_read := wrap_u32 (Z.min nframes (last_sample t - read_index t))).
  destruct (Z.leb_spec (last_sample t) (read_index t + this_read)) as [Hend | Hmore].
  - rewrite bool_decide_eq_false_2 by done.
    rewrite bool_decide_eq_false_2 by done. simpl. eauto.
  - assert (this_read = nframes) as ->.
    { subst this_read. unfold wrap_u32 in *.
      destruct (Z.le_gt_cases nframes (last_sample t - read_index t)) as [Hle | Hgt].
      - rewrite Z.min_l by lia. apply Z.mod_small. lia.
      - rewrite Z.min_r in Hmore |- * by lia.
        pose proof (Z.mod_pos_bound (last_sample t - read_index t) (2 ^ 32)
                      ltac:(lia)).
        destruct (Z.le_gt_cases 0 (last_sample t - read_index t)).
        + rewrite Z.mod_small in Hmore by lia. lia.
        + lia. }
    rewrite Z.sub_diag. replace (wrap_u32 0) with 0 by reflexivity.
    assert (∀ b0, run_loop fuel i 0 dest_offset b0 = Done b0) as ->
      by (intros b0; by destruct fuel).
    eauto.
Qed.

(** With data to read, a clip extent that is not empty, a legato offset
    inside it and the cursor not past its end, the loop returns, repeating
    or not: a round that does not use up frames leaves the cursor short of
    [last_sample] within two rounds. *)
Lemma run_loop_returns (fuel : nat) i (nframes dest_offset : Z) b
    (t : AudioTrigger) :
  all_triggers b !! i = Some t →
  divides_by_zero t = false →
  u32_range nframes →
  _start_offset t < last_sample t →
  _start_offset t + _legato_offset t <= last_sample t →
  read_index t <= last_sample t →
  (Z.to_nat (3 * nframes + rounds_without_progress t) ≤ fuel)%nat →
  ∃ b' : TriggerBox, run_loop fuel i nframes dest_offset b = Done b'.
Proof.
  revert nframes dest_offset b t.
  induction fuel as [| fuel IH];
    intros nframes dest_offset b t Ht Hdata [Hlo Hhi] Hextent Hlegato Hcursor Hfuel.
  - assert (nframes = 0) as ->.
    { unfold rounds_without_progress in Hfuel.
      destruct (_ <? _); [| destruct (_ <? _)]; lia. }
    simpl. eauto.
  - simpl. destruct (Z.eqb_spec nframes 0) as [Hz | Hnz]; [by eauto |].
    unfold trigger_at. rewrite Ht. simpl. rewrite Hdata. simpl.
    assert (Hread : wrap_u32 (Z.min nframes (last_sample t - read_index t))
                    = Z.min nframes (last_sample t - read_index t)).
    { unfold wrap_u32. apply Z.mod_small. lia. }
    rewrite Hread.
    destruct (Z.leb_spec (last_sample t)
                (read_index t + Z.min nframes (last_sample t - read_index t)))
      as [Hend | Hmore].
    + destruct (_ || _); [| by eauto].
      assert (Hmin : Z.min nframes (last_sample t - read_index t)
                     = last_sample t - read_index t) by lia.
      rewrite Hmin.
      assert (Hwrap : wrap_u32 (nframes - (last_sample t - read_index t))
                      = nframes - (last_sample t - read_index t)).
      { unfold wrap_u32. apply Z.mod_small. lia. }
      rewrite Hwrap.
      eapply IH.
      * do 2 apply on_trigger_lookup. exact Ht.
      * exact Hdata.
      * split; lia.
      * simpl. exact Hextent.
      * simpl. lia.
      * simpl. exact Hlegato.
      * unfold rounds_without_progress in *. simpl.
        destruct (Z.ltb_spec (read_index t) (last_sample t));
          destruct (Z.ltb_spec (_start_offset t + _legato_offset t) (last_sample t));
          destruct (Z.ltb_spec (_start_offset t + 0) (last_sample t)); lia.
    + assert (Hmin : Z.min nframes (last_sample t - read_index t) = nframes) by lia.
      rewrite Hmin, Z.sub_diag. replace (wrap_u32 0) with 0 by reflexivity.
      assert (∀ b0, run_loop fuel i 0 dest_offset b0 = Done b0) as ->
        by (intros b0; by destruct fuel).
      eauto.
Qed.


(** *** More on member calls on a slot *)

Lemma on_trigger_same i (f : AudioTrigger → AudioTrigger) b t :
  all_triggers b !! i = Some t → f t = t → on_trigger i f b = b.
Proof.
  intros Ht Hf. destruct b. unfold on_trigger, with_all_triggers. simpl in *.
  f_equal. apply list_eq. intros j.
  destruct (decide (i = j)) as [<- | Hne].
  - rewrite list_lookup_alter_eq, Ht. simpl. by rewrite Hf.
  - by rewrite list_lookup_alter_ne.
Qed.

Lemma on_trigger_ext i (f g : AudioTrigger → AudioTrigger) b t :
  all_triggers b !! i = Some t → f t = g t → on_trigger i f b = on_trigger i g b.
Proof.
  intros Ht Hfg. unfold on_trigger. f_equal. apply list_eq. intros j.
  destruct (decide (i = j)) as [<- | Hne].
  - rewrite !list_lookup_alter_eq, Ht. simpl. by rewrite Hfg.
  - by rewrite !list_lookup_alter_ne.
Qed.

Lemma on_trigger_twice i (f g : AudioTrigger → AudioTrigger) b :
  on_trigger i f (on_trigger i g b) = on_trigger i (f ∘ g) b.
Proof.
  unfold on_trigger. simpl. unfold with_all_triggers. simpl.
  by rewrite list_alter_alter_eq.
Qed.

(** [fetch_sub (1)] on a positive counter. *)
Lemma fetch_sub_positive (x : Z) : 1 <= x <= INT_MAX → fetch_sub x 1 = x - 1.
Proof.
  unfold fetch_sub, wrap_int, INT_MAX. intros Hx.
  rewrite Z.mod_small by lia. lia.
Qed.

(** *** What [process_state_requests] makes of requests, bangs and unbangs *)

Lemma bang_loop_none (fuel : nat) i b t :
  all_triggers b !! i = Some t → _bang t = 0 → bang_loop fuel i b = Done b.
Proof.
  intros Ht Hb. destruct fuel; simpl; unfold trigger_at; rewrite Ht; simpl;
    by rewrite Hb.
Qed.

Lemma unbang_loop_none (fuel : nat) i b t :
  all_triggers b !! i = Some t → _unbang t = 0 → unbang_loop fuel i b = Done b.
Proof.
  intros Ht Hu. destruct fuel; simpl; unfold trigger_at; rewrite Ht; simpl;
    by rewrite Hu.
Qed.

(** Pending unbangs, one by one: the state goes through [unbang_next]
    once per unbang, and two steps of it reach its fixed point. *)
Lemma unbang_loop_counts (fuel : nat) i b t :
  all_triggers b !! i = Some t →
  1 <= _unbang t <= INT_MAX →
  (Z.to_nat (_unbang t) ≤ fuel)%nat →
  unbang_loop fuel i b
  = Done (on_trigger i
            (with_base (λ x, with_unbang 0
               (with_state (after_unbangs (_launch_style t) (_state t) (_unbang t)) x)))
            b).
Proof.
  revert b t. induction fuel as [| fuel IH]; intros b t Ht Hu Hfuel; [lia |].
  simpl. unfold trigger_at. rewrite Ht. simpl.
  destruct (Z.eqb_spec (_unbang t) 0) as [Hz | _]; [lia |].
  rewrite fetch_sub_positive by done.
  set (b1 := on_trigger i (with_base (with_unbang (_unbang t - 1))) b).
  assert (Ht1 : all_triggers b1 !! i
                = Some (with_base (with_unbang (_unbang t - 1)) t))
    by by apply on_trigger_lookup.
  assert (Hstep : unbang_step i b1
            = Done (on_trigger i
                      (with_base (with_state (unbang_next (_launch_style t) (_state t))))
                      b1)).
  { unfold unbang_step, trigger_at. rewrite Ht1. simpl.
    destruct (_launch_style t) eqn:Hstyle, (_state t) eqn:Hstate; simpl;
      try reflexivity;
      symmetry; f_equal; (eapply on_trigger_same; [exact Ht1 |]);
      destruct t as [[]]; simpl in *; by subst. }
  rewrite Hstep. simpl.
  set (b2 := on_trigger i _ b1).
  assert (Ht2 : all_triggers b2 !! i
                = Some (with_base (with_state (unbang_next (_launch_style t) (_state t)))
                          (with_base (with_unbang (_unbang t - 1)) t)))
    by by apply on_trigger_lookup.
  destruct (Z.eq_dec (_unbang t) 1) as [Hone | Hmore].
  - rewrite (unbang_loop_none fuel i b2 _ Ht2) by (simpl; lia).
    f_equal. subst b2 b1. rewrite on_trigger_twice.
    eapply on_trigger_ext; [exact Ht |]. simpl.
    unfold after_unbangs. rewrite Hone. reflexivity.
  - rewrite (IH b2 _ Ht2) by (simpl; lia).
    f_equal. subst b2 b1. rewrite !on_trigger_twice.
    eapply on_trigger_ext; [exact Ht |]. simpl.
    unfold after_unbangs.
    destruct (Z.eqb_spec (_unbang t) 1) as [? | _]; [lia |].
    destruct (Z.eqb_spec (_unbang t - 1) 1);
      destruct (_launch_style t), (_state t); reflexivity.
Qed.

(** X1. A trigger with nothing requested and no pending bang, and
    [unbang] pending unbangs. [OneShot] and [Toggle] drop them. [Gate]
    and [Repeat] take a running trigger to [WaitingToStop] on a single
    unbang; a second unbang in the same call, or an unbang in any other
    state, sets the state to [Stopped] at once. Nothing else in the box
    changes. *)
Theorem process_state_requests_unbangs (fuel : nat) i b t :
  all_triggers b !! i = Some t →
  _requested_state t = None_ → _bang t = 0 →
  1 <= _unbang t <= INT_MAX →
  (Z.to_nat (_unbang t) ≤ fuel)%nat →
  ∃ s' : State,
    Trigger_process_state_requests fuel i b
    = Done (on_trigger i (with_base (λ x, with_unbang 0 (with_state s' x))) b)
    ∧ (_launch_style t = OneShot ∨ _launch_style t = Toggle → s' = _state t)
    ∧ (_launch_style t = Gate ∨ _launch_style t = Repeat →
       (_state t = Running → _unbang t = 1 → s' = WaitingToStop)
       ∧ (_state t ≠ Running ∨ 1 < _unbang t → s' = Stopped)).
Proof.
  intros Ht Hreq Hbang Hunbang Hfuel.
  exists (after_unbangs (_launch_style t) (_state t) (_unbang t)). split_and!.
  - unfold Trigger_process_state_requests, trigger_at. rewrite Ht. simpl.
    rewrite Hreq. simpl.
    rewrite (on_trigger_same i _ b t Ht) by (destruct t as [[]]; simpl in *; by subst).
    rewrite (bang_loop_none fuel i b t Ht Hbang). simpl.
    by apply unbang_loop_counts.
  - unfold after_unbangs. intros [-> | ->]; by destruct (_ =? _).
  - intros Hstyle. unfold after_unbangs. split.
    + intros -> ->. by destruct Hstyle as [-> | ->].
    + intros Hcase. destruct (Z.eqb_spec (_unbang t) 1) as [Hone | Hmore].
      * destruct Hcase as [Hst | ?]; [| lia].
        destruct Hstyle as [-> | ->]; by destruct (_state t).
      * destruct Hstyle as [-> | ->]; by destruct (_state t).
Qed.

Lemma bang_loop_ignored (fuel : nat) i b t :
  all_triggers b !! i = Some t →
  bang_ignored (_state t) = true →
  0 <= _bang t <= INT_MAX →
  (Z.to_nat (_bang t) ≤ fuel)%nat →
  bang_loop fuel i b = Done (on_trigger i (with_base (with_bang 0)) b).
Proof.
  revert b t. induction fuel as [| fuel IH]; intros b t Ht Hst Hb Hfuel.
  - assert (_bang t = 0) as Hz by lia.
    rewrite (bang_loop_none 0 i b t Ht Hz). f_equal. symmetry.
    eapply on_trigger_same; [exact Ht |]. destruct t as [[]]; simpl in *; by subst.
  - simpl. unfold trigger_at. rewrite Ht. simpl.
    destruct (Z.eqb_spec (_bang t) 0) as [Hz | Hnz].
    { f_equal. symmetry. eapply on_trigger_same; [exact Ht |].
      destruct t as [[]]; simpl in *; by subst. }
    rewrite fetch_sub_positive by lia.
    set (b1 := on_trigger i (with_base (with_bang (_bang t - 1))) b).
    assert (Ht1 : all_triggers b1 !! i
                  = Some (with_base (with_bang (_bang t - 1)) t))
      by by apply on_trigger_lookup.
    assert (Hstep : bang_step i b1 = Done b1).
    { unfold bang_step, trigger_at. rewrite Ht1. simpl.
      by destruct (_state t). }
    rewrite Hstep. simpl.
    rewrite (IH b1 _ Ht1) by (simpl; done || lia).
    f_equal. subst b1. by rewrite on_trigger_twice.
Qed.

Lemma bang_loop_running (fuel : nat) i b t :
  all_triggers b !! i = Some t →
  _state t = Running →
  1 <= _bang t <= INT_MAX →
  (Z.to_nat (_bang t) ≤ fuel)%nat →
  bang_loop fuel i b
  = Done (match _launch_style t with
          | OneShot =>
            on_trigger i
              (with_base (λ x, with_bang 0 (with_state WaitingForRetrigger x))) b
          | Gate | Toggle | Repeat =>
            TriggerBox_clear_implicit
              (on_trigger i
                 (with_base (λ x, with_bang 0 (with_state WaitingToStop x))) b)
          end).
Proof.
  intros Ht Hstate Hbang Hfuel.
  destruct fuel as [| fuel]; [lia |].
  simpl. unfold trigger_at. rewrite Ht. simpl.
  destruct (Z.eqb_spec (_bang t) 0) as [Hz | _]; [lia |].
  rewrite fetch_sub_positive by done.
  set (b1 := on_trigger i (with_base (with_bang (_bang t - 1))) b).
  assert (Ht1 : all_triggers b1 !! i
                = Some (with_base (with_bang (_bang t - 1)) t))
    by by apply on_trigger_lookup.
  unfold bang_step, trigger_at. rewrite Ht1. simpl. rewrite Hstate.
  assert (Hstop : bang_loop fuel i
            (TriggerBox_clear_implicit
               (on_trigger i (with_base (with_state WaitingToStop)) b1))
          = Done (TriggerBox_clear_implicit
                    (on_trigger i
                       (with_base (λ x, with_bang 0 (with_state WaitingToStop x))) b))).
  { set (b2 := TriggerBox_clear_implicit _).
    assert (Ht2 : all_triggers b2 !! i
                  = Some (with_base (with_state WaitingToStop)
                            (with_base (with_bang (_bang t - 1)) t)))
      by (subst b2; apply (on_trigger_lookup i _ b1 _ Ht1)).
    rewrite (bang_loop_ignored fuel i b2 _ Ht2) by (simpl; done || lia).
    f_equal. subst b2 b1. unfold TriggerBox_clear_implicit.
    change (on_trigger i ?f (with_implicit_queue ?q ?x))
      with (with_implicit_queue q (on_trigger i f x)).
    rewrite !on_trigger_twice. reflexivity. }
  destruct (_launch_style t) eqn:Hstyle; simpl; try exact Hstop.
  set (b2 := on_trigger i _ b1).
  assert (Ht2 : all_triggers b2 !! i
                = Some (with_base (with_state WaitingForRetrigger)
                          (with_base (with_bang (_bang t - 1)) t)))
    by by apply on_trigger_lookup.
  rewrite (bang_loop_ignored fuel i b2 _ Ht2) by (simpl; done || lia).
  f_equal. subst b2 b1. rewrite !on_trigger_twice.
  by eapply on_trigger_ext.
Qed.

(** X2. Bangs on a running trigger with nothing else pending. A [OneShot]
    trigger goes to [WaitingForRetrigger]; any other style goes to
    [WaitingToStop] and the implicit queue is reset. Further bangs in the
    same call change nothing more. *)
Theorem process_state_requests_bangs_running (fuel : nat) i b t :
  all_triggers b !! i = Some t →
  _requested_state t = None_ → _unbang t = 0 →
  _state t = Running →
  1 <= _bang t <= INT_MAX →
  (Z.to_nat (_bang t) ≤ fuel)%nat →
  Trigger_process_state_requests fuel i b
  = Done (match _launch_style t with
          | OneShot =>
            on_trigger i
              (with_base (λ x, with_bang 0 (with_state WaitingForRetrigger x))) b
          | Gate | Toggle | Repeat =>
            TriggerBox_clear_implicit
              (on_trigger i
                 (with_base (λ x, with_bang 0 (with_state WaitingToStop x))) b)
          end).
Proof.
  intros Ht Hreq Hunbang Hstate Hbang Hfuel.
  unfold Trigger_process_state_requests, trigger_at. rewrite Ht. simpl.
  rewrite Hreq. simpl.
  rewrite (on_trigger_same i _ b t Ht) by (destruct t as [[]]; simpl in *; by subst).
  rewrite (bang_loop_running fuel i b t Ht Hstate Hbang Hfuel). simpl.
  destruct (_launch_style t); eapply unbang_loop_none;
    try (by apply on_trigger_lookup);
    try (by apply (on_trigger_lookup i _ b t Ht));
    done.
Qed.

(** Writing the same slot [k] times: as many as there is room for. *)
Lemma rb_write_iter_items (k : nat) (x : nat) (q : RingBuffer) :
  rb_items (Nat.iter k (rb_write x) q)
  = rb_items q
    ++ replicate (Nat.min k (rb_size q - List.length (rb_items q))) x
  ∧ rb_size (Nat.iter k (rb_write x) q) = rb_size q.
Proof.
  induction k as [| k [IHitems IHsize]].
  - simpl. by rewrite app_nil_r.
  - rewrite Nat.iter_succ. unfold rb_write at 1 3. unfold rb_read_space. rewrite IHsize, IHitems.
    rewrite length_app, length_replicate.
    destruct (Nat.ltb_spec
                (List.length (rb_items q)
                 + Nat.min k (rb_size q - List.length (rb_items q)))
                (rb_size q)) as [Hroom | Hfull]; cbn [rb_items rb_size].
    + split; [| done]. rewrite <- app_assoc. f_equal.
      replace (Nat.min k (rb_size q - List.length (rb_items q))) with k by lia.
      replace (Nat.min (S k) (rb_size q - List.length (rb_items q)))
        with (S k) by lia.
      by rewrite replicate_S_end.
    + split; [| done]. rewrite IHitems. f_equal. f_equal. lia.
Qed.

Lemma bang_loop_stopped (fuel : nat) i b t :
  all_triggers b !! i = Some t →
  _state t = Stopped →
  currently_playing b = None →
  1 <= _bang t <= INT_MAX →
  (Z.to_nat (_bang t) ≤ fuel)%nat →
  bang_loop fuel i b
  = Done (with_implicit_queue (rb_reset (implicit_queue b))
            (with_explicit_queue
               (Nat.iter (Z.to_nat (_bang t)) (rb_write i) (explicit_queue b))
               (on_trigger i (with_base (with_bang 0)) b))).
Proof.
  revert b t. induction fuel as [| fuel IH]; intros b t Ht Hstate Hcp Hbang Hfuel;
    [lia |].
  simpl. unfold trigger_at. rewrite Ht. simpl.
  destruct (Z.eqb_spec (_bang t) 0) as [Hz | _]; [lia |].
  rewrite fetch_sub_positive by done.
  set (b1 := on_trigger i (with_base (with_bang (_bang t - 1))) b).
  assert (Ht1 : all_triggers b1 !! i
                = Some (with_base (with_bang (_bang t - 1)) t))
    by by apply on_trigger_lookup.
  unfold bang_step, trigger_at. rewrite Ht1. simpl. rewrite Hstate. simpl.
  unfold TriggerBox_queue_explict. simpl. rewrite Hcp.
  set (b2 := with_implicit_queue _ _).
  assert (Ht2 : all_triggers b2 !! i
                = Some (with_base (with_bang (_bang t - 1)) t)) by exact Ht1.
  destruct (Z.eq_dec (_bang t) 1) as [Hone | Hmore].
  - rewrite (bang_loop_none fuel i b2 _ Ht2) by (simpl; lia).
    f_equal. subst b2 b1. rewrite Hone. reflexivity.
  - rewrite (IH b2 _ Ht2) by (simpl; done || lia).
    f_equal. subst b2 b1. simpl.
    replace (Z.to_nat (_bang t)) with (S (Z.to_nat (_bang t - 1))) by lia.
    rewrite Nat.iter_succ_r.
    unfold with_implicit_queue, with_explicit_queue, on_trigger,
      with_all_triggers, rb_reset. simpl.
    by rewrite list_alter_alter_eq.
Qed.

(** X3. Bangs on a stopped trigger while nothing plays and nothing else
    is pending: the trigger stays [Stopped] (it starts when the box takes
    it off the queue), every pending bang queues its slot on the explicit
    queue, as far as there is room, and the implicit queue is reset. *)
Theorem process_state_requests_bangs_stopped (fuel : nat) i b t :
  all_triggers b !! i = Some t →
  _requested_state t = None_ → _unbang t = 0 →
  _state t = Stopped →
  currently_playing b = None →
  1 <= _bang t <= INT_MAX →
  (Z.to_nat (_bang t) ≤ fuel)%nat →
  ∃ b' : TriggerBox,
    Trigger_process_state_requests fuel i b = Done b'
    ∧ all_triggers b' = all_triggers (on_trigger i (with_base (with_bang 0)) b)
    ∧ rb_items (explicit_queue b')
      = rb_items (explicit_queue b)
        ++ replicate (Nat.min (Z.to_nat (_bang t))
                        (rb_size (explicit_queue b)
                         - List.length (rb_items (explicit_queue b)))) i
    ∧ rb_items (implicit_queue b') = []
    ∧ currently_playing b' = None.
Proof.
  intros Ht Hreq Hunbang Hstate Hcp Hbang Hfuel.
  eexists. split.
  - unfold Trigger_process_state_requests, trigger_at. rewrite Ht. simpl.
    rewrite Hreq. simpl.
    rewrite (on_trigger_same i _ b t Ht)
      by (destruct t as [[]]; simpl in *; by subst).
    rewrite (bang_loop_stopped fuel i b t Ht Hstate Hcp Hbang Hfuel). simpl.
    eapply unbang_loop_none; [by apply (on_trigger_lookup i _ b t Ht) | done].
  - simpl. split_and!; try done.
    apply rb_write_iter_items.
Qed.

(** X4. [stop ()] followed by [process_state_requests], with no bang or
    unbang pending: a stopped trigger stays [Stopped], any other goes to
    (or stays in) [WaitingToStop], a trigger that was still waiting to
    start among them. The request is used up and nothing else in the box
    changes. *)
Theorem stop_then_process_state_requests (fuel : nat) i (next : Z) b t :
  all_triggers b !! i = Some t →
  _bang t = 0 → _unbang t = 0 →
  Trigger_process_state_requests fuel i (on_trigger i (Trigger_stop next) b)
  = Done (on_trigger i
            (with_base (λ x, with_requested_state None_
                               (with_state (after_stop (_state t)) x))) b).
Proof.
  intros Ht Hbang Hunbang.
  pose proof (on_trigger_lookup i (Trigger_stop next) b t Ht) as Hts.
  unfold Trigger_process_state_requests, trigger_at. rewrite Hts. simpl.
  assert (Hdone : ∀ b1 (t1 : AudioTrigger),
            all_triggers b1 !! i = Some t1 → _bang t1 = 0 → _unbang t1 = 0 →
            (b2 <- bang_loop fuel i b1;; unbang_loop fuel i b2) = Done b1).
  { intros b1 t1 Ht1 Hb1 Hu1. rewrite (bang_loop_none fuel i b1 t1 Ht1 Hb1).
    simpl. by apply (unbang_loop_none fuel i b1 t1). }
  destruct (_state t) eqn:Hstate; simpl; rewrite ?on_trigger_twice.
  all: rewrite (Hdone _ _ (on_trigger_lookup i _ b t Ht)) by done.
  all: f_equal; (eapply on_trigger_ext; [exact Ht |]).
  all: destruct t as [[]]; simpl in *; by subst.
Qed.

(** A call on an idle trigger is a no-op. *)
Lemma process_state_requests_idle (fuel : nat) i b t :
  all_triggers b !! i = Some t → idle t →
  Trigger_process_state_requests fuel i b = Done b.
Proof.
  intros Ht (Hreq & Hbang & Hunbang).
  unfold Trigger_process_state_requests, trigger_at. rewrite Ht. simpl.
  rewrite Hreq. simpl.
  rewrite (on_trigger_same i _ b t Ht)
    by (destruct t as [[]]; simpl in *; by subst).
  rewrite (bang_loop_none fuel i b t Ht Hbang). simpl.
  by apply (unbang_loop_none fuel i b t).
Qed.

Lemma state_requests_loop_idle (fuel : nat) (slots : list nat) b :
  Forall idle (all_triggers b) →
  Forall (λ n, (n < List.length (all_triggers b))%nat) slots →
  state_requests_loop fuel slots b = Done b.
Proof.
  intros Hidle. induction slots as [| n slots IH]; intros Hslots; simpl; [done |].
  apply Forall_cons in Hslots as [Hn Hslots].
  destruct (lookup_lt_is_Some_2 _ _ Hn) as [t Ht].
  rewrite (process_state_requests_idle fuel n b t Ht).
  - simpl. by apply IH.
  - eapply Forall_lookup_1; [exact Hidle | exact Ht].
Qed.

Lemma process_midi_without_notes (bufs : list (list MidiEvent)) b :
  Forall (Forall (λ ev, is_note ev = false)) bufs →
  TriggerBox_process_midi_trigger_requests bufs b = Done b.
Proof.
  induction bufs as [| mb bufs IH]; intros Hbufs; simpl; [done |].
  apply Forall_cons in Hbufs as [Hmb Hbufs].
  assert (Hbuf : midi_buffer_requests mb b = Done b).
  { induction mb as [| ev mb IHmb]; simpl; [done |].
    apply Forall_cons in Hmb as [Hev Hmb].
    unfold midi_trigger_request. rewrite Hev. simpl. by apply IHmb. }
  rewrite Hbuf. simpl. by apply IH.
Qed.

(** X5. A block on a box at rest: no note in the MIDI input, no request,
    bang or unbang pending on any trigger, nothing playing and both queues
    empty. [run] hands the box back as it was. It returns before it looks
    at [_stop_all], so a stop-all requested at rest stays pending. *)
Theorem run_at_rest (fuel : nat) (bufs : list (list MidiEvent))
    (start_sample end_sample nframes : Z) b :
  Forall (Forall (λ ev, is_note ev = false)) bufs →
  Forall idle (all_triggers b) →
  currently_playing b = None →
  rb_items (explicit_queue b) = [] →
  rb_items (implicit_queue b) = [] →
  TriggerBox_run fuel bufs start_sample end_sample nframes b = Done b.
Proof.
  intros Hbufs Hidle Hcp Hexplicit Himplicit. unfold TriggerBox_run.
  destruct (start_sample <? 0); [done |].
  rewrite (process_midi_without_notes bufs b Hbufs). simpl.
  rewrite (state_requests_loop_idle fuel _ b Hidle).
  - simpl. rewrite Hcp.
    unfold TriggerBox_get_next_trigger, rb_read.
    rewrite Hexplicit, Himplicit. simpl. by rewrite Hcp.
  - apply Forall_forall. intros n Hn. apply elem_of_seq in Hn. lia.
Qed.

(** *** The two launch queues *)

(** X6. [get_next_trigger] hands out what [peek_next_trigger] shows: the
    head of the explicit queue when that queue is not empty, the head of
    the implicit queue otherwise, and null when both are empty. It removes
    that one entry and leaves the rest of the box alone. *)
Theorem get_next_trigger_peek b :
  fst (TriggerBox_get_next_trigger b) = TriggerBox_peek_next_trigger b
  ∧ snd (TriggerBox_get_next_trigger b)
    = match rb_items (explicit_queue b), rb_items (implicit_queue b) with
      | _ :: rest, _ =>
        with_explicit_queue (mkRingBuffer (rb_size (explicit_queue b)) rest) b
      | [], _ :: rest =>
        with_implicit_queue (mkRingBuffer (rb_size (implicit_queue b)) rest) b
      | [], [] => b
      end.
Proof.
  unfold TriggerBox_get_next_trigger, TriggerBox_peek_next_trigger, rb_read, rb_peek.
  destruct (rb_items (explicit_queue b)) as [| x rest]; simpl; [| done].
  by destruct (rb_items (implicit_queue b)).
Qed.

(** X7. A trigger queued by [queue_explict] comes out of
    [get_next_trigger] after the triggers queued explicitly before it and
    ahead of anything the follow actions had queued: when the explicit
    queue has room, the next trigger is the head of the old explicit queue
    followed by [t], and whatever was on the implicit queue is gone. *)
Theorem queue_explict_then_get_next (t : nat) b :
  (rb_read_space (explicit_queue b) < rb_size (explicit_queue b))%nat →
  let b' := TriggerBox_queue_explict t b in
  fst (TriggerBox_get_next_trigger b')
  = head (rb_items (explicit_queue b) ++ [t])
  ∧ rb_items (explicit_queue (snd (TriggerBox_get_next_trigger b')))
    = tail (rb_items (explicit_queue b) ++ [t])
  ∧ rb_items (implicit_queue (snd (TriggerBox_get_next_trigger b'))) = [].
Proof.
  intros Hroom b'.
  assert (Hq : rb_items (explicit_queue b') = rb_items (explicit_queue b) ++ [t]
               ∧ rb_items (implicit_queue b') = []).
  { subst b'. unfold TriggerBox_queue_explict, rb_write. simpl.
    apply Nat.ltb_lt in Hroom. rewrite Hroom.
    by destruct (currently_playing b). }
  destruct Hq as [Hexplicit Himplicit].
  unfold TriggerBox_get_next_trigger, rb_read. rewrite Hexplicit.
  destruct (rb_items (explicit_queue b)) as [| x rest]; simpl; by rewrite ?Himplicit.
Qed.

Lemma any_trigger_loop_frame (fuel : nat) b (n : Z) b' :
  any_trigger_loop fuel b = Done (n, b') → ∃ g, b' = with_pcg g b.
Proof.
  revert b. induction fuel as [| fuel IH]; intros b; simpl; [discriminate |].
  destruct (pcg_rand _ _) as [r g].
  destruct (trigger_at_int (with_pcg g b) r) as [t | |]; simpl; try discriminate.
  destruct (has_region t); simpl; [destruct (active t) |].
  - intros Hloop. apply IH in Hloop as [g' ->]. by exists g'.
  - intros [= <- <-]. by exists g.
  - intros Hloop. apply IH in Hloop as [g' ->]. by exists g'.
Qed.

Lemma other_trigger_loop_frame (fuel : nat) b (current : nat) (n : Z) b' :
  other_trigger_loop fuel b current = Done (n, b') → ∃ g, b' = with_pcg g b.
Proof.
  revert b. induction fuel as [| fuel IH]; intros b; simpl; [discriminate |].
  destruct (pcg_rand _ _) as [r g].
  destruct (r =? Z.of_nat current).
  { intros Hloop. apply IH in Hloop as [g' ->]. by exists g'. }
  destruct (trigger_at_int (with_pcg g b) r) as [t | |]; simpl; try discriminate.
  destruct (has_region t); simpl; [destruct (active t) |].
  - intros Hloop. apply IH in Hloop as [g' ->]. by exists g'.
  - intros [= <- <-]. by exists g.
  - intros Hloop. apply IH in Hloop as [g' ->]. by exists g'.
Qed.

(** Follow-action selection changes the generator and nothing else, and
    a slot it returns is a slot of the box. *)
Lemma determine_next_trigger_frame (fuel : nat) (current : nat) b
    (n : Z) (b' : TriggerBox) :
  TriggerBox_determine_next_trigger fuel current b = Done (n, b') →
  (∃ g, b' = with_pcg g b)
  ∧ (0 <= n → (Z.to_nat n < List.length (all_triggers b))%nat).
Proof.
  intros Hdnt.
  destruct (all_triggers b !! current) as [cur |] eqn:Hcur.
  - pose proof (lookup_lt_Some _ _ _ Hcur) as Hlt.
    assert (Hslot : ∀ m (t : AudioTrigger), all_triggers b !! m = Some t →
              0 <= Z.of_nat m →
              (Z.to_nat (Z.of_nat m) < List.length (all_triggers b))%nat).
    { intros m t Ht _. rewrite Nat2Z.id. by apply lookup_lt_Some in Ht. }
    rewrite (determine_next_trigger_unfold fuel current b cur Hcur) in Hdnt.
    simpl in Hdnt. unfold after_draw in Hdnt.
    destruct (selected_follow_action b cur);
      try (injection Hdnt as <- <-; split; [by eexists | lia]);
      destruct (runnable (all_triggers b) =? 1)%nat;
      try (injection Hdnt as <- <-; split; [by eexists | by eapply Hslot]).
    + destruct (first_to_follow _ _) as [m |] eqn:Hscan; injection Hdnt as <- <-;
        (split; [by eexists |]); [| by eapply Hslot].
      apply first_to_follow_Some in Hscan as (_ & t & Ht & _). by eapply Hslot.
    + destruct (first_to_follow _ _) as [m |] eqn:Hscan; injection Hdnt as <- <-;
        (split; [by eexists |]); [| by eapply Hslot].
      apply first_to_follow_Some in Hscan as (_ & t & Ht & _). by eapply Hslot.
    + destruct (first_trigger_loop _ _) as [m |] eqn:Hscan; injection Hdnt as <- <-;
        (split; [by eexists |]); [| by eapply Hslot].
      apply first_trigger_loop_Some in Hscan as (_ & t & Ht & _).
      rewrite Nat.sub_0_r in Ht. by eapply Hslot.
    + destruct (last_trigger_loop _ _) as [m |] eqn:Hscan; injection Hdnt as <- <-;
        (split; [by eexists |]); [| by eapply Hslot].
      apply last_trigger_loop_Some in Hscan as (_ & t & Ht & _). by eapply Hslot.
    + pose proof Hdnt as Hframe. apply any_trigger_loop_frame in Hframe as [g ->].
      apply any_trigger_loop_Done in Hdnt as (_ & _ & t & Ht & _).
      split; [by eexists |]. intros _. by apply lookup_lt_Some in Ht.
    + pose proof Hdnt as Hframe. apply other_trigger_loop_frame in Hframe as [g ->].
      apply other_trigger_loop_Done in Hdnt as (_ & _ & _ & t & Ht & _).
      split; [by eexists |]. intros _. by apply lookup_lt_Some in Ht.
  - unfold TriggerBox_determine_next_trigger, trigger_at in Hdnt.
    destruct (pcg_rand _ _). simpl in Hdnt. rewrite Hcur in Hdnt. discriminate.
Qed.

(** X8. Whenever [prepare_next] returns, the triggers, the explicit queue
    and [currently_playing] are what they were. The implicit queue is
    either untouched or has one slot of the box appended, and it is
    untouched whenever something is waiting on the explicit queue. *)
Theorem prepare_next_effects (fuel : nat) (current : nat) b (b' : TriggerBox) :
  TriggerBox_prepare_next fuel current b = Done b' →
  all_triggers b' = all_triggers b
  ∧ explicit_queue b' = explicit_queue b
  ∧ currently_playing b' = currently_playing b
  ∧ (rb_items (explicit_queue b) ≠ [] → implicit_queue b' = implicit_queue b)
  ∧ (implicit_queue b' = implicit_queue b
     ∨ ∃ n, (n < List.length (all_triggers b))%nat
            ∧ rb_items (implicit_queue b') = rb_items (implicit_queue b) ++ [n]).
Proof.
  unfold TriggerBox_prepare_next.
  destruct (TriggerBox_determine_next_trigger fuel current b)
    as [[n b1] | |] eqn:Hdnt; simpl; try discriminate.
  apply determine_next_trigger_frame in Hdnt as [[g ->] Hslot].
  destruct (Z.leb_spec 0 n) as [Hn | Hn].
  - destruct (trigger_at (with_pcg g b) (Z.to_nat n)); simpl; try discriminate.
    intros [= <-].
    unfold TriggerBox_queue_implicit, rb_read_space. simpl.
    destruct (rb_items (explicit_queue b)) as [| x rest] eqn:Hq; simpl.
    + split_and!; try done. unfold rb_write, rb_read_space.
      destruct (_ <? _)%nat; simpl; [| by left].
      right. exists (Z.to_nat n). split; [by apply Hslot | done].
    + split_and!; try done. by left.
  - intros [= <-]. simpl. split_and!; try done. by left.
Qed.

(** *** MIDI input touches counters only *)

Lemma fmap_alter_same {A B : Type} (g : A → B) (f : A → A) (l : list A) (k : nat) :
  (∀ x, g (f x) = g x) → g <$> alter f k l = g <$> l.
Proof.
  intros Hgf. revert k. induction l as [| x l IH]; intros [| k]; simpl; try done.
  - by rewrite Hgf.
  - f_equal. apply IH.
Qed.

Lemma midi_trigger_request_frame (ev : MidiEvent) b (b' : TriggerBox) :
  midi_trigger_request ev b = Done b' →
  b' = with_all_triggers (all_triggers b') b
  ∧ counters_cleared <$> all_triggers b' = counters_cleared <$> all_triggers b.
Proof.
  unfold midi_trigger_request.
  destruct (is_note ev); simpl; [| intros [= <-]; by destruct b].
  destruct (midi_trigger_map b !! note ev) as [slot |]; simpl.
  - destruct (slot <? List.length (all_triggers b))%nat; simpl; [| discriminate].
    destruct (is_note_on ev); [| destruct (is_note_off ev)]; intros [= <-];
      try (split; [done | by apply fmap_alter_same]).
    by destruct b.
  - destruct (is_note_on ev); [discriminate |].
    destruct (is_note_off ev); [discriminate |]. intros [= <-]. by destruct b.
Qed.

(** Whatever the MIDI input, when [process_midi_trigger_requests]
    returns it has changed nothing but bang and unbang counters: the
    triggers are the same up to these two fields (their number, states,
    requests and cursors included), and queues, [currently_playing] and
    the note map are what they were. *)
Lemma process_midi_trigger_requests_frame (bufs : list (list MidiEvent)) b
    (b' : TriggerBox) :
  TriggerBox_process_midi_trigger_requests bufs b = Done b' →
  b' = with_all_triggers (all_triggers b') b
  ∧ counters_cleared <$> all_triggers b' = counters_cleared <$> all_triggers b.
Proof.
  assert (Hbuf : ∀ (mb : list MidiEvent) b0 (b1 : TriggerBox),
            midi_buffer_requests mb b0 = Done b1 →
            b1 = with_all_triggers (all_triggers b1) b0
            ∧ counters_cleared <$> all_triggers b1
              = counters_cleared <$> all_triggers b0).
  { induction mb as [| ev mb IH]; intros b0 b1; simpl.
    - intros [= <-]. by destruct b0.
    - destruct (midi_trigger_request ev b0) as [b2 | |] eqn:Hev; simpl;
        try discriminate.
      apply midi_trigger_request_frame in Hev as [Hframe2 Htriggers2].
      intros Hrest. apply IH in Hrest as [Hframe1 Htriggers1].
      split; [| congruence].
      rewrite Hframe1, Hframe2. reflexivity. }
  revert b. induction bufs as [| mb bufs IH]; intros b; simpl.
  - intros [= <-]. by destruct b.
  - destruct (midi_buffer_requests mb b) as [b2 | |] eqn:Hmb; simpl;
      try discriminate.
    apply Hbuf in Hmb as [Hframe2 Htriggers2].
    intros Hrest. apply IH in Hrest as [Hframe1 Htriggers1].
    split; [| congruence].
    rewrite Hframe1, Hframe2. reflexivity.
Qed.

(** *** The other scanning follow actions *)

Lemma first_trigger_loop_least ts n m j (t : AudioTrigger) :
  first_trigger_loop ts n = Some m →
  ts !! j = Some t → (j < m - n)%nat → can_follow t = false.
Proof.
  revert n j. induction ts as [| t' ts IH]; intros n j; simpl; [discriminate |].
  destruct (can_follow t') eqn:Hf.
  - intros [= <-]. lia.
  - intros Hrest. destruct j as [| j]; simpl.
    + by intros [= <-].
    + intros Ht Hj. pose proof (first_trigger_loop_Some _ _ _ Hrest) as [Hle _].
      eapply (IH (S n) j); [exact Hrest | exact Ht | lia].
Qed.

Lemma last_trigger_loop_greatest ts i j m (t : AudioTrigger) :
  last_trigger_loop ts i = Some j →
  ts !! m = Some t → (j < m < i)%nat → can_follow t = false.
Proof.
  induction i as [| i IH]; simpl; [discriminate |].
  intros Hloop Ht Hm.
  destruct (decide (m = i)) as [-> | Hne].
  - rewrite Ht in Hloop. destruct (can_follow t); [| done].
    injection Hloop as <-. lia.
  - destruct (ts !! i) as [t' |].
    + destruct (can_follow t'); [injection Hloop as <-; lia |].
      apply IH; [done | done | lia].
    + apply IH; [done | done | lia].
Qed.

(** X9. The scanning follow actions other than [NextTrigger], when more or
    fewer than one trigger has a region. [PrevTrigger] takes the first
    slot among [current - 1], [current - 2], ... (cyclically, every other
    slot once) that has a region and is not active. [FirstTrigger] takes
    the lowest such slot of the box and [LastTrigger] the highest, the
    current slot included if it qualifies. Each falls back to [current]
    when it finds none. *)
Theorem determine_next_trigger_scans (fuel : nat) (current : nat) b
    (cur : AudioTrigger) :
  all_triggers b !! current = Some cur →
  runnable (all_triggers b) ≠ 1%nat →
  let ts := all_triggers b in
  let action := selected_follow_action b cur in
  let result := TriggerBox_determine_next_trigger fuel current b in
  let nothing_follows := ∀ m (t : AudioTrigger), ts !! m = Some t → can_follow t = false in
  (action = PrevTrigger →
   result = Done (match first_to_follow ts (cyclic_predecessors (List.length ts) current) with
                  | Some n => Z.of_nat n
                  | None => Z.of_nat current
                  end, after_draw b)
   ∧ ∀ m, m ∈ cyclic_predecessors (List.length ts) current
          ↔ (m < List.length ts)%nat ∧ m ≠ current) ∧
  (action = FirstTrigger →
   ∃ n, result = Done (Z.of_nat n, after_draw b)
        ∧ ((can_follow_at ts n ∧ ∀ m, (m < n)%nat → ¬ can_follow_at ts m)
           ∨ (n = current ∧ nothing_follows))) ∧
  (action = LastTrigger →
   ∃ n, result = Done (Z.of_nat n, after_draw b)
        ∧ ((can_follow_at ts n ∧ ∀ m, (n < m)%nat → ¬ can_follow_at ts m)
           ∨ (n = current ∧ nothing_follows))).
Proof.
  intros Hcur Hone ts action result nothing_follows.
  pose proof (determine_next_trigger_unfold fuel current b cur Hcur) as Hdnt.
  simpl in Hdnt. fold ts action result in Hdnt.
  apply Nat.eqb_neq in Hone. fold ts in Hone.
  pose proof (lookup_lt_Some _ _ _ Hcur) as Hlt.
  split_and!.
  - intros Ha. rewrite Hdnt, Ha, Hone. cbn iota. split.
    + destruct (first_to_follow ts (cyclic_predecessors (List.length ts) current)); reflexivity.
    + intros m. by apply cyclic_predecessors_spec.
  - intros Ha. rewrite Hdnt, Ha, Hone. cbn iota.
    destruct (first_trigger_loop ts 0) as [n |] eqn:Hscan.
    + exists n. split; [done |]. left.
      pose proof (first_trigger_loop_Some _ _ _ Hscan) as (_ & t & Ht & Hf).
      rewrite Nat.sub_0_r in Ht. split; [by exists t |].
      intros m Hm (t' & Ht' & Hf').
      rewrite (first_trigger_loop_least ts 0 n m t' Hscan Ht') in Hf'; [done | lia].
    + exists current. split; [done |]. right. split; [done |].
      intros m t Ht. by eapply first_trigger_loop_None.
  - intros Ha. rewrite Hdnt, Ha, Hone. cbn iota.
    destruct (last_trigger_loop ts (List.length ts)) as [n |] eqn:Hscan.
    + exists n. split; [done |]. left.
      pose proof (last_trigger_loop_Some _ _ _ Hscan) as (_ & t & Ht & Hf).
      split; [by exists t |].
      intros m Hm (t' & Ht' & Hf').
      rewrite (last_trigger_loop_greatest ts _ n m t' Hscan Ht') in Hf'; [done |].
      split; [done | by apply lookup_lt_Some in Ht'].
    + exists current. split; [done |]. right. split; [done |].
      intros m t Ht. eapply last_trigger_loop_None; [exact Hscan | | exact Ht].
      by apply lookup_lt_Some in Ht.
Qed.

(** X10. The two random follow actions have no way out when no slot
    qualifies. With more or fewer than one trigger holding a region,
    [AnyTrigger] does not return when no slot has a region and is
    inactive, and [OtherTrigger] does not return when no slot other than
    [current] does: whatever the fuel, the call is not done. *)
Theorem determine_next_trigger_random_search (fuel : nat) (current : nat) b
    (cur : AudioTrigger) :
  all_triggers b !! current = Some cur →
  runnable (all_triggers b) ≠ 1%nat →
  let action := selected_follow_action b cur in
  let result := TriggerBox_determine_next_trigger fuel current b in
  (action = AnyTrigger →
   (∀ m (t : AudioTrigger), all_triggers b !! m = Some t → can_follow t = false) →
   ∀ (z : Z) b', result ≠ Done (z, b')) ∧
  (action = OtherTrigger →
   (∀ m (t : AudioTrigger),
      m ≠ current → all_triggers b !! m = Some t → can_follow t = false) →
   ∀ (z : Z) b', result ≠ Done (z, b')).
Proof.
  intros Hcur Hone action result.
  pose proof (determine_next_trigger_unfold fuel current b cur Hcur) as Hdnt.
  simpl in Hdnt. fold action result in Hdnt.
  apply Nat.eqb_neq in Hone.
  split.
  - intros Ha Hnone z b' Hdone. rewrite Hdnt, Ha, Hone in Hdone.
    apply any_trigger_loop_Done in Hdone as (_ & _ & t & Ht & Hreg & Hact).
    simpl in Ht. specialize (Hnone _ _ Ht).
    unfold can_follow in Hnone. by rewrite Hreg, Hact in Hnone.
  - intros Ha Hnone z b' Hdone. rewrite Hdnt, Ha, Hone in Hdone.
    apply other_trigger_loop_Done in Hdone as (_ & Hn & Hne & t & Ht & Hreg & Hact).
    simpl in Ht.
    assert (Z.to_nat z ≠ current) as Hslot by lia.
    specialize (Hnone _ _ Hslot Ht).
    unfold can_follow in Hnone. by rewrite Hreg, Hact in Hnone.
Qed.


(** *** Where [AudioTrigger::run] leaves the read cursor *)

(** What [run] does after its loop: a trigger that was stopping is
    stopped when the block was long enough to fade. *)
Lemma AudioTrigger_run_unfold (fuel : nat) i (nframes dest_offset : Z)
    (first : bool) b t (b1 : TriggerBox) (t1 : AudioTrigger) :
  all_triggers b !! i = Some t →
  is_audio_region (_region t) = true → active t = true →
  run_loop fuel i nframes dest_offset b = Done b1 →
  all_triggers b1 !! i = Some t1 →
  AudioTrigger_run fuel i nframes dest_offset first b
  = Done (if bool_decide (_state t1 = Stopping) && (64 <=? nframes)
          then on_trigger i (with_base (with_state Stopped)) b1
          else b1).
Proof.
  intros Ht Haudio Hactive Hloop Ht1.
  unfold AudioTrigger_run, trigger_at. rewrite Ht. simpl.
  rewrite Haudio, Hactive. simpl. rewrite Hloop. simpl. rewrite Ht1. simpl.
  by destruct (_ && _).
Qed.

Lemma run_loop_no_frames (fuel : nat) i (dest_offset : Z) b :
  run_loop fuel i 0 dest_offset b = Done b.
Proof. by destruct fuel. Qed.

(** One round of the loop of [run] when the block ends short of
    [last_sample]. *)
Lemma run_loop_short (fuel : nat) i (nframes dest_offset : Z) b t :
  all_triggers b !! i = Some t →
  divides_by_zero t = false →
  u32_range nframes → 0 < nframes →
  read_index t + nframes < last_sample t →
  run_loop (S fuel) i nframes dest_offset b
  = Done (on_trigger i (with_read_index (read_index t + nframes)) b).
Proof.
  intros Ht Hdata [Hlo Hhi] Hpos Hshort.
  simpl. destruct (Z.eqb_spec nframes 0); [lia |].
  unfold trigger_at. rewrite Ht. simpl. rewrite Hdata. simpl.
  rewrite Z.min_l by lia. unfold wrap_u32. rewrite Z.mod_small by lia.
  destruct (Z.leb_spec (last_sample t) (read_index t + nframes)); [lia |].
  rewrite Z.sub_diag, Zmod_0_l. apply run_loop_no_frames.
Qed.

(** One round when the clip ends inside the block and is not played
    again. *)
Lemma run_loop_end (fuel : nat) i (nframes dest_offset : Z) b t :
  all_triggers b !! i = Some t →
  divides_by_zero t = false →
  u32_range nframes → 0 < nframes →
  read_index t <= last_sample t →
  last_sample t <= read_index t + nframes →
  _launch_style t ≠ Repeat → TriggerBox_peek_next_trigger b ≠ Some i →
  run_loop (S fuel) i nframes dest_offset b
  = Done (on_trigger i
            (λ a, with_base (with_state Stopped)
                    (with_read_index (last_sample t) a)) b).
Proof.
  intros Ht Hdata [Hlo Hhi] Hpos Hcursor Hend Hstyle Hpeek.
  simpl. destruct (Z.eqb_spec nframes 0); [lia |].
  unfold trigger_at. rewrite Ht. simpl. rewrite Hdata. simpl.
  rewrite Z.min_r by lia. unfold wrap_u32. rewrite Z.mod_small by lia.
  replace (read_index t + (last_sample t - read_index t))
    with (last_sample t) by lia.
  rewrite Z.leb_refl.
  rewrite bool_decide_eq_false_2 by done.
  rewrite bool_decide_eq_false_2 by done. simpl.
  by rewrite on_trigger_twice.
Qed.


(** The loop of [run] on a trigger with no legato offset that repeats or
    is itself next in the queues: the cursor goes round the clip
    extent. *)
Lemma run_loop_repeat (fuel : nat) i (nframes dest_offset : Z) b t :
  all_triggers b !! i = Some t →
  divides_by_zero t = false →
  _launch_style t = Repeat ∨ TriggerBox_peek_next_trigger b = Some i →
  _legato_offset t = 0 →
  _start_offset t < last_sample t →
  _start_offset t <= read_index t <= last_sample t →
  u32_range nframes → 0 < nframes →
  (Z.to_nat (3 * nframes + rounds_without_progress t) ≤ fuel)%nat →
  run_loop fuel i nframes dest_offset b
  = Done (on_trigger i
            (with_read_index
               (_start_offset t
                + (read_index t - _start_offset t + nframes)
                  mod (last_sample t - _start_offset t))) b).
Proof.
  revert nframes dest_offset b t.
  induction fuel as [| fuel IH];
    intros nframes dest_offset b t Ht Hdata Hstyle Hlegato Hextent Hcursor
      [Hlo Hhi] Hpos Hfuel.
  { unfold rounds_without_progress in Hfuel.
    destruct (_ <? _); [| destruct (_ <? _)]; lia. }
  simpl. destruct (Z.eqb_spec nframes 0) as [? | _]; [lia |].
  unfold trigger_at. rewrite Ht. simpl. rewrite Hdata. simpl.
  set (ul := last_sample t - _start_offset t).
  assert (Hread : wrap_u32 (Z.min nframes (last_sample t - read_index t))
                  = Z.min nframes (last_sample t - read_index t)).
  { unfold wrap_u32. apply Z.mod_small. lia. }
  rewrite Hread.
  destruct (Z.leb_spec (last_sample t)
              (read_index t + Z.min nframes (last_sample t - read_index t)))
    as [Hend | Hmore].
  - assert (Hagain : bool_decide (_launch_style t = Repeat)
                     || bool_decide
                          (TriggerBox_peek_next_trigger
                             (on_trigger i
                                (with_read_index
                                   (read_index t
                                    + Z.min nframes (last_sample t - read_index t)))
                                b) = Some i) = true).
    { destruct Hstyle as [Hrepeat | Hnext].
      - by rewrite bool_decide_eq_true_2.
      - rewrite (bool_decide_eq_true_2 (_ = Some i)) by exact Hnext.
        apply orb_true_r. }
    rewrite Hagain.
    assert (Hmin : Z.min nframes (last_sample t - read_index t)
                   = last_sample t - read_index t) by lia.
    rewrite Hmin.
    assert (Hwrap : wrap_u32 (nframes - (last_sample t - read_index t))
                    = nframes - (last_sample t - read_index t)).
    { unfold wrap_u32. apply Z.mod_small. lia. }
    rewrite Hwrap. rewrite on_trigger_twice.
    set (b1 := on_trigger i _ b).
    assert (Hb1 : b1 = on_trigger i (with_read_index (_start_offset t)) b).
    { subst b1. eapply on_trigger_ext; [exact Ht |].
      unfold AudioTrigger_retrigger. simpl. rewrite Hlegato, Z.add_0_r.
      destruct t; simpl in *; by subst. }
    assert (Ht1 : all_triggers b1 !! i
                  = Some (with_read_index (_start_offset t) t))
      by (rewrite Hb1; by apply on_trigger_lookup).
    assert (Hmod : (read_index t - _start_offset t + nframes) mod ul
                   = (nframes - (last_sample t - read_index t)) mod ul).
    { replace (read_index t - _start_offset t + nframes)
        with (nframes - (last_sample t - read_index t) + 1 * ul)
        by (subst ul; lia).
      apply Z_mod_plus_full. }
    destruct (Z.eq_dec (nframes - (last_sample t - read_index t)) 0) as [Hz | Hnz].
    + rewrite Hz, run_loop_no_frames. f_equal. rewrite Hb1.
      rewrite Hmod, Hz, Zmod_0_l, Z.add_0_r. reflexivity.
    + rewrite (IH _ _ b1 _ Ht1); simpl; try done.
      all: try (rewrite Hb1; exact Hstyle).
      all: try exact Hdata.
      * rewrite Hb1, on_trigger_twice. f_equal.
        eapply on_trigger_ext; [exact Ht |]. simpl.
        rewrite Hmod. fold ul.
        replace (_start_offset t - _start_offset t
                 + (nframes - (last_sample t - read_index t)))
          with (nframes - (last_sample t - read_index t)) by lia.
        reflexivity.
      * lia.
      * unfold u32_range. lia.
      * lia.
      * unfold rounds_without_progress in *. simpl.
        destruct (Z.ltb_spec (_start_offset t) (last_sample t)); [| lia].
        destruct (Z.ltb_spec (read_index t) (last_sample t));
          destruct (Z.ltb_spec (_start_offset t + _legato_offset t) (last_sample t));
          lia.
  - assert (Hmin : Z.min nframes (last_sample t - read_index t) = nframes) by lia.
    rewrite Hmin, Z.sub_diag. change (wrap_u32 0) with 0.
    rewrite run_loop_no_frames.
    f_equal. f_equal. f_equal.
    rewrite Z.mod_small by (subst ul; lia). lia.
Qed.


(** *** The clip extent *)

Lemma load_data_extent (r : Region) a :
  extent_consistent a → extent_consistent (snd (AudioTrigger_load_data r a)).
Proof.
  unfold extent_consistent, AudioTrigger_load_data. intros Hext.
  destruct (_ || _); destruct (readable r); simpl; lia.
Qed.

Lemma set_length_extent (newlen : timepos_t) a a' :
  extent_consistent a →
  AudioTrigger_set_length newlen a = Done a' → extent_consistent a'.
Proof.
  intros Hext. unfold AudioTrigger_set_length.
  destruct (_region a) as [r |]; [| by intros [= <-]].
  destruct (audio r); simpl; [| discriminate].
  pose proof (load_data_extent r a Hext) as Hloaded.
  destruct (bool_decide _); [by intros [= <-] |].
  destruct (_ || _); intros [= <-]; unfold extent_consistent in *; simpl; lia.
Qed.

Lemma set_usable_length_extent a :
  extent_consistent a → extent_consistent (AudioTrigger_set_usable_length a).
Proof.
  unfold extent_consistent, AudioTrigger_set_usable_length. intros Hext.
  destruct (_region a); [| done].
  destruct (_launch_style a); simpl; try lia.
  destruct (bool_decide _); simpl; lia.
Qed.

Lemma set_region_extent (r : Region) a (rc : Z) a' :
  extent_consistent a →
  AudioTrigger_set_region r a = Done (rc, a') → extent_consistent a'.
Proof.
  intros Hext. unfold AudioTrigger_set_region.
  destruct (audio r); simpl; [| by intros [= <- <-]].
  destruct (AudioTrigger_set_length _ _) as [a1 | |] eqn:Hlen; simpl;
    try discriminate.
  intros [= <- <-]. eapply set_length_extent; [| exact Hlen].
  exact Hext.
Qed.

(** X13. The extent stays in step, [last_sample = _start_offset +
    usable_length], through everything that sets a length: [load_data],
    [set_length], [set_end], [set_usable_length], [set_launch_style],
    [set_quantization], [set_region] and [set_state]. [set_start] moves
    [_start_offset] alone, so it keeps the extent in step only when it
    does not move the start. *)
Theorem extent_consistent_kept a :
  extent_consistent a →
  (∀ r, extent_consistent (snd (AudioTrigger_load_data r a))) ∧
  (∀ newlen a', AudioTrigger_set_length newlen a = Done a' → extent_consistent a') ∧
  (∀ e a', AudioTrigger_set_end e a = Done a' → extent_consistent a') ∧
  extent_consistent (AudioTrigger_set_usable_length a) ∧
  (∀ l, extent_consistent (Trigger_set_launch_style l a)) ∧
  (∀ q, extent_consistent (Trigger_set_quantization q a)) ∧
  (∀ r rc a', AudioTrigger_set_region r a = Done (rc, a') → extent_consistent a') ∧
  (∀ node version rc a',
     AudioTrigger_set_state node version a = Done (rc, a') → extent_consistent a') ∧
  (∀ s, extent_consistent (AudioTrigger_set_start s a)
        ↔ timepos_samples s = _start_offset a).
Proof.
  intros Hext. split_and!.
  - intros r. by apply load_data_extent.
  - intros newlen a'. by apply set_length_extent.
  - intros e a'. unfold AudioTrigger_set_end. by apply set_length_extent.
  - by apply set_usable_length_extent.
  - intros l. unfold Trigger_set_launch_style. by apply set_usable_length_extent.
  - intros q. unfold Trigger_set_quantization. by apply set_usable_length_extent.
  - intros r rc a'. by apply set_region_extent.
  - intros node version rc a'. unfold AudioTrigger_set_state, Trigger_set_state.
    set (a0 := with_base _ a).
    assert (Ha0 : extent_consistent a0) by exact Hext.
    clearbody a0.
    destruct (match get_id node "region" with
              | Some rid => region_by_id rid | None => None end) as [r |]; simpl.
    + destruct (AudioTrigger_set_region r a0) as [[rc1 a1] | |] eqn:Hreg; simpl;
        try discriminate.
      intros [= <- <-]. by eapply set_region_extent.
    + by intros [= <- <-].
  - intros s. unfold extent_consistent in *. unfold AudioTrigger_set_start.
    simpl. lia.
Qed.

(** *** Loading a region *)

(** [set_region] with an audio region. *)
Lemma set_region_audio (r : Region) a :
  audio r = true →
  ∃ a', AudioTrigger_set_region r a = Done (0, a')
    ∧ trigger a'
      = with_name (if readable r then name r else _name a)
          (with_region (Some r) (trigger a))
    ∧ read_index a' = read_index a
    ∧ _start_offset a' = _start_offset a
    ∧ _legato_offset a' = _legato_offset a
    ∧ (length r = AudioTime (length_samples r) →
       data_length a' = length_samples r
       ∧ usable_length a'
         = (if (usable_length a =? 0) || (length_samples r <? usable_length a)
            then length_samples r else usable_length a)).
Proof.
  intros Haudio. unfold AudioTrigger_set_region. rewrite Haudio. simpl.
  unfold AudioTrigger_set_length. simpl. rewrite Haudio. simpl.
  unfold AudioTrigger_load_data. simpl.
  destruct a as [[] ? ? ? ? ? ? ?]. simpl.
  destruct (bool_decide (length r = AudioTime (length_samples r))) eqn:Hlen.
  - eexists. split; [reflexivity |].
    destruct (_ || _); destruct (readable r); simpl; split_and!; done.
  - apply bool_decide_eq_false in Hlen.
    destruct ((_ =? 0) || (length_samples r <? _));
      destruct (readable r); simpl;
      destruct (_ || _); simpl; eexists; (split; [reflexivity |]);
      simpl; split_and!; done.
Qed.


(** *** Saving and restoring the fields of [Trigger] *)

Lemma Trigger_get_state_holds (src : AudioTrigger) :
  holds_trigger_state (Trigger_get_state src) src.
Proof.
  destruct src as [[? ? ? ? ? ? [f0 f1] ? r ? ? ? ? ?] ? ? ? ? ? ? ?].
  destruct r; vm_compute; split_and!; reflexivity.
Qed.

Lemma AudioTrigger_get_state_holds (src : AudioTrigger) :
  holds_trigger_state (AudioTrigger_get_state src) src.
Proof.
  destruct src as [[? ? ? ? ? ? [f0 f1] ? r ? ? ? ? ?] ? ? ? ? ? ? ?].
  destruct r; vm_compute; split_and!; reflexivity.
Qed.

Lemma Trigger_set_state_restores (node : XMLNode) (src dst : AudioTrigger)
    (version : Z) :
  holds_trigger_state node src →
  ∃ a', Trigger_set_state node version dst = Done (0, a')
        ∧ restored_from src dst a'
        ∧ _state a' = _state dst.
Proof.
  intros (Hl & Hs & Hf0 & Hf1 & Hq & Hn & Hi & Hr).
  unfold Trigger_set_state. rewrite Hr.
  simpl in *. rewrite Hl, Hs, Hf0, Hf1, Hq, Hn, Hi.
  set (a0 := with_base _ dst).
  assert (Hbase : trigger a0
                  = with_index (_index src)
                      (with_name (_name src)
                         (with_quantization (_quantization src)
                            (with_follow_action (_follow_action src)
                               (with_launch_style (_launch_style src)
                                  (with_legato (_legato src) (trigger dst)))))))
    by (subst a0; destruct (_follow_action src); destruct dst as [[]]; reflexivity).
  assert (Hrest : _start_offset a0 = _start_offset dst
                  ∧ usable_length a0 = usable_length dst
                  ∧ last_sample a0 = last_sample dst)
    by (subst a0; by destruct dst as [[]]).
  clearbody a0.
  assert (Hkept : ∃ a', Done (0, a0) = Done (0, a')
            ∧ (_legato a' = _legato src
               ∧ _launch_style a' = _launch_style src
               ∧ _follow_action a' = _follow_action src
               ∧ _quantization a' = _quantization src
               ∧ _index a' = _index src
               ∧ _region a' = _region dst
               ∧ _name a' = _name src
               ∧ _start_offset a' = _start_offset dst
               ∧ usable_length a' = usable_length dst
               ∧ last_sample a' = last_sample dst)
            ∧ _state a' = _state dst).
  { exists a0. rewrite Hbase. destruct Hrest as (? & ? & ?).
    by destruct dst as [[]]. }
  unfold restored_from, restored_region.
  destruct (_region src) as [r |]; simpl; [| exact Hkept].
  destruct (region_by_id (id r)) as [r' |]; simpl; [| exact Hkept].
  destruct (audio r') eqn:Haudio.
  - destruct (set_region_audio r' a0 Haudio) as (a' & -> & Hbase' & _).
    simpl. exists a'. split; [reflexivity |].
    rewrite Hbase', Hbase. simpl. split_and!; reflexivity.
  - unfold AudioTrigger_set_region. rewrite Haudio. simpl. exact Hkept.
Qed.


(** *** Saving and restoring a box *)

Lemma restore_triggers_saved (version : Z) (saved made : list AudioTrigger) :
  ∃ ts : list AudioTrigger,
    restore_triggers AUDIO (AudioTrigger_get_state <$> saved) version made
    = Done (made ++ ts)
    ∧ List.length ts = List.length saved
    ∧ ∀ k src, saved !! k = Some src →
        ∃ a', ts !! k = Some a'
              ∧ restored_from src (AudioTrigger_new (List.length made + k)) a'
              ∧ _state a' = Stopped.
Proof.
  revert made. induction saved as [| src saved IH]; intros made.
  - exists []. simpl. rewrite app_nil_r. split_and!; try done.
  - simpl.
    destruct (Trigger_set_state_restores _ src (AudioTrigger_new (List.length made))
                version (AudioTrigger_get_state_holds src))
      as (a' & Hset & Hrestored & Hstate).
    rewrite (AudioTrigger_set_state_early_return _ _ _ _ Hset). simpl.
    destruct (IH (made ++ [a'])) as (ts & Hrest & Hlen & Hts).
    exists (a' :: ts). split_and!.
    + etrans; [exact Hrest |]. by rewrite <- app_assoc.
    + simpl. by rewrite Hlen.
    + intros [| k] src' Hk; simpl in *.
      * injection Hk as <-. exists a'. rewrite Nat.add_0_r. done.
      * destruct (Hts k src' Hk) as (a'' & Hk' & Hfrom & Hst).
        exists a''. split_and!; done.
Qed.


(** *** Bar-level quantization *)

(** X17. A quantization given in bars is not handled: the grid point stays
    at beat zero, so for every block that starts after beat zero
    [maybe_compute_next_transition] changes nothing. A trigger that waits
    to start is not run, and one that waits to stop or to retrigger plays
    on. *)
Theorem maybe_compute_next_transition_bars (fuel : nat) i (start end_ : Z) b t :
  all_triggers b !! i = Some t →
  bars (_quantization t) ≠ 0 →
  0 < start →
  Trigger_maybe_compute_next_transition fuel i start end_ b
  = Done (match _state t with
          | None_ | Stopped | WaitingToStart => RunNone
          | Running | WaitingForRetrigger | WaitingToStop | Stopping => RunAll
          end, b).
Proof.
  intros Ht Hbars Hstart.
  unfold Trigger_maybe_compute_next_transition, trigger_at, ev_time.
  rewrite Ht. simpl.
  destruct (Z.eqb_spec (bars (_quantization t)) 0); [done |].
  destruct (Z.leb_spec start 0); [lia |]. simpl.
  by destruct (_state t).
Qed.

(** *** The legato switch *)

Lemma prepare_next_frame (fuel : nat) (current : nat) b (b' : TriggerBox) :
  TriggerBox_prepare_next fuel current b = Done b' →
  explicit_queue b' = explicit_queue b
  ∧ currently_playing b' = currently_playing b.
Proof.
  unfold TriggerBox_prepare_next.
  destruct (TriggerBox_determine_next_trigger fuel current b)
    as [[n b1] | |] eqn:Hdnt; simpl; try discriminate.
  apply determine_next_trigger_frame in Hdnt as [[g ->] _].
  destruct (0 <=? n).
  - destruct (trigger_at (with_pcg g b) (Z.to_nat n)); simpl; try discriminate.
    intros [= <-]. unfold TriggerBox_queue_implicit.
    by destruct (_ =? _)%nat.
  - by intros [= <-].
Qed.

(** X18. The legato switch at the head of [TriggerBox::run]. With nothing on
    the explicit queue it does nothing. Otherwise the head of the queue is
    taken off, and that is all when it is the playing trigger or has no
    legato: the queued trigger is neither started nor queued again. A
    different trigger with legato takes over at once: it is [Running] with
    its cursor at its own start offset plus the cursor of the trigger that
    was playing, and that one is [Stopped] and rewound. The switch
    returns whenever neither follow action of the new trigger searches at
    random. *)
Theorem legato_switch_cases (fuel : nat) cp b :
  (rb_items (explicit_queue b) = [] → legato_switch fuel cp b = Done b) ∧
  (∀ (nxt : nat) (rest : list nat) (tn : AudioTrigger),
     rb_items (explicit_queue b) = nxt :: rest →
     all_triggers b !! nxt = Some tn →
     let popped :=
       with_explicit_queue (mkRingBuffer (rb_size (explicit_queue b)) rest) b in
     (nxt = cp ∨ _legato tn = false → legato_switch fuel cp b = Done popped) ∧
     (nxt ≠ cp → _legato tn = true →
      ∀ tc : AudioTrigger,
        all_triggers b !! cp = Some tc →
        (∀ b' : TriggerBox,
           legato_switch fuel cp b = Done b' →
           currently_playing b' = Some nxt
           ∧ explicit_queue b' = explicit_queue popped
           ∧ all_triggers b' !! nxt
             = Some (with_legato_offset 0
                       (with_read_index (_start_offset tn + read_index tc)
                          (with_base (with_state Running) tn)))
           ∧ all_triggers b' !! cp
             = Some (with_legato_offset 0
                       (with_read_index (_start_offset tc + _legato_offset tc)
                          (with_base (with_state Stopped) tc)))) ∧
        (_index tn = nxt →
         searches_at_random (fst (_follow_action tn)) = false →
         searches_at_random (snd (_follow_action tn)) = false →
         ∃ b' : TriggerBox, legato_switch fuel cp b = Done b'))).
Proof.
  split.
  - intros Hq. unfold legato_switch, rb_peek. by rewrite Hq.
  - intros nxt rest tn Hq Hn popped.
    assert (Hnext : TriggerBox_get_next_trigger b = (Some nxt, popped)).
    { unfold TriggerBox_get_next_trigger, rb_read. by rewrite Hq. }
    split.
    + intros Hdrop. unfold legato_switch, rb_peek. rewrite Hq, Hnext. simpl.
      case_bool_decide as Hsame; [done |].
      destruct Hdrop as [? | Hlegato]; [done |].
      unfold trigger_at. simpl. rewrite Hn. simpl. by rewrite Hlegato.
    + intros Hne Hlegato tc Hc.
      unfold legato_switch, rb_peek. rewrite Hq, Hnext. simpl.
      rewrite bool_decide_eq_false_2 by done.
      unfold trigger_at. simpl. rewrite Hn. simpl. rewrite Hlegato, Hc. simpl.
      set (b1 := on_trigger cp _ _).
      assert (Hnew : all_triggers b1 !! nxt
                = Some (with_legato_offset 0
                          (with_read_index (_start_offset tn + read_index tc)
                             (with_base (with_state Running) tn)))).
      { subst b1. rewrite on_trigger_lookup_ne by done.
        rewrite on_trigger_twice.
        erewrite on_trigger_lookup; [| exact Hn]. reflexivity. }
      split.
      * intros b'.
        destruct (TriggerBox_prepare_next fuel (_index tn) b1) as [b2 | |] eqn:Hprep;
          simpl; try discriminate.
        intros [= <-]. simpl.
        pose proof (prepare_next_all_triggers _ _ _ _ Hprep) as Hts.
        apply prepare_next_frame in Hprep as [Hexp _].
        rewrite Hts, Hexp. split_and!; try done.
        subst b1. erewrite on_trigger_lookup; [reflexivity |].
        rewrite on_trigger_lookup_ne by done.
        rewrite on_trigger_lookup_ne by done. exact Hc.
      * intros Hindex Hfst Hsnd. rewrite Hindex.
        destruct (prepare_next_returns fuel nxt b1 _ Hnew) as [b2 Hprep].
        -- unfold selected_follow_action, follow_action. simpl.
           destruct (_ =? 0); intros Hany; rewrite Hany in *; discriminate.
        -- unfold selected_follow_action, follow_action. simpl.
           destruct (_ =? 0); intros Hany; rewrite Hany in *; discriminate.
        -- rewrite Hprep. simpl. by eexists.
Qed.

(** *** The playing trigger after [TriggerBox::run] *)

Lemma run_loop_currently_playing (fuel : nat) i (nframes dest_offset : Z) b
    (b' : TriggerBox) :
  run_loop fuel i nframes dest_offset b = Done b' →
  currently_playing b' = currently_playing b.
Proof.
  revert nframes dest_offset b.
  induction fuel as [| fuel IH]; intros nframes dest_offset b; simpl.
  - destruct (nframes =? 0); [| discriminate]. by intros [= <-].
  - destruct (nframes =? 0); [by intros [= <-] |].
    unfold trigger_at. destruct (all_triggers b !! i); simpl; [| discriminate].
    destruct (divides_by_zero _); simpl; [discriminate |].
    destruct (_ <=? _); [destruct (_ || _) |].
    + intros Hloop. by apply IH in Hloop.
    + by intros [= <-].
    + intros Hloop. by apply IH in Hloop.
Qed.

(** [AudioTrigger::run] runs an active trigger only, and leaves it in
    its state or [Stopped]. *)
Lemma AudioTrigger_run_state (fuel : nat) i (nframes dest_offset : Z)
    (first : bool) b (b' : TriggerBox) :
  AudioTrigger_run fuel i nframes dest_offset first b = Done b' →
  currently_playing b' = currently_playing b
  ∧ ∃ t t' : AudioTrigger,
      all_triggers b !! i = Some t ∧ active t = true
      ∧ all_triggers b' !! i = Some t'
      ∧ (_state t' = _state t ∨ _state t' = Stopped).
Proof.
  unfold AudioTrigger_run, trigger_at.
  destruct (all_triggers b !! i) as [t |] eqn:Ht; simpl; [| discriminate].
  destruct (is_audio_region (_region t)); simpl; [| discriminate].
  destruct (active t) eqn:Hactive; simpl; [| discriminate].
  destruct (run_loop fuel i nframes dest_offset b) as [b1 | |] eqn:Hloop; simpl;
    try discriminate.
  pose proof (run_loop_currently_playing _ _ _ _ _ _ Hloop) as Hcp.
  destruct (run_loop_state _ _ _ _ _ _ _ Hloop Ht) as (t1 & Ht1 & Hstate).
  rewrite Ht1. simpl.
  destruct (_ && _); intros [= <-].
  - split; [done |]. exists t, (with_base (with_state Stopped) t1).
    split_and!; try done; [by apply on_trigger_lookup | by right].
  - split; [done |]. by exists t, t1.
Qed.

Lemma maybe_compute_next_transition_in_play (fuel : nat) i (start end_ : Z) b t
    (rt : RunType) (b' : TriggerBox) :
  all_triggers b !! i = Some t →
  in_play (_state t) = true →
  Trigger_maybe_compute_next_transition fuel i start end_ b = Done (rt, b') →
  currently_playing b' = currently_playing b
  ∧ ∃ t' : AudioTrigger,
      all_triggers b' !! i = Some t' ∧ in_play (_state t') = true.
Proof.
  intros Ht Hplay.
  unfold Trigger_maybe_compute_next_transition, trigger_at. rewrite Ht. simpl.
  assert (Hstart : ∀ rt0 b0,
    (b1 <- TriggerBox_prepare_next fuel (_index t)
             (on_trigger i (with_base (with_state Running))
                (on_trigger i AudioTrigger_retrigger
                   (on_trigger i
                      (with_base
                         (with_bang_time
                            (samples_of_beats (ev_time start (_quantization t)))
                            (ev_time start (_quantization t)))) b)));;
     Done (rt0, b1)) = Done (rt, b0) →
    currently_playing b0 = currently_playing b
    ∧ ∃ t' : AudioTrigger,
        all_triggers b0 !! i = Some t' ∧ in_play (_state t') = true).
  { intros rt0 b0.
    destruct (TriggerBox_prepare_next _ _ _) as [b1 | |] eqn:Hprep; simpl;
      try discriminate.
    intros [= _ <-].
    pose proof (prepare_next_all_triggers _ _ _ _ Hprep) as Hts.
    apply prepare_next_frame in Hprep as [_ Hcp].
    rewrite Hts, Hcp. split; [done |].
    eexists. split; [| shelve].
    apply on_trigger_lookup. apply on_trigger_lookup. by apply on_trigger_lookup.
    Unshelve. reflexivity. }
  destruct (_state t) eqn:Hs; try discriminate;
    try (intros [= <- <-]; split; [done |]; exists t; by rewrite Hs).
  - destruct (_ && _); simpl.
    + apply Hstart.
    + intros [= <- <-]. split; [done |]. exists t. by rewrite Hs.
  - destruct (_ && _); simpl.
    + apply Hstart.
    + intros [= <- <-]. split; [done |]. exists t. by rewrite Hs.
  - destruct (_ && _); simpl.
    + intros [= <- <-]. split; [done |]. eexists. split; [| shelve].
      apply on_trigger_lookup. by apply on_trigger_lookup.
      Unshelve. reflexivity.
    + intros [= <- <-]. split; [done |]. exists t. by rewrite Hs.
Qed.

Lemma dispatch_loop_in_play (fuel : nat)
    (start_sample nframes start_beats end_beats : Z) b (b' : TriggerBox) :
  dispatch_loop fuel start_sample nframes start_beats end_beats b = Done b' →
  playing_in_play b'.
Proof.
  revert b. induction fuel as [| fuel IH]; intros b.
  - simpl. destruct (currently_playing b) eqn:Hcp; [discriminate |].
    intros [= <-]. unfold playing_in_play. by rewrite Hcp.
  - simpl. destruct (currently_playing b) as [cp |] eqn:Hcp;
      [| intros [= <-]; unfold playing_in_play; by rewrite Hcp].
    unfold trigger_at at 1.
    destruct (all_triggers b !! cp) as [t |] eqn:Ht; simpl; [| discriminate].
    destruct (_ <=? State_value (_state t)) eqn:Hplay; simpl; [| discriminate].
    set (step := match _state t with
                 | WaitingToStop | WaitingToStart | WaitingForRetrigger =>
                   Trigger_maybe_compute_next_transition fuel cp start_beats end_beats b
                 | _ => Done (RunAll, b)
                 end).
    destruct step as [[rt b1] | |] eqn:Hstep; simpl; try discriminate.
    assert (Hb1 : currently_playing b1 = Some cp
                  ∧ ∃ t1 : AudioTrigger,
                      all_triggers b1 !! cp = Some t1 ∧ in_play (_state t1) = true).
    { rewrite <- Hcp. subst step.
      destruct (_state t) eqn:Hs;
        try (by eapply maybe_compute_next_transition_in_play;
               [exact Ht | unfold in_play; by rewrite Hs | exact Hstep]);
        injection Hstep as <- <-; (split; [done |]); exists t;
        unfold in_play; by rewrite Hs. }
    destruct Hb1 as [Hcp1 (t1 & Ht1 & Hplay1)].
    case_bool_decide as Hnone.
    { intros [= <-]. unfold playing_in_play. rewrite Hcp1. eauto. }
    unfold trigger_at at 1. rewrite Ht1. simpl.
    destruct (block_extent rt (bang_samples t1) start_sample nframes)
      as [dest_offset trigger_samples].
    set (follow := if bool_decide (_state t1 = WaitingToStart) then _ else _).
    destruct follow as [b2 | |] eqn:Hfollow; simpl; try discriminate.
    assert (Hcp2 : currently_playing b2 = Some cp).
    { subst follow. case_bool_decide.
      - destruct (TriggerBox_determine_next_trigger fuel (_index t1) b1)
          as [[z b3] | |] eqn:Hdnt; simpl in Hfollow; try discriminate.
        injection Hfollow as <-.
        apply determine_next_trigger_frame in Hdnt as [[g ->] _]. done.
      - by injection Hfollow as <-. }
    destruct (is_audio_region (_region t1)); simpl; [| discriminate].
    destruct (AudioTrigger_run fuel cp trigger_samples (wrap_u32 dest_offset)
                false b2) as [b3 | |] eqn:Hrun; simpl; try discriminate.
    apply AudioTrigger_run_state in Hrun
      as [Hcp3 (t2 & t3 & Ht2 & Hactive & Ht3 & Hstate)].
    unfold trigger_at at 1. rewrite Ht3. simpl.
    case_bool_decide as Hstopped.
    + destruct (TriggerBox_get_next_trigger b3) as [[nxt |] b4].
      * destruct (trigger_at b4 nxt); simpl; try discriminate.
        apply IH.
      * intros [= <-]. by unfold playing_in_play.
    + intros [= <-]. unfold playing_in_play. rewrite Hcp3, Hcp2.
      exists t3. split; [done |].
      destruct Hstate as [Hsame | ?]; [| done].
      unfold in_play. rewrite Hsame. unfold active in Hactive.
      apply Z.leb_le in Hactive. apply Z.leb_le. simpl in *. lia.
Qed.

(** X19. Whenever [TriggerBox::run] returns from a block that starts at or
    after sample zero, the trigger it leaves as [currently_playing], if
    any, is a trigger of the box and is in one of the states
    [WaitingToStart], [Running], [WaitingForRetrigger], [WaitingToStop]
    and [Stopping]: a trigger that has stopped is never left there. *)
Theorem run_leaves_playing_in_play (fuel : nat) (bufs : list (list MidiEvent))
    (start_sample end_sample nframes : Z) b (b' : TriggerBox) :
  0 <= start_sample →
  TriggerBox_run fuel bufs start_sample end_sample nframes b = Done b' →
  playing_in_play b'.
Proof.
  intros Hstart. unfold TriggerBox_run.
  destruct (Z.ltb_spec start_sample 0); [lia |].
  destruct (TriggerBox_process_midi_trigger_requests bufs b) as [b1 | |];
    simpl; try discriminate.
  destruct (state_requests_loop _ _ _) as [b2 | |]; simpl; try discriminate.
  set (acquire := match currently_playing b2 with Some _ => _ | None => _ end).
  destruct acquire as [b3 | |]; simpl; try discriminate.
  destruct (currently_playing b3) as [cp |] eqn:Hcp.
  - destruct (legato_switch fuel cp _) as [b4 | |]; simpl; try discriminate.
    apply dispatch_loop_in_play.
  - intros [= <-]. unfold playing_in_play. by rewrite Hcp.
Qed.

(** *** A block of a box with a clip playing *)

(** A round of the loop of [TriggerBox::run] on a running clip. *)
Lemma dispatch_loop_running (fuel : nat)
    (start_sample nframes start_beats end_beats : Z) b cp t :
  currently_playing b = Some cp →
  all_triggers b !! cp = Some t →
  _state t = Running →
  is_audio_region (_region t) = true →
  dispatch_loop (S fuel) start_sample nframes start_beats end_beats b
  = (b1 <- AudioTrigger_run fuel cp nframes 0 false b;;
     t1 <- trigger_at b1 cp;;
     if bool_decide (_state t1 = Stopped) then
       match TriggerBox_get_next_trigger b1 with
       | (Some nxt, b2) =>
         tn <- trigger_at b2 nxt;;
         dispatch_loop fuel start_sample nframes start_beats end_beats
           (with_currently_playing (Some nxt)
              (on_trigger nxt AudioTrigger_startup
                 (if _legato tn
                  then on_trigger nxt
                         (AudioTrigger_set_legato_offset (AudioTrigger_current_pos t1))
                         b2
                  else b2)))
       | (None, b2) => Done (with_currently_playing None b2)
       end
     else Done b1).
Proof.
  intros Hcp Ht Hstate Haudio.
  cbn [dispatch_loop]. rewrite Hcp.
  unfold trigger_at at 1. rewrite Ht. cbn [bind].
  rewrite Hstate. change (assert _) with (Done tt). cbn [bind].
  rewrite bool_decide_eq_false_2 by done.
  unfold trigger_at at 1. rewrite Ht. cbn [bind block_extent].
  rewrite Hstate. rewrite bool_decide_eq_false_2 by done. cbn [bind].
  rewrite Haudio. cbn [bind].
  reflexivity.
Qed.


(** *** MIDI input as counts *)

Lemma wrap_int_idem (x : Z) : int_range x → wrap_int x = x.
Proof.
  unfold int_range, INT_MIN, INT_MAX, wrap_int. intros Hx.
  rewrite Z.mod_small by lia. lia.
Qed.

Lemma wrap_int_add (x d e : Z) : wrap_int (wrap_int (x + d) + e) = wrap_int (x + (d + e)).
Proof.
  unfold wrap_int. f_equal.
  replace ((x + d + 2 ^ 31) mod 2 ^ 32 - 2 ^ 31 + e + 2 ^ 31)
    with ((x + d + 2 ^ 31) mod 2 ^ 32 + e) by lia.
  rewrite Zplus_mod_idemp_l. f_equal. lia.
Qed.

Lemma with_requests_none t :
  int_range (_bang t) → int_range (_unbang t) → with_requests 0 0 t = t.
Proof.
  intros Hb Hu. unfold with_requests.
  rewrite !Z.add_0_r, !wrap_int_idem by done. by destruct t as [[]].
Qed.

Lemma with_requests_add (ons offs ons' offs' : Z) t :
  with_requests ons' offs' (with_requests ons offs t)
  = with_requests (ons + ons') (offs + offs') t.
Proof.
  unfold with_requests. destruct t as [[]].
  unfold with_base, with_unbang, with_bang. simpl.
  by rewrite !wrap_int_add.
Qed.

Lemma midi_buffer_requests_app (evs evs' : list MidiEvent) b :
  midi_buffer_requests (evs ++ evs') b
  = (b1 <- midi_buffer_requests evs b;; midi_buffer_requests evs' b1).
Proof.
  revert b. induction evs as [| ev evs IH]; intros b; simpl; [done |].
  destruct (midi_trigger_request ev b); simpl; [apply IH | done | done].
Qed.

Lemma process_midi_concat (bufs : list (list MidiEvent)) b :
  TriggerBox_process_midi_trigger_requests bufs b
  = midi_buffer_requests (concat bufs) b.
Proof.
  revert b. induction bufs as [| mb bufs IH]; intros b; simpl; [done |].
  rewrite midi_buffer_requests_app.
  destruct (midi_buffer_requests mb b); simpl; [apply IH | done | done].
Qed.

Lemma midi_buffer_requests_counts (evs : list MidiEvent) b :
  notes_mapped (midi_trigger_map b) (List.length (all_triggers b)) evs →
  Forall (λ t, int_range (_bang t) ∧ int_range (_unbang t)) (all_triggers b) →
  ∃ b' : TriggerBox,
    midi_buffer_requests evs b = Done b'
    ∧ b' = with_all_triggers (all_triggers b') b
    ∧ List.length (all_triggers b') = List.length (all_triggers b)
    ∧ ∀ k t, all_triggers b !! k = Some t →
        all_triggers b' !! k
        = Some (with_requests
                  (requests_for (midi_trigger_map b) k is_note_on evs)
                  (requests_for (midi_trigger_map b) k is_note_off evs) t).
Proof.
  revert b. induction evs as [| ev evs IH]; intros b Hmapped Hrange.
  - exists b. split_and!; try done; [by destruct b |].
    intros k t Ht. rewrite Ht. f_equal. symmetry.
    apply with_requests_none; by apply (Forall_lookup_1 _ _ _ _ Hrange Ht).
  - apply Forall_cons in Hmapped as [Hev Hmapped].
    assert (Hstep : ∃ f : AudioTrigger → AudioTrigger, ∃ slot : nat,
              midi_trigger_request ev b = Done (on_trigger slot f b)
              ∧ (∀ t, int_range (_bang t) ∧ int_range (_unbang t) →
                      int_range (_bang (f t)) ∧ int_range (_unbang (f t)))
              ∧ ∀ k t, all_triggers b !! k = Some t →
                  all_triggers (on_trigger slot f b) !! k
                  = Some (with_requests
                            (requests_for (midi_trigger_map b) k is_note_on [ev])
                            (requests_for (midi_trigger_map b) k is_note_off [ev])
                            t)).
    { pose proof (midi_trigger_request_cases ev b) as Hcases.
      destruct ev as [nt v | nt v |]; simpl in Hcases.
      - destruct (Hev eq_refl) as (slot & Hslot & Hlt). simpl in Hslot.
        rewrite Hslot in Hcases.
        destruct (Nat.ltb_spec slot (List.length (all_triggers b))); [| lia].
        exists Trigger_bang, slot. split_and!; [done | |].
        + intros t [_ Hu]. split; [apply wrap_int_range | done].
        + intros k t Ht.
          destruct (decide (slot = k)) as [-> | Hne].
          * rewrite (on_trigger_lookup _ _ _ _ Ht). f_equal.
            unfold requests_for. simpl. rewrite Hslot.
            rewrite bool_decide_eq_true_2 by done. simpl.
            unfold with_requests, Trigger_bang, fetch_add.
            rewrite Z.add_0_r.
            rewrite (wrap_int_idem (_unbang t))
              by apply (Forall_lookup_1 _ _ _ _ Hrange Ht).
            by destruct t as [[]].
          * rewrite on_trigger_lookup_ne by done. rewrite Ht. f_equal.
            unfold requests_for. simpl. rewrite Hslot.
            rewrite bool_decide_eq_false_2 by congruence. simpl.
            symmetry. apply with_requests_none;
              by apply (Forall_lookup_1 _ _ _ _ Hrange Ht).
      - destruct (Hev eq_refl) as (slot & Hslot & Hlt). simpl in Hslot.
        rewrite Hslot in Hcases.
        destruct (Nat.ltb_spec slot (List.length (all_triggers b))); [| lia].
        exists Trigger_unbang, slot. split_and!; [done | |].
        + intros t [Hb _]. split; [done | apply wrap_int_range].
        + intros k t Ht.
          destruct (decide (slot = k)) as [-> | Hne].
          * rewrite (on_trigger_lookup _ _ _ _ Ht). f_equal.
            unfold requests_for. simpl. rewrite Hslot.
            rewrite bool_decide_eq_true_2 by done. simpl.
            unfold with_requests, Trigger_unbang, fetch_add.
            rewrite Z.add_0_r.
            rewrite (wrap_int_idem (_bang t))
              by apply (Forall_lookup_1 _ _ _ _ Hrange Ht).
            by destruct t as [[]].
          * rewrite on_trigger_lookup_ne by done. rewrite Ht. f_equal.
            unfold requests_for. simpl. rewrite Hslot.
            rewrite bool_decide_eq_false_2 by congruence. simpl.
            symmetry. apply with_requests_none;
              by apply (Forall_lookup_1 _ _ _ _ Hrange Ht).
      - exists (λ x, x), 0%nat. split_and!; [| done |].
        + rewrite Hcases. f_equal. unfold on_trigger.
          rewrite list_alter_id by done. by destruct b.
        + intros k t Ht. unfold requests_for. simpl.
          unfold on_trigger. simpl. rewrite list_alter_id by done.
          rewrite Ht. f_equal. symmetry.
          apply with_requests_none; by apply (Forall_lookup_1 _ _ _ _ Hrange Ht). }
    destruct Hstep as (f & slot & Hreq & Hkeeps & Hone).
    set (b1 := on_trigger slot f b) in *.
    destruct (IH b1) as (b' & Hrest & Hframe & Hlen & Hcount).
    { subst b1. rewrite on_trigger_length. exact Hmapped. }
    { subst b1. unfold on_trigger. simpl.
      apply Forall_lookup_2. intros k t Hk.
      destruct (decide (k = slot)) as [-> | Hne].
      - destruct (all_triggers b !! slot) as [t0 |] eqn:Ht0.
        + rewrite list_lookup_alter_eq, Ht0 in Hk. simpl in Hk.
          injection Hk as <-. apply Hkeeps.
          by apply (Forall_lookup_1 _ _ _ _ Hrange Ht0).
        + rewrite list_lookup_alter_eq, Ht0 in Hk. done.
      - rewrite list_lookup_alter_ne in Hk by done.
        by apply (Forall_lookup_1 _ _ _ _ Hrange Hk). }
    exists b'. split_and!.
    + simpl. rewrite Hreq. simpl. exact Hrest.
    + rewrite Hframe. subst b1. by destruct b.
    + rewrite Hlen. subst b1. by rewrite on_trigger_length.
    + intros k t Ht.
      rewrite (Hcount k _ (Hone k t Ht)). f_equal.
      subst b1. rewrite with_requests_add. unfold requests_for.
      change (midi_trigger_map (on_trigger slot f b)) with (midi_trigger_map b).
      cbn [List.filter].
      destruct (is_note_on ev && bool_decide (midi_trigger_map b !! note ev = Some k));
        destruct (is_note_off ev && bool_decide (midi_trigger_map b !! note ev = Some k));
        cbn [List.length]; f_equal; lia.
Qed.

(** X21. MIDI input whose notes are all mapped to slots of the box never
    fails, and what it does is a matter of counting: each trigger gets one
    bang for every note-on and one unbang for every note-off mapped to its
    slot, over all buffers, on counters that wrap like [int]. Nothing else
    of the box changes. *)
Theorem process_midi_trigger_requests_counts (bufs : list (list MidiEvent)) b :
  notes_mapped (midi_trigger_map b) (List.length (all_triggers b)) (concat bufs) →
  Forall (λ t, int_range (_bang t) ∧ int_range (_unbang t)) (all_triggers b) →
  ∃ b' : TriggerBox,
    TriggerBox_process_midi_trigger_requests bufs b = Done b'
    ∧ b' = with_all_triggers (all_triggers b') b
    ∧ List.length (all_triggers b') = List.length (all_triggers b)
    ∧ ∀ k t, all_triggers b !! k = Some t →
        all_triggers b' !! k
        = Some (with_requests
                  (requests_for (midi_trigger_map b) k is_note_on (concat bufs))
                  (requests_for (midi_trigger_map b) k is_note_off (concat bufs))
                  t).
Proof.
  intros Hmapped Hrange. rewrite process_midi_concat.
  by apply midi_buffer_requests_counts.
Qed.

(** *** Launching a clip from rest *)

Lemma state_requests_loop_idle_slots (fuel : nat) (slots : list nat) b :
  Forall (λ m, ∃ t : AudioTrigger, all_triggers b !! m = Some t ∧ idle t) slots →
  state_requests_loop fuel slots b = Done b.
Proof.
  induction slots as [| m slots IH]; intros Hslots; simpl; [done |].
  apply Forall_cons in Hslots as [(t & Ht & Hidle) Hslots].
  rewrite (process_state_requests_idle fuel m b t Ht Hidle). simpl.
  by apply IH.
Qed.

Lemma state_requests_loop_app (fuel : nat) (slots slots' : list nat) b :
  state_requests_loop fuel (slots ++ slots') b
  = (b1 <- state_requests_loop fuel slots b;; state_requests_loop fuel slots' b1).
Proof.
  revert b. induction slots as [| m slots IH]; intros b; simpl; [done |].
  destruct (Trigger_process_state_requests fuel m b); simpl; [apply IH | done | done].
Qed.

(** The box after the one pending bang of the stopped trigger in slot [n]
    is processed while nothing plays. *)
Lemma process_state_requests_one_bang (fuel : nat) n b t :
  all_triggers b !! n = Some t →
  _state t = Stopped → _requested_state t = None_ →
  _bang t = 1 → _unbang t = 0 →
  currently_playing b = None →
  (1 ≤ fuel)%nat →
  Trigger_process_state_requests fuel n b
  = Done (with_implicit_queue (rb_reset (implicit_queue b))
            (with_explicit_queue (rb_write n (explicit_queue b))
               (on_trigger n (with_base (with_bang 0)) b))).
Proof.
  intros Ht Hstate Hreq Hbang Hunbang Hcp Hfuel.
  unfold Trigger_process_state_requests, trigger_at. rewrite Ht. simpl.
  rewrite Hreq. simpl.
  rewrite (on_trigger_same n _ b t Ht)
    by (destruct t as [[]]; simpl in *; by subst).
  rewrite (bang_loop_stopped fuel n b t Ht Hstate Hcp)
    by (rewrite Hbang; unfold INT_MAX; lia).
  simpl. rewrite Hbang. simpl.
  eapply unbang_loop_none; [by apply (on_trigger_lookup n _ b t Ht) | done].
Qed.

End Properties.

(** ** Examples, witnesses and counterexamples *)

#[local] Existing Instances demo_tempo demo_session demo_prng.

(** C7, as stated, fails on a new trigger: its usable length is unset
    (zero), and loading a clip of 1000 samples makes it 1000, not the
    minimum of 0 and 1000. *)
Lemma load_data_takes_minimum_counterexample :
  ¬ load_data_takes_minimum (demo_region 1 1000) (AudioTrigger_new 0).
Proof. unfold load_data_takes_minimum. vm_compute. discriminate. Qed.

Lemma load_data_lengths_witness :
  readable (demo_region 1 1000) = true ∧
  usable_length (snd (AudioTrigger_load_data (demo_region 1 1000)
                        (AudioTrigger_new 0))) = 1000.
Proof.
  split; [reflexivity |].
  pose proof (load_data_lengths (demo_region 1 1000) (AudioTrigger_new 0)
                eq_refl) as (_ & _ & Hul & _).
  exact Hul.
Defined.

Lemma queue_explict_effects_witness :
  rb_items (implicit_queue
              (TriggerBox_queue_explict 1
                 (with_currently_playing (Some 0%nat) fresh_box))) = [].
Proof.
  exact (proj1 (queue_explict_effects 1
                  (with_currently_playing (Some 0%nat) fresh_box))).
Defined.

Lemma run_negative_start_sample_witness :
  @TriggerBox_run demo_tempo demo_prng 5 [[NoteOnEvent 60 100]] (-64) 960 1024 fresh_box
  = Done fresh_box.
Proof. apply run_negative_start_sample. lia. Defined.


(** C5, as stated, fails on the box as constructed: no slot has a region,
    the action drawn for slot 0 is [NextTrigger], the search finds nothing
    and slot 0 itself comes back. *)
Lemma follow_selection_counterexample :
  ¬ follow_selection_as_stated 0 0 fresh_box.
Proof.
  intros Hstated.
  destruct (Hstated (AudioTrigger_new 0) 0 (after_draw fresh_box))
    as (t & Ht & Hreg & _).
  - reflexivity.
  - vm_compute. reflexivity.
  - lia.
  - vm_compute. discriminate.
  - vm_compute. discriminate.
  - vm_compute in Ht. injection Ht as <-. vm_compute in Hreg. discriminate.
Qed.

Lemma determine_next_trigger_choice_witness :
  ∃ t : AudioTrigger,
    all_triggers clip_box !! 1%nat = Some t
    ∧ has_region t = true ∧ active t = false.
Proof.
  destruct (determine_next_trigger_choice 0 0 clip_box _ 1 (after_draw clip_box)
              eq_refl) as [Hfollow | [Hcur _]].
  - vm_compute. reflexivity.
  - lia.
  - exact Hfollow.
  - discriminate Hcur.
Defined.



Lemma process_state_requests_drains_witness :
  ∃ fuel0 : nat, ∀ fuel : nat, (fuel0 ≤ fuel)%nat →
    ∃ b' (t' : AudioTrigger),
      Trigger_process_state_requests fuel 0 banged_box = Done b'
      ∧ all_triggers b' !! 0%nat = Some t'
      ∧ _bang t' = 0 ∧ _unbang t' = 0 ∧ _requested_state t' = None_.
Proof.
  apply (process_state_requests_drains 0 banged_box _ eq_refl).
  - vm_compute. discriminate.
  - vm_compute. split; discriminate.
  - vm_compute. split; discriminate.
Defined.


(** Running the model: two bangs on a stopped trigger queue its slot
    twice; the unbang is dropped, as the launch style is [Toggle]. *)
Example process_state_requests_example :
  ∃ b', Trigger_process_state_requests 2 0 banged_box = Done b'
        ∧ rb_items (explicit_queue b') = [0%nat; 0%nat]
        ∧ slot_state 0 b' = Some Stopped.
Proof. eexists. split; [vm_compute; reflexivity |]. split; reflexivity. Qed.

(** Two fuel units are not enough for three pending bangs. *)
Example process_state_requests_out_of_fuel :
  Trigger_process_state_requests 2 0 (on_trigger 0 Trigger_bang banged_box)
  = OutOfFuel.
Proof. vm_compute. reflexivity. Qed.

(** A bang on slot 0 by note 60: the trigger starts at the grid point of
    the first block and asks for slot 1 to follow. *)
Example run_example :
  ∃ b', TriggerBox_run 3 [[NoteOnEvent 60 100]] 0 1024 1024 clip_box = Done b'
        ∧ currently_playing b' = Some 0%nat
        ∧ slot_state 0 b' = Some Running
        ∧ slot_read_index 0 b' = Some 1024
        ∧ rb_items (implicit_queue b') = [1%nat].
Proof. eexists. split; [vm_compute; reflexivity |]. repeat split; reflexivity. Qed.

(** [set_region] takes a region whose data cannot be read and returns 0;
    the trigger then holds a region of two channels and no data, and a
    block of [AudioTrigger::run] on it divides by zero. *)
Example run_without_data :
  (∃ a', AudioTrigger_set_region unreadable_region (AudioTrigger_new 0)
         = Done (0, a')
         ∧ data_size a' = 0)
  ∧ AudioTrigger_run 1 0 64 0 false no_data_box = Crash DivisionByZero.
Proof.
  split.
  - eexists. split; reflexivity.
  - eapply AudioTrigger_run_divides_by_zero; [reflexivity .. | discriminate].
Qed.

(** ** Witnesses of the further properties *)

Lemma process_state_requests_unbangs_witness :
  ∃ s' : State,
    Trigger_process_state_requests 1 0 (on_trigger 0 Trigger_unbang fresh_box)
    = Done (on_trigger 0 (with_base (λ x, with_unbang 0 (with_state s' x)))
              (on_trigger 0 Trigger_unbang fresh_box))
    ∧ s' = Stopped.
Proof.
  destruct (process_state_requests_unbangs 1 0
              (on_trigger 0 Trigger_unbang fresh_box) _ eq_refl eq_refl eq_refl)
    as (s' & Hrun & Hkeep & _).
  - vm_compute. split; discriminate.
  - vm_compute. lia.
  - exists s'. split; [exact Hrun |]. apply Hkeep. right. reflexivity.
Defined.

Lemma process_state_requests_bangs_running_witness :
  Trigger_process_state_requests 1 0 (on_trigger 0 Trigger_bang playing_box)
  = Done (TriggerBox_clear_implicit
            (on_trigger 0
               (with_base (λ x, with_bang 0 (with_state WaitingToStop x)))
               (on_trigger 0 Trigger_bang playing_box))).
Proof.
  apply (process_state_requests_bangs_running 1 0
           (on_trigger 0 Trigger_bang playing_box) _ eq_refl eq_refl eq_refl
           eq_refl).
  - vm_compute. split; discriminate.
  - vm_compute. lia.
Defined.

Lemma process_state_requests_bangs_stopped_witness :
  ∃ b', Trigger_process_state_requests 1 0 (on_trigger 0 Trigger_bang clip_box)
        = Done b'
        ∧ rb_items (explicit_queue b') = [0%nat]
        ∧ slot_state 0 b' = Some Stopped.
Proof.
  destruct (process_state_requests_bangs_stopped 1 0
              (on_trigger 0 Trigger_bang clip_box) _ eq_refl eq_refl eq_refl
              eq_refl eq_refl)
    as (b' & Hrun & Hts & Hq & _).
  - vm_compute. split; discriminate.
  - vm_compute. lia.
  - exists b'. split; [exact Hrun |]. split; [exact Hq |].
    unfold slot_state. rewrite Hts. reflexivity.
Defined.

Lemma stop_then_process_state_requests_witness :
  Trigger_process_state_requests 0 0 (on_trigger 0 (Trigger_stop (-1)) playing_box)
  = Done (on_trigger 0
            (with_base (λ x, with_requested_state None_
                               (with_state WaitingToStop x))) playing_box).
Proof.
  exact (stop_then_process_state_requests 0 0 (-1) playing_box _ eq_refl
           eq_refl eq_refl).
Defined.

Lemma run_at_rest_witness :
  TriggerBox_run 0 [[OtherEvent]] 0 1024 1024 (with_stop_all true fresh_box)
  = Done (with_stop_all true fresh_box).
Proof.
  apply run_at_rest; try reflexivity.
  - repeat constructor.
  - vm_compute. repeat constructor.
Defined.

Lemma queue_explict_then_get_next_witness :
  fst (TriggerBox_get_next_trigger (TriggerBox_queue_explict 1 fresh_box))
  = Some 1%nat.
Proof.
  refine (proj1 (queue_explict_then_get_next 1 fresh_box _)).
  vm_compute. lia.
Defined.

Lemma prepare_next_effects_witness :
  ∃ b', TriggerBox_prepare_next 0 0 clip_box = Done b'
        ∧ all_triggers b' = all_triggers clip_box
        ∧ rb_items (implicit_queue b') = [1%nat].
Proof.
  exists (TriggerBox_queue_implicit 1 (after_draw clip_box)).
  split; [vm_compute; reflexivity |].
  split; [| reflexivity].
  refine (proj1 (prepare_next_effects 0 0 clip_box _ _)).
  vm_compute. reflexivity.
Defined.

Lemma determine_next_trigger_scans_witness :
  TriggerBox_determine_next_trigger 0 0 (follow_box PrevTrigger clip_box)
  = Done (1, after_draw (follow_box PrevTrigger clip_box)).
Proof.
  pose proof (determine_next_trigger_scans 0 0 (follow_box PrevTrigger clip_box)
                _ eq_refl) as (Hprev & _).
  { vm_compute. discriminate. }
  exact (proj1 (Hprev eq_refl)).
Defined.

Lemma determine_next_trigger_random_search_witness :
  match TriggerBox_determine_next_trigger 5 0 (follow_box AnyTrigger fresh_box) with
  | Done _ => False
  | _ => True
  end.
Proof.
  pose proof (determine_next_trigger_random_search 5 0
                (follow_box AnyTrigger fresh_box) _ eq_refl) as (Hany & _).
  { vm_compute. discriminate. }
  destruct (TriggerBox_determine_next_trigger 5 0 (follow_box AnyTrigger fresh_box))
    as [[z b'] | |] eqn:Hdnt; [| exact I | exact I].
  apply (Hany eq_refl) with (z := z) (b' := b'); [| reflexivity].
  intros m t Hm.
  do 8 (destruct m as [| m]; [injection Hm as <-; reflexivity |]).
  discriminate Hm.
Defined.



Lemma extent_consistent_kept_witness :
  extent_consistent saved_trigger
  ∧ extent_consistent (Trigger_set_launch_style Repeat saved_trigger).
Proof.
  assert (Hsaved : extent_consistent saved_trigger) by reflexivity.
  split; [exact Hsaved |].
  destruct (extent_consistent_kept saved_trigger Hsaved)
    as (_ & _ & _ & _ & Hstyle & _).
  exact (Hstyle Repeat).
Defined.

Lemma maybe_compute_next_transition_bars_witness :
  Trigger_maybe_compute_next_transition 0 0 1920 3840 bars_box
  = Done (RunNone, bars_box).
Proof.
  refine (maybe_compute_next_transition_bars 0 0 1920 3840 bars_box _ eq_refl _ _).
  - vm_compute. discriminate.
  - lia.
Defined.

Lemma run_leaves_playing_in_play_witness :
  ∃ b', TriggerBox_run 3 [[NoteOnEvent 60 100]] 0 1024 1024 clip_box = Done b'
        ∧ currently_playing b' = Some 0%nat
        ∧ playing_in_play b'.
Proof.
  eexists. split; [vm_compute; reflexivity |].
  split; [reflexivity |].
  apply (run_leaves_playing_in_play 3 [[NoteOnEvent 60 100]] 0 1024 1024 clip_box).
  - lia.
  - vm_compute. reflexivity.
Defined.


Lemma process_midi_trigger_requests_counts_witness :
  ∃ b',
    TriggerBox_process_midi_trigger_requests
      [[NoteOnEvent 60 100; NoteOnEvent 60 90]; [NoteOffEvent 61 0]] fresh_box
    = Done b'
    ∧ all_triggers b' !! 0%nat = Some (with_requests 2 0 (AudioTrigger_new 0))
    ∧ all_triggers b' !! 1%nat = Some (with_requests 0 1 (AudioTrigger_new 1)).
Proof.
  assert (Hmapped : notes_mapped (midi_trigger_map fresh_box)
                      (List.length (all_triggers fresh_box))
                      (concat [[NoteOnEvent 60 100; NoteOnEvent 60 90];
                               [NoteOffEvent 61 0]])).
  { unfold notes_mapped. simpl concat.
    repeat (constructor;
            [intros _;
             first [exists 0%nat; split; [vm_compute; reflexivity | vm_compute; lia]
                   | exists 1%nat; split; [vm_compute; reflexivity | vm_compute; lia]]
            |]).
    constructor. }
  assert (Hrange : Forall (λ t : AudioTrigger,
                             int_range (_bang t) ∧ int_range (_unbang t))
                     (all_triggers fresh_box)).
  { simpl. repeat (constructor; [split; split; discriminate |]). constructor. }
  pose proof (process_midi_trigger_requests_counts _ fresh_box Hmapped Hrange)
    as (b' & Hrun & _ & _ & Hcount).
  exists b'. split; [exact Hrun |].
  split; [exact (Hcount 0%nat _ eq_refl) | exact (Hcount 1%nat _ eq_refl)].
Defined.

